(** * Fasty: the RSVP reading engine of [src/app.js]

    A shallow embedding of the [FastyApp] class: the text segmenter
    ([parseText], [extractWords], [intelligentSplit]), the ORP calculator
    ([calculateORP], [splitWordAtORP]) and the playback state machine
    (timers, [play], [pause], [advanceWord], navigation), followed by the
    properties of the specification.

    Conventions.
    - A JavaScript string is a list of code units.  Code units are the 256
      values of [ascii] (the Latin-1 range); the white space of
      [String.prototype.trim] and of the regular expression class [\s] is,
      in that range, the set 9..13, 32 and 160.
    - Array indices and counters are [nat]: the code only decrements an
      index behind a [> 0] guard.
    - Reading a property of [undefined] raises a TypeError: fallible
      operations return [option], [None] being the uncaught exception. *)

From Stdlib Require Import List Ascii Arith Bool Lia ZArith QArith.
From Stdlib Require String.
Import ListNotations.
Import String.StringSyntax.
Close Scope Q_scope.
Close Scope Z_scope.

(* ================================================================== *)
(** * JavaScript string primitives                                     *)
(* ================================================================== *)

Module Js.

Definition jsstring := list ascii.

(** A literal of the JavaScript source. *)
Definition str (s : String.string) : jsstring := String.list_ascii_of_string s.
Arguments str s%_string_scope.

Definition code (c : ascii) : nat := nat_of_ascii c.

(** [\s], and the characters removed by [trim]. *)
Definition isSpace (c : ascii) : bool :=
  let n := code c in
  ((9 <=? n) && (n <=? 13)) || (n =? 32) || (n =? 160).

(** [[a-zA-Z0-9]]. *)
Definition isAlnum (c : ascii) : bool :=
  let n := code c in
  ((97 <=? n) && (n <=? 122)) || ((65 <=? n) && (n <=? 90))
  || ((48 <=? n) && (n <=? 57)).

(** [[.!?]]. *)
Definition isTerminator (c : ascii) : bool :=
  let n := code c in
  (n =? 46) || (n =? 33) || (n =? 63).

(** A double or a single quote character. *)
Definition isQuote (c : ascii) : bool :=
  let n := code c in
  (n =? 34) || (n =? 39).

Definition LF : ascii := ascii_of_nat 10.
Definition CR : ascii := ascii_of_nat 13.
Definition SP : ascii := ascii_of_nat 32.

Fixpoint dropWhile (p : ascii -> bool) (s : jsstring) : jsstring :=
  match s with
  | [] => []
  | c :: r => if p c then dropWhile p r else s
  end.

Fixpoint takeWhile (p : ascii -> bool) (s : jsstring) : jsstring :=
  match s with
  | [] => []
  | c :: r => if p c then c :: takeWhile p r else []
  end.

Definition trimStart (s : jsstring) : jsstring := dropWhile isSpace s.
Definition trimEnd (s : jsstring) : jsstring := rev (dropWhile isSpace (rev s)).

(** [s.trim()]: white space is removed at both ends. *)
Definition trim (s : jsstring) : jsstring := trimStart (trimEnd s).

(** A string is truthy when it is not empty; also [s.length > 0]. *)
Definition nonEmpty (s : jsstring) : bool := 0 <? length s.

(** [s.split(sep)] for a one-character separator; the empty string splits
    into one empty piece. *)
Fixpoint splitOn (sep : ascii) (s : jsstring) : list jsstring :=
  match s with
  | [] => [[]]
  | c :: r =>
      if Ascii.eqb c sep then [] :: splitOn sep r
      else match splitOn sep r with
           | p :: ps => (c :: p) :: ps
           | [] => [[c]]
           end
  end.

(** [s.split(/\s+/)]: the pieces between maximal runs of white space.
    [inRun] records that the previous character belonged to a separator. *)
Fixpoint splitSpaces (inRun : bool) (s : jsstring) : list jsstring :=
  match s with
  | [] => [[]]
  | c :: r =>
      if isSpace c then
        if inRun then splitSpaces true r else [] :: splitSpaces true r
      else match splitSpaces false r with
           | p :: ps => (c :: p) :: ps
           | [] => [[c]]
           end
  end.

(** [s.replace(/\r\n/g, '\n')]. *)
Fixpoint replaceCRLF (s : jsstring) : jsstring :=
  match s with
  | [] => []
  | c :: r =>
      match r with
      | d :: r' =>
          if Ascii.eqb c CR && Ascii.eqb d LF then LF :: replaceCRLF r'
          else c :: replaceCRLF r
      | [] => [c]
      end
  end.

(** [s.replace(/a/g, b)] for single characters [a] and [b]. *)
Definition replaceChar (a b : ascii) (s : jsstring) : jsstring :=
  map (fun c => if Ascii.eqb c a then b else c) s.

(** [s.replace(/\s+/g, ' ')]. *)
Fixpoint collapseSpaces (inRun : bool) (s : jsstring) : jsstring :=
  match s with
  | [] => []
  | c :: r =>
      if isSpace c then
        if inRun then collapseSpaces true r else SP :: collapseSpaces true r
      else c :: collapseSpaces false r
  end.

(** [s.substring(a, b)]: both ends are clamped to the length and swapped
    when out of order. *)
Definition substring (s : jsstring) (a b : nat) : jsstring :=
  let a' := Nat.min a (length s) in
  let b' := Nat.min b (length s) in
  let lo := Nat.min a' b' in
  let hi := Nat.max a' b' in
  firstn (hi - lo) (skipn lo s).

(** [s.substring(a)]. *)
Definition substringFrom (s : jsstring) (a : nat) : jsstring :=
  skipn (Nat.min a (length s)) s.

(** [s.charAt(i)]: the empty string out of range. *)
Definition charAt (s : jsstring) (i : nat) : jsstring :=
  match nth_error s i with
  | Some c => [c]
  | None => []
  end.

(** The string that [undefined] converts to. *)
Definition undefinedString : jsstring := str "undefined".

End Js.

Import Js.

(* ================================================================== *)
(** * ORP calculation                                                  *)
(* ================================================================== *)

Module Orp.

(** [word.replace(/[^a-zA-Z0-9]/g, '')]. *)
Definition cleanWord (word : jsstring) : jsstring := filter isAlnum word.

(** The chain of [if (length <= ...)] tests. *)
Definition orpIndex (length : nat) : nat :=
  if length <=? 1 then 0
  else if length <=? 2 then 0
  else if length <=? 3 then 1
  else if length <=? 5 then 1
  else if length <=? 9 then 2
  else if length <=? 13 then 3
  else 4.

(** The [for] loop counting leading punctuation: [i] is the loop variable,
    [count] the running [leadingPunctuation]; [fuel] bounds the number of
    iterations, which the test [i < word.length] keeps below the length. *)
Fixpoint leadingLoop (fuel : nat) (word : jsstring) (i count : nat) : nat :=
  match fuel with
  | O => count
  | S fuel' =>
      if i <? length word then
        match nth_error word i with
        | Some c =>
            if negb (isAlnum c) then leadingLoop fuel' word (S i) (S count)
            else count
        | None => count
        end
      else count
  end.

Definition leadingPunctuation (word : jsstring) : nat :=
  leadingLoop (length word) word 0 0.

Definition calculateORP (word : jsstring) : nat :=
  let length := length (cleanWord word) in
  leadingPunctuation word + orpIndex length.

Record Split := { before : jsstring; focus : jsstring; after : jsstring }.

Definition splitWordAtORP (word : jsstring) : Split :=
  let orpIndex := calculateORP word in
  {| before := substring word 0 orpIndex;
     focus := charAt word orpIndex;
     after := substringFrom word (orpIndex + 1) |}.

(** The offset table of the specification, by ranges of the clean length. *)
Definition offsetTable (n : nat) : nat :=
  if n <=? 2 then 0
  else if n <=? 5 then 1
  else if n <=? 9 then 2
  else if n <=? 13 then 3
  else 4.

(** The specification's count: the run from position 0 up to the first
    letter or digit. *)
Definition leadingRun (word : jsstring) : nat :=
  length (takeWhile (fun c => negb (isAlnum c)) word).

End Orp.

(* ================================================================== *)
(** * Text segmentation                                                *)
(* ================================================================== *)

Module Segmenter.

Record Paragraph := {
  index : nat;
  text : jsstring;
  words : list jsstring;
  startWordIndex : nat
}.

(** [extractWords]. *)
Definition extractWords (text : jsstring) : list jsstring :=
  let text := trim (collapseSpaces false (replaceChar LF SP text)) in
  filter nonEmpty (splitOn SP text).

(** [array.map((x, index) => f x index)], counting from [i]. *)
Fixpoint mapIndexed {A B : Type} (f : A -> nat -> B) (i : nat) (l : list A)
  : list B :=
  match l with
  | [] => []
  | a :: r => f a i :: mapIndexed f (S i) r
  end.

(** The normalisation of line endings at the head of [parseText]. *)
Definition normalizeNewlines (text : jsstring) : jsstring :=
  replaceChar CR LF (replaceCRLF text).

(** The trimmed, non-empty lines. *)
Definition splitParagraphs (text : jsstring) : list jsstring :=
  filter nonEmpty (map trim (splitOn LF (normalizeNewlines text))).

(** The [forEach] that assigns the absolute word indices; [absoluteIndex]
    is the variable of that name. *)
Fixpoint assignStartIndices (absoluteIndex : nat) (ps : list Paragraph)
  : list Paragraph :=
  match ps with
  | [] => []
  | p :: r =>
      {| index := index p; text := text p; words := words p;
         startWordIndex := absoluteIndex |}
      :: assignStartIndices (absoluteIndex + length (words p)) r
  end.

(** The value stored in [this.paragraphs] by [parseText]. *)
Definition parseParagraphs (text : jsstring) : list Paragraph :=
  let paragraphs := splitParagraphs text in
  assignStartIndices 0
    (mapIndexed (fun paragraphText index =>
       {| index := index; text := paragraphText;
          words := extractWords paragraphText; startWordIndex := 0 |})
     0 paragraphs).

(** [paragraphs.flatMap(p => p.words)], the value of [this.words]. *)
Definition flattenWords (ps : list Paragraph) : list jsstring :=
  flat_map words ps.

(** The boolean returned by [parseText]. *)
Definition parseSucceeds (text : jsstring) : bool :=
  0 <? length (flattenWords (parseParagraphs text)).

(** ** [intelligentSplit] *)

(** [text.match(/[^.!?]+[.!?]+\s*/g)].  At a start position the engine takes
    the longest run of non-terminators (at least one), then needs a
    terminator, takes the longest run of terminators and the longest run of
    white space.  A shorter first run cannot succeed, since it is followed
    by a non-terminator; so a position fails exactly when it holds a
    terminator, or when its run of non-terminators reaches the end of the
    text, and then every later position fails too.  The search resumes
    after each match.  [fuel] bounds the number of matches. *)
Fixpoint matchSentences (fuel : nat) (s : jsstring) : list jsstring :=
  match fuel with
  | O => []
  | S fuel' =>
      let s1 := dropWhile isTerminator s in
      let body := takeWhile (fun c => negb (isTerminator c)) s1 in
      let r1 := dropWhile (fun c => negb (isTerminator c)) s1 in
      match body, r1 with
      | [], _ => []
      | _, [] => []
      | _, _ =>
          let marks := takeWhile isTerminator r1 in
          let r2 := dropWhile isTerminator r1 in
          let spaces := takeWhile isSpace r2 in
          let r3 := dropWhile isSpace r2 in
          (body ++ marks ++ spaces) :: matchSentences fuel' r3
      end
  end.

(** [text.match(...) || [text]]: [match] yields [null] without a match. *)
Definition sentencesOf (text : jsstring) : list jsstring :=
  match matchSentences (length text) text with
  | [] => [text]
  | l => l
  end.

Definition targetWordsPerParagraph : nat := 75.

(** The variables [paragraphs], [currentParagraph] and [wordCount]. *)
Record SplitState := {
  outParagraphs : list jsstring;
  currentParagraph : jsstring;
  wordCount : nat
}.

(** The body of [sentences.forEach]. *)
Definition addSentence (st : SplitState) (sentence : jsstring) : SplitState :=
  let sentenceWords := length (splitSpaces false (trim sentence)) in
  if (targetWordsPerParagraph <? wordCount st + sentenceWords)
     && nonEmpty (currentParagraph st)
  then {| outParagraphs := outParagraphs st ++ [trim (currentParagraph st)];
          currentParagraph := sentence;
          wordCount := sentenceWords |}
  else {| outParagraphs := outParagraphs st;
          currentParagraph := currentParagraph st ++ sentence;
          wordCount := wordCount st + sentenceWords |}.

Definition intelligentSplit (text : jsstring) : list jsstring :=
  let sentences := sentencesOf text in
  let st := fold_left addSentence sentences
              {| outParagraphs := []; currentParagraph := []; wordCount := 0 |} in
  let paragraphs :=
    if nonEmpty (trim (currentParagraph st))
    then outParagraphs st ++ [trim (currentParagraph st)]
    else outParagraphs st in
  if 0 <? length paragraphs then paragraphs else [text].

End Segmenter.

Import Orp Segmenter.

(* ================================================================== *)
(** * The playback engine                                              *)
(* ================================================================== *)

Module Player.

(** The fields of the [FastyApp] object.  [wpm] ranges over the positive
    integers, as the configuration requires. *)
Record App := {
  appWords : list jsstring;   (* this.words *)
  paragraphs : list Paragraph;
  currentWordIndex : nat;
  currentParagraphIndex : nat;
  isPlaying : bool;
  isPaused : bool;
  hasStarted : bool;
  wpm : positive;
  sentencePause : Z;
  intervalId : option positive;
  sentencePauseTimeoutId : option positive
}.

(** The status texts written by [updateStatus]. *)
Inductive Message :=
| MsgPasteAndClick   (* Paste text and click here or press Space *)
| MsgClickToStart    (* Click here or press Space to start *)
| MsgPasteAndPress   (* Paste text and press Space to start *)
| MsgPaused          (* Paused - Press Space to continue *)
| MsgEndOfParagraph  (* End of paragraph - Press Space to continue *)
| MsgDone.           (* Done - Edit text or press Space to restart *)

(** The part of the page that the engine reads or writes.  The width of the
    progress bar and the centring of the focus letter are layout writes
    that nothing reads back; they are left out. *)
Record Dom := {
  textInput : jsstring;
  wordBefore : jsstring;
  wordFocus : jsstring;
  wordAfter : jsstring;
  statusText : Message;
  statusBreak : bool;      (* class paragraph-break of the status text *)
  statusHidden : bool;     (* class hidden of the status message *)
  wordCounter : nat * nat; (* the two numbers of the counter text *)
  wordVisible : bool;      (* class visible of the word display *)
  classReading : bool;     (* class reading of the container *)
  classPaused : bool       (* class paused of the container *)
}.

(** The closures handed to [setTimeout] by [scheduleNextWord]. *)
Inductive Callback :=
| CbSentenceClear    (* outer closure of the sentence-pause branch *)
| CbSentenceAdvance  (* inner closure of the sentence-pause branch *)
| CbAdvance.         (* closure of the normal branch *)

(** An armed timer of the host: handle, requested delay in milliseconds
    (the quotient [60000 / wpm] is kept as an exact rational), closure. *)
Record Timer := {
  timerId : positive;
  timerDelay : Q;
  timerCallback : Callback
}.

Record World := {
  app : App;
  dom : Dom;
  pending : list Timer;
  nextTimerId : positive
}.

(** ** Field updates *)

Definition set_words v a :=
  {| appWords := v; paragraphs := paragraphs a;
     currentWordIndex := currentWordIndex a;
     currentParagraphIndex := currentParagraphIndex a;
     isPlaying := isPlaying a; isPaused := isPaused a;
     hasStarted := hasStarted a; wpm := wpm a;
     sentencePause := sentencePause a; intervalId := intervalId a;
     sentencePauseTimeoutId := sentencePauseTimeoutId a |}.

Definition set_paragraphs v a :=
  {| appWords := appWords a; paragraphs := v;
     currentWordIndex := currentWordIndex a;
     currentParagraphIndex := currentParagraphIndex a;
     isPlaying := isPlaying a; isPaused := isPaused a;
     hasStarted := hasStarted a; wpm := wpm a;
     sentencePause := sentencePause a; intervalId := intervalId a;
     sentencePauseTimeoutId := sentencePauseTimeoutId a |}.

Definition set_currentWordIndex v a :=
  {| appWords := appWords a; paragraphs := paragraphs a;
     currentWordIndex := v;
     currentParagraphIndex := currentParagraphIndex a;
     isPlaying := isPlaying a; isPaused := isPaused a;
     hasStarted := hasStarted a; wpm := wpm a;
     sentencePause := sentencePause a; intervalId := intervalId a;
     sentencePauseTimeoutId := sentencePauseTimeoutId a |}.

Definition set_currentParagraphIndex v a :=
  {| appWords := appWords a; paragraphs := paragraphs a;
     currentWordIndex := currentWordIndex a;
     currentParagraphIndex := v;
     isPlaying := isPlaying a; isPaused := isPaused a;
     hasStarted := hasStarted a; wpm := wpm a;
     sentencePause := sentencePause a; intervalId := intervalId a;
     sentencePauseTimeoutId := sentencePauseTimeoutId a |}.

Definition set_isPlaying v a :=
  {| appWords := appWords a; paragraphs := paragraphs a;
     currentWordIndex := currentWordIndex a;
     currentParagraphIndex := currentParagraphIndex a;
     isPlaying := v; isPaused := isPaused a;
     hasStarted := hasStarted a; wpm := wpm a;
     sentencePause := sentencePause a; intervalId := intervalId a;
     sentencePauseTimeoutId := sentencePauseTimeoutId a |}.

Definition set_isPaused v a :=
  {| appWords := appWords a; paragraphs := paragraphs a;
     currentWordIndex := currentWordIndex a;
     currentParagraphIndex := currentParagraphIndex a;
     isPlaying := isPlaying a; isPaused := v;
     hasStarted := hasStarted a; wpm := wpm a;
     sentencePause := sentencePause a; intervalId := intervalId a;
     sentencePauseTimeoutId := sentencePauseTimeoutId a |}.

Definition set_hasStarted v a :=
  {| appWords := appWords a; paragraphs := paragraphs a;
     currentWordIndex := currentWordIndex a;
     currentParagraphIndex := currentParagraphIndex a;
     isPlaying := isPlaying a; isPaused := isPaused a;
     hasStarted := v; wpm := wpm a;
     sentencePause := sentencePause a; intervalId := intervalId a;
     sentencePauseTimeoutId := sentencePauseTimeoutId a |}.

Definition set_wpm v a :=
  {| appWords := appWords a; paragraphs := paragraphs a;
     currentWordIndex := currentWordIndex a;
     currentParagraphIndex := currentParagraphIndex a;
     isPlaying := isPlaying a; isPaused := isPaused a;
     hasStarted := hasStarted a; wpm := v;
     sentencePause := sentencePause a; intervalId := intervalId a;
     sentencePauseTimeoutId := sentencePauseTimeoutId a |}.

Definition set_sentencePause v a :=
  {| appWords := appWords a; paragraphs := paragraphs a;
     currentWordIndex := currentWordIndex a;
     currentParagraphIndex := currentParagraphIndex a;
     isPlaying := isPlaying a; isPaused := isPaused a;
     hasStarted := hasStarted a; wpm := wpm a;
     sentencePause := v; intervalId := intervalId a;
     sentencePauseTimeoutId := sentencePauseTimeoutId a |}.

Definition set_intervalId v a :=
  {| appWords := appWords a; paragraphs := paragraphs a;
     currentWordIndex := currentWordIndex a;
     currentParagraphIndex := currentParagraphIndex a;
     isPlaying := isPlaying a; isPaused := isPaused a;
     hasStarted := hasStarted a; wpm := wpm a;
     sentencePause := sentencePause a; intervalId := v;
     sentencePauseTimeoutId := sentencePauseTimeoutId a |}.

Definition set_sentencePauseTimeoutId v a :=
  {| appWords := appWords a; paragraphs := paragraphs a;
     currentWordIndex := currentWordIndex a;
     currentParagraphIndex := currentParagraphIndex a;
     isPlaying := isPlaying a; isPaused := isPaused a;
     hasStarted := hasStarted a; wpm := wpm a;
     sentencePause := sentencePause a; intervalId := intervalId a;
     sentencePauseTimeoutId := v |}.

Definition updApp (f : App -> App) (w : World) : World :=
  {| app := f (app w); dom := dom w; pending := pending w;
     nextTimerId := nextTimerId w |}.

Definition updDom (f : Dom -> Dom) (w : World) : World :=
  {| app := app w; dom := f (dom w); pending := pending w;
     nextTimerId := nextTimerId w |}.

(** ** The host's timers *)

(** [setTimeout(callback, delay)]: a fresh handle is returned. *)
Definition setTimeout (cb : Callback) (delay : Q) (w : World)
  : positive * World :=
  let id := nextTimerId w in
  (id, {| app := app w; dom := dom w;
          pending := pending w ++ [{| timerId := id; timerDelay := delay;
                                      timerCallback := cb |}];
          nextTimerId := Pos.succ id |}).

(** [clearTimeout(id)]: without effect on a handle that is not armed. *)
Definition clearTimeout (id : positive) (w : World) : World :=
  {| app := app w; dom := dom w;
     pending := filter (fun t => negb (Pos.eqb (timerId t) id)) (pending w);
     nextTimerId := nextTimerId w |}.

(** ** Status and display *)

Definition updateStatus (message : Message) (isBreak : bool) (w : World)
  : World :=
  updDom (fun d =>
    {| textInput := textInput d; wordBefore := wordBefore d;
       wordFocus := wordFocus d; wordAfter := wordAfter d;
       statusText := message; statusBreak := isBreak; statusHidden := false;
       wordCounter := wordCounter d; wordVisible := wordVisible d;
       classReading := classReading d; classPaused := classPaused d |}) w.

Definition hideStatus (w : World) : World :=
  updDom (fun d =>
    {| textInput := textInput d; wordBefore := wordBefore d;
       wordFocus := wordFocus d; wordAfter := wordAfter d;
       statusText := statusText d; statusBreak := statusBreak d;
       statusHidden := true;
       wordCounter := wordCounter d; wordVisible := wordVisible d;
       classReading := classReading d; classPaused := classPaused d |}) w.

Definition setReadingState (reading : bool) (w : World) : World :=
  updDom (fun d =>
    {| textInput := textInput d; wordBefore := wordBefore d;
       wordFocus := wordFocus d; wordAfter := wordAfter d;
       statusText := statusText d; statusBreak := statusBreak d;
       statusHidden := statusHidden d;
       wordCounter := wordCounter d; wordVisible := wordVisible d;
       classReading := reading;
       classPaused := negb reading && hasStarted (app w) |}) w.

(** The three text nodes of the word display. *)
Definition setWordDisplay (parts : Split) (w : World) : World :=
  updDom (fun d =>
    {| textInput := textInput d; wordBefore := before parts;
       wordFocus := focus parts; wordAfter := after parts;
       statusText := statusText d; statusBreak := statusBreak d;
       statusHidden := statusHidden d;
       wordCounter := wordCounter d; wordVisible := wordVisible d;
       classReading := classReading d; classPaused := classPaused d |}) w.

Definition blankSplit : Split := {| before := []; focus := []; after := [] |}.

Definition clearWordDisplay (w : World) : World := setWordDisplay blankSplit w.

Definition setWordCounter (c : nat * nat) (w : World) : World :=
  updDom (fun d =>
    {| textInput := textInput d; wordBefore := wordBefore d;
       wordFocus := wordFocus d; wordAfter := wordAfter d;
       statusText := statusText d; statusBreak := statusBreak d;
       statusHidden := statusHidden d;
       wordCounter := c; wordVisible := wordVisible d;
       classReading := classReading d; classPaused := classPaused d |}) w.

Definition setWordVisible (v : bool) (w : World) : World :=
  updDom (fun d =>
    {| textInput := textInput d; wordBefore := wordBefore d;
       wordFocus := wordFocus d; wordAfter := wordAfter d;
       statusText := statusText d; statusBreak := statusBreak d;
       statusHidden := statusHidden d;
       wordCounter := wordCounter d; wordVisible := v;
       classReading := classReading d; classPaused := classPaused d |}) w.

Definition removeClassPaused (w : World) : World :=
  updDom (fun d =>
    {| textInput := textInput d; wordBefore := wordBefore d;
       wordFocus := wordFocus d; wordAfter := wordAfter d;
       statusText := statusText d; statusBreak := statusBreak d;
       statusHidden := statusHidden d;
       wordCounter := wordCounter d; wordVisible := wordVisible d;
       classReading := classReading d; classPaused := false |}) w.

(** The user edits the text area. *)
Definition setTextInput (t : jsstring) (w : World) : World :=
  updDom (fun d =>
    {| textInput := t; wordBefore := wordBefore d;
       wordFocus := wordFocus d; wordAfter := wordAfter d;
       statusText := statusText d; statusBreak := statusBreak d;
       statusHidden := statusHidden d;
       wordCounter := wordCounter d; wordVisible := wordVisible d;
       classReading := classReading d; classPaused := classPaused d |}) w.

Definition displayCurrentWord (w : World) : World :=
  let a := app w in
  if length (appWords a) <=? currentWordIndex a then w
  else match nth_error (appWords a) (currentWordIndex a) with
       | Some word => setWordDisplay (splitWordAtORP word) w
       | None => w
       end.

Definition updateWordCounter (w : World) : World :=
  let a := app w in
  setWordCounter (currentWordIndex a + 1, length (appWords a)) w.

Definition showParagraphBreak (w : World) : World :=
  updateStatus MsgEndOfParagraph true w.

Definition showEndOfText (w : World) : World :=
  updateStatus MsgDone true w.

(** ** Text processing *)

(** [parseText]: the model is stored before the result is tested. *)
Definition parseText (text : jsstring) (w : World) : bool * World :=
  let ps := parseParagraphs text in
  let w := updApp (set_paragraphs ps) w in
  let w := updApp (set_words (flattenWords ps)) w in
  (0 <? length (appWords (app w)), w).

(** ** Reading control *)

(** The two blocks of [pause] that disarm a remembered timer. *)
Definition clearIntervalTimer (w : World) : World :=
  match intervalId (app w) with
  | Some id => updApp (set_intervalId None) (clearTimeout id w)
  | None => w
  end.

Definition clearSentencePauseTimer (w : World) : World :=
  match sentencePauseTimeoutId (app w) with
  | Some id => updApp (set_sentencePauseTimeoutId None) (clearTimeout id w)
  | None => w
  end.

Definition pause (w : World) : World :=
  let w := updApp (set_isPlaying false) w in
  let w := updApp (set_isPaused true) w in
  let w := setReadingState false w in
  let w := clearIntervalTimer w in
  let w := clearSentencePauseTimer w in
  if hasStarted (app w)
     && (currentWordIndex (app w) <? length (appWords (app w)))
  then updateStatus MsgPaused false w
  else w.

(** [/[.!?]$/.test(word) || /[.!?][quote]$/.test(word)]; an index out of
    range reads [undefined], which [test] converts to a string. *)
Definition isSentenceEnd (word : option jsstring) : bool :=
  let s := match word with Some s => s | None => undefinedString end in
  match rev s with
  | c :: r =>
      isTerminator c
      || match r with
         | d :: _ => isTerminator d && isQuote c
         | [] => false
         end
  | [] => false
  end.

(** [60000 / this.wpm]. *)
Definition baseInterval (a : App) : Q := (60000 # wpm a)%Q.

Definition scheduleNextWord (w : World) : World :=
  if negb (isPlaying (app w)) then w
  else
    let a := app w in
    let currentWord := nth_error (appWords a) (currentWordIndex a) in
    let needsSentencePause :=
      (0 <? sentencePause a)%Z && isSentenceEnd currentWord in
    if needsSentencePause then
      let (id, w) := setTimeout CbSentenceClear (baseInterval a) w in
      updApp (set_intervalId (Some id)) w
    else
      let (id, w) := setTimeout CbAdvance (baseInterval a) w in
      updApp (set_intervalId (Some id)) w.

Definition play (w : World) : World :=
  let a := app w in
  if isPlaying a || (length (appWords a) <=? currentWordIndex a) then w
  else
    let w := updApp (set_isPlaying true) w in
    let w := updApp (set_isPaused false) w in
    let w := hideStatus w in
    let w := setReadingState true w in
    scheduleNextWord w.

(** [advanceWord]; [None] is the TypeError of reading [startWordIndex] on
    an undefined paragraph. *)
Definition advanceWord (w : World) : option World :=
  let w := updApp (fun a => set_currentWordIndex (currentWordIndex a + 1) a) w in
  match nth_error (paragraphs (app w)) (currentParagraphIndex (app w)) with
  | None => None
  | Some currentParagraph =>
      let paragraphEndIndex :=
        startWordIndex currentParagraph + length (words currentParagraph) in
      if paragraphEndIndex <=? currentWordIndex (app w) then
        let w := pause w in
        if currentParagraphIndex (app w) <? length (paragraphs (app w)) - 1
        then Some (showParagraphBreak w)
        else Some (showEndOfText w)
      else
        let w := displayCurrentWord w in
        let w := updateWordCounter w in
        Some (scheduleNextWord w)
  end.

Definition reset (w : World) : World :=
  let w := pause w in
  let w := updApp (set_words []) w in
  let w := updApp (set_paragraphs []) w in
  let w := updApp (set_currentWordIndex 0) w in
  let w := updApp (set_currentParagraphIndex 0) w in
  let w := updApp (set_hasStarted false) w in
  let w := updApp (set_isPaused false) w in
  let w := clearWordDisplay w in
  let w := setWordVisible false w in
  let w := setWordCounter (0, 0) w in
  let w := setReadingState false w in
  removeClassPaused w.

Definition startReading (w : World) : World :=
  let text := textInput (dom w) in
  if negb (nonEmpty (trim text)) then updateStatus MsgPasteAndPress false w
  else
    let (ok, w) := parseText text w in
    if negb ok then w
    else
      let w := updApp (set_currentWordIndex 0) w in
      let w := updApp (set_currentParagraphIndex 0) w in
      let w := updApp (set_hasStarted true) w in
      let w := updateWordCounter w in
      let w := displayCurrentWord w in
      let w := setWordVisible true w in
      play w.

Definition continueAfterParagraph (w : World) : World :=
  let a := app w in
  let w :=
    if (length (paragraphs a) - 1 <=? currentParagraphIndex a)
       && (length (appWords a) <=? currentWordIndex a)
    then
      let w := updApp (set_currentWordIndex 0) w in
      updApp (set_currentParagraphIndex 0) w
    else
      let w := updApp (fun a =>
                 set_currentParagraphIndex (currentParagraphIndex a + 1) a) w in
      match nth_error (paragraphs (app w)) (currentParagraphIndex (app w)) with
      | Some p => updApp (set_currentWordIndex (startWordIndex p)) w
      | None => w
      end in
  let w := displayCurrentWord w in
  let w := updateWordCounter w in
  play w.

Definition restartCurrentParagraph (w : World) : option World :=
  match nth_error (paragraphs (app w)) (currentParagraphIndex (app w)) with
  | None => None
  | Some currentParagraph =>
      let w := updApp (set_currentWordIndex (startWordIndex currentParagraph)) w in
      let w := displayCurrentWord w in
      let w := updateWordCounter w in
      Some (play w)
  end.

(** The click handlers of the two navigation arrows. *)
Definition navigatePrev (w : World) : World :=
  if hasStarted (app w) && (0 <? currentWordIndex (app w)) then
    let w := pause w in
    let w := updApp (fun a => set_currentWordIndex (currentWordIndex a - 1) a) w in
    let w := displayCurrentWord w in
    let w := updateWordCounter w in
    updateStatus MsgPaused false w
  else w.

Definition navigateNext (w : World) : World :=
  if hasStarted (app w)
     && (currentWordIndex (app w) <? length (appWords (app w)) - 1) then
    let w := pause w in
    let w := updApp (fun a => set_currentWordIndex (currentWordIndex a + 1) a) w in
    let w := displayCurrentWord w in
    let w := updateWordCounter w in
    updateStatus MsgPaused false w
  else w.

(** The activation shared by [handleReaderClick] and the Space key. *)
Definition handleReaderClick (w : World) : option World :=
  if negb (hasStarted (app w)) then Some (startReading w)
  else if isPaused (app w) then
    match nth_error (paragraphs (app w)) (currentParagraphIndex (app w)) with
    | None => None
    | Some currentParagraph =>
        let paragraphEndIndex :=
          startWordIndex currentParagraph + length (words currentParagraph) in
        if paragraphEndIndex <=? currentWordIndex (app w)
        then Some (continueAfterParagraph w)
        else Some (play w)
    end
  else Some (pause w).

Inductive Key := Space | ArrowLeft | ArrowRight | KeyR | OtherKey.

(** [onGlobalKeydown] for a key pressed outside the text area. *)
Definition onGlobalKeydown (k : Key) (w : World) : option World :=
  match k with
  | Space => handleReaderClick w
  | ArrowLeft =>
      if hasStarted (app w) then
        let w := pause w in
        if 0 <? currentWordIndex (app w) then
          let w := updApp (fun a =>
                     set_currentWordIndex (currentWordIndex a - 1) a) w in
          let w := displayCurrentWord w in
          Some (updateWordCounter w)
        else Some w
      else Some w
  | ArrowRight =>
      if hasStarted (app w) then
        let w := pause w in
        if currentWordIndex (app w) <? length (appWords (app w)) - 1 then
          let w := updApp (fun a =>
                     set_currentWordIndex (currentWordIndex a + 1) a) w in
          let w := displayCurrentWord w in
          Some (updateWordCounter w)
        else Some w
      else Some w
  | KeyR => if hasStarted (app w) then restartCurrentParagraph w else Some w
  | OtherKey => Some w
  end.

Definition onTextChange (w : World) : World :=
  let w := if hasStarted (app w) then reset w else w in
  let hasText := nonEmpty (trim (textInput (dom w))) in
  if hasText then updateStatus MsgClickToStart false w
  else updateStatus MsgPasteAndClick false w.

(** [onWpmChange], the selected value being [v]. *)
Definition onWpmChange (v : positive) (w : World) : World :=
  let w := updApp (set_wpm v) w in
  if isPlaying (app w) then play (pause w) else w.

Definition onPauseChange (v : Z) (w : World) : World :=
  updApp (set_sentencePause v) w.

(** ** Timer callbacks and events *)

Definition runCallback (cb : Callback) (w : World) : option World :=
  match cb with
  | CbSentenceClear =>
      if negb (isPlaying (app w)) then Some w
      else
        let w := clearWordDisplay w in
        let (id, w) :=
          setTimeout CbSentenceAdvance (inject_Z (sentencePause (app w))) w in
        Some (updApp (set_sentencePauseTimeoutId (Some id)) w)
  | CbSentenceAdvance =>
      if negb (isPlaying (app w)) then Some w else advanceWord w
  | CbAdvance =>
      if negb (isPlaying (app w)) then Some w else advanceWord w
  end.

(** The host runs the closure of an armed timer, which is disarmed by
    that; a handle that is not armed never fires. *)
Definition fireTimer (id : positive) (w : World) : option World :=
  match find (fun t => Pos.eqb (timerId t) id) (pending w) with
  | Some t => runCallback (timerCallback t) (clearTimeout id w)
  | None => Some w
  end.

(** What can happen to the page. *)
Inductive Event :=
| ClickReader                 (* click on the reader panel *)
| ClickPrev                   (* click on the previous arrow *)
| ClickNext                   (* click on the next arrow *)
| KeyDown (k : Key)
| InputText (t : jsstring)    (* the text area changes to [t] *)
| ChangeWpm (v : positive)
| ChangePause (v : Z)
| TimerFires (id : positive).

Definition handle (e : Event) (w : World) : option World :=
  match e with
  | ClickReader => handleReaderClick w
  | ClickPrev => Some (navigatePrev w)
  | ClickNext => Some (navigateNext w)
  | KeyDown k => onGlobalKeydown k w
  | InputText t => Some (onTextChange (setTextInput t w))
  | ChangeWpm v => Some (onWpmChange v w)
  | ChangePause v => Some (onPauseChange v w)
  | TimerFires id => fireTimer id w
  end.

Fixpoint run (es : list Event) (w : World) : option World :=
  match es with
  | [] => Some w
  | e :: r => match handle e w with
              | Some w' => run r w'
              | None => None
              end
  end.

(** The state after the constructor and [init], for a page whose selects
    hold [wpmValue] and [pauseValue] and whose text area holds [text]. *)
Definition initial (wpmValue : positive) (pauseValue : Z) (text : jsstring)
  : World :=
  updateStatus MsgPasteAndClick false
    {| app := {| appWords := []; paragraphs := [];
                 currentWordIndex := 0; currentParagraphIndex := 0;
                 isPlaying := false; isPaused := false; hasStarted := false;
                 wpm := wpmValue; sentencePause := pauseValue;
                 intervalId := None; sentencePauseTimeoutId := None |};
       dom := {| textInput := text; wordBefore := []; wordFocus := [];
                 wordAfter := []; statusText := MsgPasteAndClick;
                 statusBreak := false; statusHidden := false;
                 wordCounter := (0, 0); wordVisible := false;
                 classReading := false; classPaused := false |};
       pending := [];
       nextTimerId := 1%positive |}.

(** The events of manual navigation: the two arrows, by click or by key. *)
Definition isStepEvent (e : Event) : bool :=
  match e with
  | ClickPrev | ClickNext | KeyDown ArrowLeft | KeyDown ArrowRight => true
  | _ => false
  end.

(** The states that a sequence of [allowed] events produces. *)
Inductive ReachableBy (allowed : Event -> bool) : World -> Prop :=
| Reachable_initial wpmValue pauseValue text :
    ReachableBy allowed (initial wpmValue pauseValue text)
| Reachable_step w e w' :
    ReachableBy allowed w -> allowed e = true -> handle e w = Some w' ->
    ReachableBy allowed w'.

(** The states of the engine. *)
Definition Reachable : World -> Prop := ReachableBy (fun _ => true).

End Player.

Import Player.

(* ================================================================== *)
(** * Vocabulary of the properties                                     *)
(* ================================================================== *)

(** The quotation mark followed by [Hello]. *)
Definition quotedHello : jsstring := ascii_of_nat 34 :: str "Hello".

(** A string holds ink when one of its characters is not white space. *)
Definition hasInk (s : jsstring) : bool :=
  existsb (fun c => negb (isSpace c)) s.
Arguments hasInk : simpl never.

(** The number of words of the paragraphs [0 .. i-1]. *)
Definition wordsBefore (i : nat) (ps : list Paragraph) : nat :=
  list_sum (map (fun p => length (words p)) (firstn i ps)).

(** The text of the specification's segmentation example. *)
Definition exampleText : jsstring :=
  str "Hello world." ++ [LF] ++ str "Second line here.".

(** The only white space of a string is the space character. *)
Definition onlySP (s : jsstring) : bool :=
  forallb (fun c => negb (isSpace c) || Ascii.eqb c SP) s.
Arguments onlySP : simpl never.

(** No character of the string is a sentence terminator. *)
Definition noTerminator (s : jsstring) : bool :=
  forallb (fun c => negb (isTerminator c)) s.

(** [ws] appended to the last string of a list. *)
Fixpoint appendToLast (l : list jsstring) (ws : jsstring) : list jsstring :=
  match l with
  | [] => []
  | x :: r =>
      match r with
      | [] => [x ++ ws]
      | _ :: _ => x :: appendToLast r ws
      end
  end.

(** The text of the specification's failing segmentation example: three
    spaces, a line feed, two spaces. *)
Definition blankText : jsstring := str "   " ++ [LF] ++ str "  ".

(** One step of the global match: the first sentence of [s] and the text
    after it, when there is one. *)
Definition firstSentence (s : jsstring) : option (jsstring * jsstring) :=
  let s1 := dropWhile isTerminator s in
  let body := takeWhile (fun c => negb (isTerminator c)) s1 in
  let r1 := dropWhile (fun c => negb (isTerminator c)) s1 in
  match body, r1 with
  | [], _ => None
  | _, [] => None
  | _, _ =>
      Some (body ++ takeWhile isTerminator r1
                 ++ takeWhile isSpace (dropWhile isTerminator r1),
            dropWhile isSpace (dropWhile isTerminator r1))
  end.

(** The state in which [intelligentSplit] enters its loop. *)
Definition splitStart : SplitState :=
  {| outParagraphs := []; currentParagraph := []; wordCount := 0 |}.

(** ** Invariants of the playback engine *)

(** The index one past the last word of a paragraph. *)
Definition paragraphEnd (p : Paragraph) : nat :=
  startWordIndex p + length (words p).

(** Every paragraph starts where the words before it end and has a word. *)
Definition wellFormed (ps : list Paragraph) : Prop :=
  forall i p, nth_error ps i = Some p ->
    startWordIndex p = wordsBefore i ps /\ 0 < length (words p).

(** At most one timer is armed, only while playing, and its handle is the
    one the engine remembers. *)
Definition timersOK (w : World) : Prop :=
  match pending w with
  | [] => True
  | [t] =>
      isPlaying (app w) = true
      /\ (timerId t < nextTimerId w)%positive
      /\ (intervalId (app w) = Some (timerId t)
          \/ sentencePauseTimeoutId (app w) = Some (timerId t))
  | _ => False
  end.

(** The model and the position once reading has started. *)
Definition modelOK (a : App) : Prop :=
  wellFormed (paragraphs a)
  /\ appWords a = flattenWords (paragraphs a)
  /\ currentWordIndex a <= length (appWords a)
  /\ currentParagraphIndex a < length (paragraphs a).

(** The current word is a word of the current paragraph. *)
Definition beforeEnd (a : App) : Prop :=
  forall p, nth_error (paragraphs a) (currentParagraphIndex a) = Some p ->
    currentWordIndex a < paragraphEnd p.

(** The invariant of all reachable states. *)
Definition Inv (w : World) : Prop :=
  timersOK w
  /\ (isPlaying (app w) = true -> hasStarted (app w) = true)
  /\ (hasStarted (app w) = true -> modelOK (app w))
  /\ (isPlaying (app w) = true -> beforeEnd (app w)).

(** The position lies in the current paragraph, its end included. *)
Definition inCurrentParagraph (a : App) : Prop :=
  exists p, nth_error (paragraphs a) (currentParagraphIndex a) = Some p
    /\ startWordIndex p <= currentWordIndex a <= paragraphEnd p.

(** The armed timers that remain when the remembered handle [o], if any,
    is cleared. *)
Definition cancelled (o : option positive) (l : list Timer) : list Timer :=
  match o with
  | Some id => filter (fun t => negb (Pos.eqb (timerId t) id)) l
  | None => l
  end.

(** The test of [scheduleNextWord] for the sentence pause. *)
Definition needsSentencePause (a : App) : bool :=
  (0 <? sentencePause a)%Z
  && isSentenceEnd (nth_error (appWords a) (currentWordIndex a)).

(** The timer that [scheduleNextWord] arms, under the handle [id]. *)
Definition scheduledTimer (a : App) (id : positive) : Timer :=
  {| timerId := id;
     timerDelay := baseInterval a;
     timerCallback := if needsSentencePause a then CbSentenceClear
                      else CbAdvance |}.

(** The fields that fix the model and the position. *)
Definition samePosition (a a' : App) : Prop :=
  paragraphs a' = paragraphs a
  /\ appWords a' = appWords a
  /\ currentWordIndex a' = currentWordIndex a
  /\ currentParagraphIndex a' = currentParagraphIndex a
  /\ hasStarted a' = hasStarted a.

(** The position is tracked by the current paragraph once started. *)
Definition Tracked (w : World) : Prop :=
  hasStarted (app w) = true -> inCurrentParagraph (app w).

(** The position invariant as the specification words it: the index is
    within the text, and the current paragraph is the one that holds the
    current word, or the last one at the end of the text. *)
Definition positionClaim (a : App) : Prop :=
  currentWordIndex a <= length (appWords a)
  /\ (if currentWordIndex a <? length (appWords a)
      then exists p,
             nth_error (paragraphs a) (currentParagraphIndex a) = Some p
             /\ startWordIndex p <= currentWordIndex a < paragraphEnd p
      else currentParagraphIndex a = length (paragraphs a) - 1).

(** Events other than the manual steps. *)
Definition notStep (e : Event) : bool := negb (isStepEvent e).

(** Reading the example text at 300 words per minute without sentence
    pause, up to the end of the first paragraph. *)
Definition toParagraphBreak : list Event :=
  [ClickReader; TimerFires 1; TimerFires 2].

(** A text of two words, and the state just after reading starts. *)
Definition twoWords : jsstring := str "a b".

Definition justStarted : World :=
  startReading (initial 300 200 twoWords).

(** The same reading once the first timer has fired: the last word is on
    display. *)
Definition atLastWord : option World := run [TimerFires 1] justStarted.

(** The timer of the sentence pause, under the handle [id]. *)
Definition sentencePauseTimer (a : App) (id : positive) : Timer :=
  {| timerId := id;
     timerDelay := inject_Z (sentencePause a);
     timerCallback := CbSentenceAdvance |}.

(** The three text nodes of the word display. *)
Definition shownWord (w : World) : jsstring * jsstring * jsstring :=
  (wordBefore (dom w), wordFocus (dom w), wordAfter (dom w)).

(** [Stop!] between quotation marks. *)
Definition quotedStop : jsstring :=
  ascii_of_nat 34 :: str "Stop!" ++ [ascii_of_nat 34].

(** ** Vocabulary of the further properties *)

(** The characters of a string that are not white space, in order. *)
Definition inkOf (s : jsstring) : jsstring :=
  filter (fun c => negb (isSpace c)) s.
Arguments inkOf : simpl never.

(** A word as the segmenter produces it: not empty, no white space. *)
Definition isWord (s : jsstring) : bool :=
  nonEmpty s && forallb (fun c => negb (isSpace c)) s.

(** The text with every line feed written as carriage return, line feed,
    and with every line feed written as a lone carriage return. *)
Definition withCRLF (s : jsstring) : jsstring :=
  flat_map (fun c => if Ascii.eqb c LF then [CR; LF] else [c]) s.

Definition withCR (s : jsstring) : jsstring := replaceChar LF CR s.

(** The string holds no carriage return. *)
Definition noCR (s : jsstring) : bool :=
  forallb (fun c => negb (Ascii.eqb c CR)) s.

(** The string holds no line feed. *)
Definition noLF (s : jsstring) : bool :=
  forallb (fun c => negb (Ascii.eqb c LF)) s.

(** Not a letter or digit. *)
Definition isPunct (c : ascii) : bool := negb (isAlnum c).

(** The first character of the string, if any, is not white space. *)
Definition headClean (s : jsstring) : bool :=
  match s with
  | [] => true
  | c :: _ => negb (isSpace c)
  end.

(** A paragraph as [parseText] builds it: its text is a non-empty line
    without surrounding white space, its words are the words of that text
    and there is at least one. *)
Definition paragraphOK (p : Paragraph) : Prop :=
  trim (text p) = text p
  /\ nonEmpty (text p) = true
  /\ noLF (text p) = true
  /\ words p = extractWords (text p)
  /\ 0 < length (words p).

(** The first character of the string, if any, is a letter or a digit. *)
Definition startsWithLetter (s : jsstring) : bool :=
  match s with
  | [] => true
  | c :: _ => isAlnum c
  end.

(** A paragraph as [intelligentSplit] returns it from a text with ink. *)
Definition trimmedInk (p : jsstring) : Prop :=
  trim p = p /\ hasInk p = true.

(** The three flags encode one of three modes, and a playing engine has
    its timer armed. *)
Definition ModeOK (w : World) : Prop :=
  isPaused (app w) = hasStarted (app w) && negb (isPlaying (app w))
  /\ (isPlaying (app w) = true -> pending w <> []).

(** The armed timer is known to the engine under a fresh handle. *)
Definition remembered (w : World) (t : Timer) : Prop :=
  (timerId t < nextTimerId w)%positive
  /\ (intervalId (app w) = Some (timerId t)
      \/ sentencePauseTimeoutId (app w) = Some (timerId t)).

(** The parts of a split as a triple. *)
Definition splitParts (s : Split) : jsstring * jsstring * jsstring :=
  (before s, focus s, after s).

(** The world in which [advanceWord] has incremented the word index. *)
Definition stepped (w : World) : World :=
  updApp (fun a => set_currentWordIndex (currentWordIndex a + 1) a) w.

(** The status that ends a paragraph: a paragraph break when another
    paragraph follows, the end of the text otherwise. *)
Definition breakMessage (a : App) : Message :=
  if currentParagraphIndex a <? length (paragraphs a) - 1
  then MsgEndOfParagraph else MsgDone.

(** A text of one word, and the state just after reading starts. *)
Definition oneWordStarted : World :=
  startReading (initial 300 200 (str "a")).

(** The timer armed by the start of reading at 300 words per minute on a
    word that does not end a sentence. *)
Definition firstTimer : Timer :=
  {| timerId := 1; timerDelay := (60000 # 300)%Q; timerCallback := CbAdvance |}.

(** A text of two paragraphs of one word each, and the state of its
    reading once the timer of the first word has fired: the break after
    the first paragraph. *)
Definition twoLines : jsstring := str "a" ++ [LF] ++ str "b".

Definition atParagraphBreak : World :=
  match run [ClickReader; TimerFires 1] (initial 300 200 twoLines) with
  | Some w => w
  | None => initial 300 200 twoLines
  end.

(** The steps that go back, by click or by key. *)
Definition isBackStep (e : Event) : bool :=
  match e with
  | ClickPrev | KeyDown ArrowLeft => true
  | _ => false
  end.

(** The index a manual step aims at: one word back, but not before the
    first word; one word forward, but not past the last word. *)
Definition stepTarget (e : Event) (a : App) : nat :=
  if isBackStep e then currentWordIndex a - 1
  else if currentWordIndex a <? length (appWords a) - 1
       then currentWordIndex a + 1
       else currentWordIndex a.

(** The host fires the armed timer, [n] times in a row; without an armed
    timer nothing happens. *)
Definition fireArmed (w : World) : option World :=
  match pending w with
  | t :: _ => fireTimer (timerId t) w
  | [] => Some w
  end.

Fixpoint fireArmedTimes (n : nat) (w : World) : option World :=
  match n with
  | 0 => Some w
  | S n' => match fireArmed w with
            | Some w' => fireArmedTimes n' w'
            | None => None
            end
  end.

(** The engine has stopped at the end of paragraph [p], the [j]-th of
    [ps], with the status of the break on display. *)
Definition stoppedAtEnd (ps : list Paragraph) (j : nat) (p : Paragraph)
    (w' : World) : Prop :=
  isPlaying (app w') = false
  /\ currentWordIndex (app w') = paragraphEnd p
  /\ currentParagraphIndex (app w') = j
  /\ paragraphs (app w') = ps
  /\ pending w' = []
  /\ statusText (dom w')
     = (if j <? length ps - 1 then MsgEndOfParagraph else MsgDone)
  /\ statusBreak (dom w') = true.






(* ================================================================== *)
(** * Properties of the ORP calculator                                 *)
(* ================================================================== *)

Section LeadingLoop.

Let punct := fun c => negb (isAlnum c).

Lemma nth_error_middle (pre suf : jsstring) (c : ascii) :
  nth_error (pre ++ c :: suf) (length pre) = Some c.
Proof.
  induction pre as [|x pre IH]; simpl; auto.
Qed.

(** The loop, entered at index [length pre] with [count], stops at the
    first letter or digit of the remaining suffix. *)
Lemma leadingLoop_suffix (suf pre : jsstring) (count : nat) :
  leadingLoop (length suf) (pre ++ suf) (length pre) count
  = count + length (takeWhile punct suf).
Proof.
  revert pre count.
  induction suf as [|c suf IH]; intros pre count; simpl.
  - lia.
  - assert (Hlt : (length pre <? length (pre ++ c :: suf)) = true).
    { apply Nat.ltb_lt. rewrite length_app. simpl. lia. }
    rewrite Hlt, nth_error_middle.
    unfold punct at 1.
    destruct (isAlnum c); simpl.
    + lia.
    + specialize (IH (pre ++ [c]) (S count)).
      rewrite <- app_assoc in IH. simpl in IH.
      rewrite length_app in IH. simpl in IH.
      rewrite Nat.add_1_r in IH.
      rewrite IH. lia.
Qed.

Lemma leadingPunctuation_run (word : jsstring) :
  leadingPunctuation word = leadingRun word.
Proof.
  unfold leadingPunctuation, leadingRun.
  apply (leadingLoop_suffix word [] 0).
Qed.

Lemma leadingRun_clean_le (word : jsstring) :
  leadingRun word + length (cleanWord word) <= length word.
Proof.
  unfold leadingRun, cleanWord.
  induction word as [|c word IH]; simpl; auto.
  destruct (isAlnum c) eqn:E; simpl.
  - pose proof (filter_length_le isAlnum word). lia.
  - lia.
Qed.

End LeadingLoop.

Lemma orpIndex_table (n : nat) : orpIndex n = offsetTable n.
Proof.
  unfold orpIndex, offsetTable.
  repeat match goal with
         | |- context [?a <=? ?b] => destruct (Nat.leb_spec a b)
         end; try reflexivity; lia.
Qed.

Lemma offsetTable_le (n : nat) : offsetTable n <= n.
Proof.
  unfold offsetTable.
  repeat match goal with
         | |- context [?a <=? ?b] => destruct (Nat.leb_spec a b)
         end; lia.
Qed.

(** C3. [calculateORP W] is the number of leading non-alphanumeric
    characters of [W] plus the offset that the table of the specification
    gives for the length of [W] without its non-alphanumeric characters
    (0 for 0-2, 1 for 3-5, 2 for 6-9, 3 for 10-13, 4 from 14 on); the seven
    table checks of the specification hold. *)
Theorem calculateORP_leading_plus_offset :
  (forall W : jsstring,
     calculateORP W = leadingRun W + offsetTable (length (filter isAlnum W)))
  /\ (forall n, offsetTable n =
        if n <=? 2 then 0 else if n <=? 5 then 1 else if n <=? 9 then 2
        else if n <=? 13 then 3 else 4)
  /\ calculateORP (str "I") = 0
  /\ calculateORP (str "to") = 0
  /\ calculateORP (str "cat") = 1
  /\ calculateORP (str "world") = 1
  /\ calculateORP (str "reading") = 2
  /\ calculateORP (str "information") = 3
  /\ calculateORP quotedHello = 2.
Proof.
  split.
  - intros W. unfold calculateORP.
    rewrite leadingPunctuation_run, orpIndex_table. reflexivity.
  - repeat split; reflexivity.
Qed.

(** C9. [calculateORP] is a function of its argument (one result for each
    word) and its result lies between 0 and the length of the word; on a
    word without any letter or digit the result is the length. *)
Theorem calculateORP_deterministic_bounded :
  forall W : jsstring,
    (exists! r, calculateORP W = r)
    /\ 0 <= calculateORP W <= length W
    /\ (if forallb (fun c => negb (isAlnum c)) W
        then calculateORP W = length W else calculateORP W < length W).
Proof.
  intros W. split; [|split].
  - exists (calculateORP W). split; [reflexivity|]. intros r Hr. exact Hr.
  - split; [lia|].
    unfold calculateORP. rewrite leadingPunctuation_run, orpIndex_table.
    pose proof (leadingRun_clean_le W).
    pose proof (offsetTable_le (length (cleanWord W))). lia.
  - unfold calculateORP. rewrite leadingPunctuation_run, orpIndex_table.
    unfold leadingRun, cleanWord.
    induction W as [|c W IH]; simpl.
    + reflexivity.
    + destruct (isAlnum c) eqn:E; simpl.
      * pose proof (offsetTable_le (S (length (filter isAlnum W)))) as Hle.
        pose proof (filter_length_le isAlnum W) as Hf.
        assert (offsetTable (S (length (filter isAlnum W)))
                < S (length (filter isAlnum W))).
        { unfold offsetTable.
          repeat match goal with
                 | |- context [?a <=? ?b] => destruct (Nat.leb_spec a b)
                 end; lia. }
        lia.
      * destruct (forallb (fun c0 => negb (isAlnum c0)) W); lia.
Qed.

Lemma split_at_index (W : jsstring) (i : nat) :
  firstn i W ++ charAt W i ++ skipn (i + 1) W = W.
Proof.
  revert i. induction W as [|c W IH]; intros [|i]; simpl; auto.
  unfold charAt in *. simpl. f_equal. apply IH.
Qed.

Lemma substring_prefix (W : jsstring) (i : nat) :
  substring W 0 i = firstn i W.
Proof.
  unfold substring. simpl. rewrite Nat.sub_0_r.
  destruct (Nat.le_ge_cases i (length W)) as [H|H].
  - rewrite Nat.min_l by assumption. reflexivity.
  - rewrite Nat.min_r by assumption.
    rewrite !firstn_all2; auto.
Qed.

Lemma substringFrom_suffix (W : jsstring) (i : nat) :
  substringFrom W i = skipn i W.
Proof.
  unfold substringFrom.
  destruct (Nat.le_ge_cases i (length W)) as [H|H].
  - rewrite Nat.min_l by assumption. reflexivity.
  - rewrite Nat.min_r by assumption.
    rewrite !skipn_all2; auto.
Qed.

(** C5. The three parts returned by [splitWordAtORP W] concatenate to [W];
    for [idx = calculateORP W] they are the slice before [idx], the
    character at [idx] (no character when [idx] is not below the length),
    and the slice from [idx + 1].  The function takes the word alone and
    returns the parts alone: it reads and writes no state. *)
Theorem splitWordAtORP_roundtrip :
  forall W : jsstring,
    let parts := splitWordAtORP W in
    let idx := calculateORP W in
    before parts ++ focus parts ++ after parts = W
    /\ before parts = firstn idx W
    /\ focus parts = match nth_error W idx with
                     | Some c => [c]
                     | None => []
                     end
    /\ (if length W <=? idx then focus parts = [] else length (focus parts) = 1)
    /\ after parts = skipn (idx + 1) W.
Proof.
  intros W parts idx. subst parts idx.
  unfold splitWordAtORP. simpl.
  rewrite substring_prefix, substringFrom_suffix.
  repeat split.
  - apply split_at_index.
  - unfold charAt.
    destruct (Nat.leb_spec (length W) (calculateORP W)) as [H|H].
    + apply nth_error_None in H. rewrite H. reflexivity.
    + destruct (nth_error W (calculateORP W)) eqn:E; [reflexivity|].
      apply nth_error_None in E. lia.
Qed.

(* ================================================================== *)
(** * Properties of the string primitives                              *)
(* ================================================================== *)

Lemma dropWhile_nil_iff (p : ascii -> bool) (s : jsstring) :
  dropWhile p s = [] <-> forallb p s = true.
Proof.
  induction s as [|c s IH]; simpl.
  - tauto.
  - destruct (p c); simpl; [exact IH|]. split; discriminate.
Qed.

Lemma hasInk_cons (c : ascii) (s : jsstring) :
  hasInk (c :: s) = negb (isSpace c) || hasInk s.
Proof. reflexivity. Qed.

Lemma onlySP_cons (c : ascii) (s : jsstring) :
  onlySP (c :: s) = (negb (isSpace c) || Ascii.eqb c SP) && onlySP s.
Proof. reflexivity. Qed.

Lemma hasInk_forallb (s : jsstring) :
  hasInk s = negb (forallb isSpace s).
Proof.
  induction s as [|c s IH]; simpl; auto.
  rewrite hasInk_cons, IH. destruct (isSpace c); reflexivity.
Qed.

Lemma hasInk_app (s t : jsstring) : hasInk (s ++ t) = hasInk s || hasInk t.
Proof. unfold hasInk. apply existsb_app. Qed.

Lemma existsb_rev_eq (A : Type) (p : A -> bool) (l : list A) :
  existsb p (rev l) = existsb p l.
Proof.
  induction l as [|x l IH]; simpl; auto.
  rewrite existsb_app, IH. simpl.
  rewrite orb_false_r. apply orb_comm.
Qed.

Lemma forallb_rev_eq (A : Type) (p : A -> bool) (l : list A) :
  forallb p (rev l) = forallb p l.
Proof.
  induction l as [|x l IH]; simpl; auto.
  rewrite forallb_app, IH. simpl.
  rewrite andb_true_r. apply andb_comm.
Qed.

Lemma hasInk_rev (s : jsstring) : hasInk (rev s) = hasInk s.
Proof. unfold hasInk. apply existsb_rev_eq. Qed.

Lemma hasInk_dropWhile (s : jsstring) : hasInk (dropWhile isSpace s) = hasInk s.
Proof.
  induction s as [|c s IH]; simpl; auto.
  destruct (isSpace c) eqn:E; [|reflexivity].
  rewrite IH, hasInk_cons, E. reflexivity.
Qed.

Lemma hasInk_trimEnd (s : jsstring) : hasInk (trimEnd s) = hasInk s.
Proof.
  unfold trimEnd. rewrite hasInk_rev, hasInk_dropWhile. apply hasInk_rev.
Qed.

Lemma hasInk_trim (s : jsstring) : hasInk (trim s) = hasInk s.
Proof.
  unfold trim, trimStart. rewrite hasInk_dropWhile. apply hasInk_trimEnd.
Qed.

Lemma nonEmpty_dropWhile (s : jsstring) :
  nonEmpty (dropWhile isSpace s) = hasInk s.
Proof.
  induction s as [|c s IH]; simpl; auto.
  rewrite hasInk_cons.
  destruct (isSpace c) eqn:E; [exact IH | reflexivity].
Qed.

(** [s.trim()] is empty exactly when [s] is white space only. *)
Lemma nonEmpty_trim (s : jsstring) : nonEmpty (trim s) = hasInk s.
Proof.
  unfold trim, trimStart. rewrite nonEmpty_dropWhile. apply hasInk_trimEnd.
Qed.

Lemma hasInk_replaceChar (a b : ascii) (s : jsstring) :
  isSpace a = true -> isSpace b = true ->
  hasInk (replaceChar a b s) = hasInk s.
Proof.
  intros Ha Hb. unfold replaceChar.
  induction s as [|c s IH]; simpl; auto.
  rewrite !hasInk_cons, IH. f_equal.
  destruct (Ascii.eqb_spec c a) as [->|]; [rewrite Ha, Hb|]; reflexivity.
Qed.

Lemma hasInk_collapseSpaces (b : bool) (s : jsstring) :
  hasInk (collapseSpaces b s) = hasInk s.
Proof.
  revert b. induction s as [|c s IH]; intros b; simpl; auto.
  rewrite hasInk_cons.
  destruct (isSpace c) eqn:E.
  - destruct b; rewrite ?hasInk_cons, IH; reflexivity.
  - rewrite hasInk_cons, E. reflexivity.
Qed.

Lemma hasInk_replaceCRLF (s : jsstring) :
  hasInk (replaceCRLF s) = hasInk s.
Proof.
  assert (H : forall s, hasInk (replaceCRLF s) = hasInk s
                        /\ forall c, hasInk (replaceCRLF (c :: s))
                                     = hasInk (c :: s)).
  { clear s. induction s as [|d s [IH1 IH2]].
    - split; [reflexivity|]. intros c. reflexivity.
    - split; [apply IH2|]. intros c.
      change (replaceCRLF (c :: d :: s))
        with (if Ascii.eqb c CR && Ascii.eqb d LF
              then LF :: replaceCRLF s else c :: replaceCRLF (d :: s)).
      destruct (Ascii.eqb_spec c CR) as [->|]; simpl andb.
      + destruct (Ascii.eqb_spec d LF) as [->|].
        * rewrite !hasInk_cons, IH1. reflexivity.
        * rewrite !(hasInk_cons CR), IH2. reflexivity.
      + rewrite !(hasInk_cons c), IH2. reflexivity. }
  apply H.
Qed.

Lemma splitOn_cons (sep : ascii) (s : jsstring) :
  exists p ps, splitOn sep s = p :: ps.
Proof.
  induction s as [|c s [p [ps IH]]]; simpl; eauto.
  destruct (Ascii.eqb c sep); eauto. rewrite IH. eauto.
Qed.

(** Splitting on a white-space separator loses no ink. *)
Lemma existsb_hasInk_splitOn (sep : ascii) (s : jsstring) :
  isSpace sep = true ->
  existsb hasInk (splitOn sep s) = hasInk s.
Proof.
  intros Hsep. induction s as [|c s IH]; simpl; auto.
  rewrite hasInk_cons.
  destruct (Ascii.eqb_spec c sep) as [->|Hne].
  - simpl. rewrite IH, Hsep. reflexivity.
  - destruct (splitOn_cons sep s) as [p [ps E]]. rewrite E in *.
    simpl in *. rewrite <- IH, hasInk_cons.
    rewrite orb_assoc. reflexivity.
Qed.

Lemma nonEmpty_flat_map (A B : Type) (f : A -> list B) (l : list A) :
  (0 <? length (flat_map f l)) = existsb (fun x => 0 <? length (f x)) l.
Proof.
  induction l as [|x l IH]; simpl; auto.
  rewrite length_app, <- IH.
  destruct (f x); simpl; auto.
Qed.

Lemma nonEmpty_filter (A : Type) (p : A -> bool) (l : list A) :
  (0 <? length (filter p l)) = existsb p l.
Proof.
  induction l as [|x l IH]; simpl; auto.
  destruct (p x); simpl; auto.
Qed.

Lemma existsb_filter_map (A B : Type) (g : A -> B) (p q : B -> bool)
      (l : list A) :
  existsb q (filter p (map g l)) = existsb (fun x => p (g x) && q (g x)) l.
Proof.
  induction l as [|x l IH]; simpl; auto.
  destruct (p (g x)); simpl; rewrite IH; reflexivity.
Qed.

(* ================================================================== *)
(** * Properties of the segmentation                                   *)
(* ================================================================== *)

Lemma onlySP_collapseSpaces (b : bool) (s : jsstring) :
  onlySP (collapseSpaces b s) = true.
Proof.
  revert b. induction s as [|c s IH]; intros b; simpl; auto.
  destruct (isSpace c) eqn:E.
  - destruct b; rewrite ?onlySP_cons, IH; reflexivity.
  - rewrite onlySP_cons, E, IH. reflexivity.
Qed.

Lemma onlySP_dropWhile (p : ascii -> bool) (s : jsstring) :
  onlySP s = true -> onlySP (dropWhile p s) = true.
Proof.
  induction s as [|c s IH]; simpl; auto.
  intros H. destruct (p c); auto.
  apply IH. rewrite onlySP_cons in H.
  apply andb_true_iff in H. tauto.
Qed.

Lemma onlySP_rev (s : jsstring) : onlySP (rev s) = onlySP s.
Proof. unfold onlySP. apply forallb_rev_eq. Qed.

Lemma onlySP_trim (s : jsstring) : onlySP s = true -> onlySP (trim s) = true.
Proof.
  intros H. unfold trim, trimStart, trimEnd.
  apply onlySP_dropWhile. rewrite onlySP_rev.
  apply onlySP_dropWhile. rewrite onlySP_rev. exact H.
Qed.

(** In a text whose only white space is the separator, the non-empty
    pieces are the pieces with ink. *)
Lemma existsb_nonEmpty_splitOn (s : jsstring) :
  onlySP s = true ->
  existsb nonEmpty (splitOn SP s) = hasInk s.
Proof.
  induction s as [|c s IH]; simpl; auto.
  intros H. rewrite onlySP_cons in H.
  apply andb_true_iff in H. destruct H as [Hc Hs].
  rewrite hasInk_cons.
  destruct (Ascii.eqb_spec c SP) as [->|Hne].
  - simpl. rewrite (IH Hs). reflexivity.
  - rewrite orb_false_r in Hc.
    destruct (splitOn_cons SP s) as [p [ps E]]. rewrite E.
    simpl. rewrite Hc. reflexivity.
Qed.

(** A paragraph text has a word exactly when it holds ink. *)
Lemma extractWords_nonEmpty (s : jsstring) :
  (0 <? length (extractWords s)) = hasInk s.
Proof.
  unfold extractWords. rewrite nonEmpty_filter.
  rewrite existsb_nonEmpty_splitOn
    by (apply onlySP_trim, onlySP_collapseSpaces).
  rewrite hasInk_trim, hasInk_collapseSpaces.
  apply hasInk_replaceChar; reflexivity.
Qed.

Lemma words_assignStartIndices (ps : list Paragraph) (n : nat) :
  map words (assignStartIndices n ps) = map words ps.
Proof.
  revert n. induction ps as [|p ps IH]; intros n; simpl; auto.
  rewrite IH. reflexivity.
Qed.

Lemma text_assignStartIndices (ps : list Paragraph) (n : nat) :
  map text (assignStartIndices n ps) = map text ps.
Proof.
  revert n. induction ps as [|p ps IH]; intros n; simpl; auto.
  rewrite IH. reflexivity.
Qed.

Lemma index_assignStartIndices (ps : list Paragraph) (n : nat) :
  map index (assignStartIndices n ps) = map index ps.
Proof.
  revert n. induction ps as [|p ps IH]; intros n; simpl; auto.
  rewrite IH. reflexivity.
Qed.

Lemma length_assignStartIndices (ps : list Paragraph) (n : nat) :
  length (assignStartIndices n ps) = length ps.
Proof.
  revert n. induction ps as [|p ps IH]; intros n; simpl; auto.
Qed.

Section MapIndexed.

Variable f : jsstring -> list jsstring.

Let mk := fun (t : jsstring) (i : nat) =>
  {| index := i; text := t; words := f t; startWordIndex := 0 |}.

Lemma words_mapIndexed (l : list jsstring) (i : nat) :
  map words (mapIndexed mk i l) = map f l.
Proof.
  revert i. induction l as [|t l IH]; intros i; simpl; auto.
  rewrite IH. reflexivity.
Qed.

Lemma text_mapIndexed (l : list jsstring) (i : nat) :
  map text (mapIndexed mk i l) = l.
Proof.
  revert i. induction l as [|t l IH]; intros i; simpl; auto.
  rewrite IH. reflexivity.
Qed.

Lemma index_mapIndexed (l : list jsstring) (i : nat) :
  map index (mapIndexed mk i l) = seq i (length l).
Proof.
  revert i. induction l as [|t l IH]; intros i; simpl; auto.
  rewrite IH. reflexivity.
Qed.

End MapIndexed.

Lemma flat_map_words (ps : list Paragraph) :
  flat_map words ps = concat (map words ps).
Proof. apply flat_map_concat_map. Qed.

Lemma words_parseParagraphs (t : jsstring) :
  map words (parseParagraphs t) = map extractWords (splitParagraphs t).
Proof.
  unfold parseParagraphs.
  rewrite words_assignStartIndices. apply words_mapIndexed.
Qed.

Lemma text_parseParagraphs (t : jsstring) :
  map text (parseParagraphs t) = splitParagraphs t.
Proof.
  unfold parseParagraphs.
  rewrite text_assignStartIndices.
  apply (text_mapIndexed extractWords).
Qed.

Lemma index_parseParagraphs (t : jsstring) :
  map index (parseParagraphs t) = seq 0 (length (parseParagraphs t)).
Proof.
  unfold parseParagraphs.
  rewrite index_assignStartIndices, length_assignStartIndices.
  rewrite (index_mapIndexed extractWords).
  f_equal. rewrite <- (length_map text).
  rewrite (text_mapIndexed extractWords). reflexivity.
Qed.

(** The running sum of [assignStartIndices]. *)
Lemma startWordIndex_assign (ps : list Paragraph) (n i : nat) :
  option_map startWordIndex (nth_error (assignStartIndices n ps) i)
  = option_map (fun _ => n + wordsBefore i (assignStartIndices n ps))
               (nth_error (assignStartIndices n ps) i).
Proof.
  revert n i. induction ps as [|p ps IH]; intros n [|i]; simpl; [reflexivity|reflexivity| |].
  - unfold wordsBefore. simpl. f_equal. lia.
  - rewrite IH.
    destruct (nth_error (assignStartIndices (n + length (words p)) ps) i);
      simpl; auto.
    unfold wordsBefore. simpl. f_equal. lia.
Qed.

Lemma startWordIndex_parseParagraphs (t : jsstring) (i : nat) :
  option_map startWordIndex (nth_error (parseParagraphs t) i)
  = option_map (fun _ => wordsBefore i (parseParagraphs t))
               (nth_error (parseParagraphs t) i).
Proof.
  unfold parseParagraphs. apply (startWordIndex_assign _ 0 i).
Qed.

(** Segmentation yields a word exactly when the text holds ink. *)
Lemma parseSucceeds_hasInk (t : jsstring) : parseSucceeds t = hasInk t.
Proof.
  unfold parseSucceeds, flattenWords.
  rewrite flat_map_words, words_parseParagraphs, <- flat_map_concat_map.
  rewrite nonEmpty_flat_map.
  unfold splitParagraphs.
  rewrite existsb_filter_map.
  rewrite <- (hasInk_replaceCRLF t).
  rewrite <- (hasInk_replaceChar CR LF (replaceCRLF t)) by reflexivity.
  fold (normalizeNewlines t).
  rewrite <- (existsb_hasInk_splitOn LF (normalizeNewlines t)) by reflexivity.
  induction (splitOn LF (normalizeNewlines t)) as [|l ls IH]; simpl; auto.
  rewrite IH. f_equal.
  rewrite extractWords_nonEmpty, nonEmpty_trim, hasInk_trim.
  apply andb_diag.
Qed.

(** C2 (as amended). [parseText] stores the paragraphs in source order (their
    texts are the trimmed non-empty lines, their [index] fields count from
    0), the [startWordIndex] of paragraph [i] is the number of words of the
    paragraphs before it, and [this.words] is the concatenation of the
    paragraphs' words; the example text yields 2 paragraphs starting at 0
    and 2, with 5 words in all. *)
Theorem parseText_paragraph_model :
  forall (t : jsstring) (w : World),
    let w' := snd (parseText t w) in
    let ps := paragraphs (app w') in
    map text ps
      = filter nonEmpty (map trim (splitOn LF (normalizeNewlines t)))
    /\ map index ps = seq 0 (length ps)
    /\ map words ps = map extractWords (map text ps)
    /\ (forall i, option_map startWordIndex (nth_error ps i)
                  = option_map (fun _ => wordsBefore i ps) (nth_error ps i))
    /\ appWords (app w') = concat (map words ps)
    /\ fst (parseText t w) = (0 <? length (concat (map words ps)))
    /\ length (paragraphs (app (snd (parseText exampleText w)))) = 2
    /\ map startWordIndex (paragraphs (app (snd (parseText exampleText w))))
       = [0; 2]
    /\ length (appWords (app (snd (parseText exampleText w)))) = 5.
Proof.
  intros t w w' ps. subst w' ps. simpl.
  repeat split.
  - apply text_parseParagraphs.
  - apply index_parseParagraphs.
  - rewrite text_parseParagraphs. apply words_parseParagraphs.
  - apply startWordIndex_parseParagraphs.
  - apply flat_map_words.
  - unfold flattenWords. rewrite flat_map_words. reflexivity.
Qed.

(** C2, the example as the specification states it: the flattened word
    count of the example text is not 4. *)
Lemma parseText_example_count_is_not_4 :
  ~ (length (paragraphs (app (snd (parseText exampleText (initial 300 200 []))))) = 2
     /\ map startWordIndex
          (paragraphs (app (snd (parseText exampleText (initial 300 200 [])))))
        = [0; 2]
     /\ length (appWords (app (snd (parseText exampleText (initial 300 200 [])))))
        = 4).
Proof.
  intros [_ [_ H]]. vm_compute in H. discriminate H.
Qed.

(* ------------------------------------------------------------------ *)
(** ** [intelligentSplit]                                              *)
(* ------------------------------------------------------------------ *)

Section Spans.

Variable p : ascii -> bool.

Lemma span_length (s : jsstring) :
  length (takeWhile p s) + length (dropWhile p s) = length s.
Proof.
  induction s as [|c s IH]; simpl; auto.
  destruct (p c); simpl; lia.
Qed.

Lemma dropWhile_length (s : jsstring) :
  length (dropWhile p s) <= length s.
Proof. pose proof (span_length s). lia. Qed.

(** A span that stops inside [s] does not see what follows [s]. *)
Lemma span_app_inside (s t : jsstring) :
  dropWhile p s <> [] ->
  takeWhile p (s ++ t) = takeWhile p s
  /\ dropWhile p (s ++ t) = dropWhile p s ++ t.
Proof.
  induction s as [|c s IH]; simpl; intros H.
  - congruence.
  - destruct (p c); auto.
    destruct (IH H) as [H1 H2]. rewrite H1, H2. auto.
Qed.

(** A span that consumes [s] goes on into what follows. *)
Lemma span_app_through (s t : jsstring) :
  dropWhile p s = [] ->
  takeWhile p (s ++ t) = s ++ takeWhile p t
  /\ dropWhile p (s ++ t) = dropWhile p t.
Proof.
  induction s as [|c s IH]; simpl; intros H; auto.
  destruct (p c); [|discriminate].
  destruct (IH H) as [H1 H2]. rewrite H1, H2. auto.
Qed.

Lemma span_all (s : jsstring) :
  forallb p s = true -> takeWhile p s = s /\ dropWhile p s = [].
Proof.
  induction s as [|c s IH]; simpl; auto.
  destruct (p c); simpl; [|discriminate].
  intros H. destruct (IH H) as [H1 H2]. rewrite H1, H2. auto.
Qed.

Lemma span_none (s : jsstring) :
  forallb (fun c => negb (p c)) s = true ->
  takeWhile p s = [] /\ dropWhile p s = s.
Proof.
  destruct s as [|c s]; simpl; auto.
  destruct (p c); simpl; [discriminate|auto].
Qed.

Lemma dropWhile_head (s : jsstring) (c : ascii) (r : jsstring) :
  dropWhile p s = c :: r -> p c = false.
Proof.
  induction s as [|d s IH]; simpl; [discriminate|].
  destruct (p d) eqn:E; auto.
  intros H. injection H as -> _. exact E.
Qed.

Lemma forallb_dropWhile (q : ascii -> bool) (s : jsstring) :
  forallb q s = true -> forallb q (dropWhile p s) = true.
Proof.
  induction s as [|c s IH]; simpl; auto.
  intros H. apply andb_true_iff in H. destruct H as [Hc Hs].
  destruct (p c); simpl; auto. rewrite Hc, Hs. reflexivity.
Qed.

Lemma takeWhile_forallb (s : jsstring) : forallb p (takeWhile p s) = true.
Proof.
  induction s as [|c s IH]; simpl; auto.
  destruct (p c) eqn:E; simpl; auto. rewrite E, IH. reflexivity.
Qed.

End Spans.

Lemma matchSentences_step (f : nat) (s : jsstring) :
  matchSentences (S f) s
  = match firstSentence s with
    | None => []
    | Some (m, r) => m :: matchSentences f r
    end.
Proof.
  unfold firstSentence. simpl.
  destruct (takeWhile (fun c => negb (isTerminator c))
              (dropWhile isTerminator s));
    destruct (dropWhile (fun c => negb (isTerminator c))
                (dropWhile isTerminator s)); reflexivity.
Qed.

Lemma terminator_not_space (c : ascii) :
  isTerminator c = true -> isSpace c = false.
Proof.
  unfold isTerminator, isSpace.
  destruct (Nat.eqb_spec (code c) 46) as [->|]; [reflexivity|].
  destruct (Nat.eqb_spec (code c) 33) as [->|]; [reflexivity|].
  destruct (Nat.eqb_spec (code c) 63) as [->|]; [reflexivity|].
  discriminate.
Qed.

Lemma space_not_terminator (s : jsstring) :
  forallb isSpace s = true -> noTerminator s = true.
Proof.
  unfold noTerminator. induction s as [|c s IH]; simpl; auto.
  intros H. apply andb_true_iff in H. destruct H as [Hc Hs].
  rewrite (IH Hs), andb_true_r.
  destruct (isTerminator c) eqn:E; auto.
  rewrite (terminator_not_space c E) in Hc. discriminate.
Qed.

Section FirstSentence.

Let nt := fun c => negb (isTerminator c).

Lemma firstSentence_noTerminator (t : jsstring) :
  noTerminator t = true -> firstSentence t = None.
Proof.
  intros H. unfold firstSentence.
  destruct (span_none isTerminator t H) as [_ ->].
  destruct (span_all nt t H) as [H1 H2].
  fold nt. rewrite H1, H2. destruct t; reflexivity.
Qed.

(** The shape of a match: a body of non-terminators, then terminators,
    then white space. *)
Lemma firstSentence_Some (s m r : jsstring) :
  firstSentence s = Some (m, r) ->
  exists body r1,
    dropWhile nt (dropWhile isTerminator s) = r1
    /\ takeWhile nt (dropWhile isTerminator s) = body
    /\ body <> [] /\ r1 <> []
    /\ m = body ++ takeWhile isTerminator r1
                ++ takeWhile isSpace (dropWhile isTerminator r1)
    /\ r = dropWhile isSpace (dropWhile isTerminator r1).
Proof.
  unfold firstSentence. fold nt.
  destruct (takeWhile nt (dropWhile isTerminator s)) as [|b body] eqn:Eb;
    [discriminate|].
  destruct (dropWhile nt (dropWhile isTerminator s)) as [|c r1] eqn:Er;
    [discriminate|].
  intros H. injection H as <- <-.
  exists (b :: body), (c :: r1). repeat split; congruence.
Qed.

Lemma firstSentence_rest_shorter (s m r : jsstring) :
  firstSentence s = Some (m, r) -> length r < length s.
Proof.
  intros H. destruct (firstSentence_Some _ _ _ H)
    as (body & r1 & Hr1 & Hb & Hne & _ & _ & ->).
  pose proof (span_length nt (dropWhile isTerminator s)) as H1.
  pose proof (dropWhile_length isTerminator s) as H2.
  pose proof (dropWhile_length isTerminator r1) as H3.
  pose proof (dropWhile_length isSpace (dropWhile isTerminator r1)) as H4.
  rewrite Hr1, Hb in H1.
  destruct body; [congruence|]. simpl in H1. lia.
Qed.

Lemma firstSentence_hasInk (s m r : jsstring) :
  firstSentence s = Some (m, r) -> hasInk m = true.
Proof.
  intros H. destruct (firstSentence_Some _ _ _ H)
    as (body & r1 & Hr1 & Hb & Hne & Hrne & -> & _).
  destruct body as [|b body]; [congruence|].
  assert (Hnt : forallb nt (b :: body) = true).
  { rewrite <- Hb. apply takeWhile_forallb. }
  destruct r1 as [|c r1]; [congruence|].
  pose proof (dropWhile_head nt _ _ _ Hr1) as Hc.
  unfold nt in Hc. apply negb_false_iff in Hc.
  rewrite !hasInk_app.
  change (takeWhile isTerminator (c :: r1))
    with (if isTerminator c then c :: takeWhile isTerminator r1 else []).
  rewrite Hc, (hasInk_cons c), (terminator_not_space c Hc).
  simpl. rewrite orb_true_r. reflexivity.
Qed.

(** What a terminator-free continuation [t] changes in the first match. *)
Lemma firstSentence_app (s t : jsstring) :
  noTerminator t = true ->
  match firstSentence s with
  | None => firstSentence (s ++ t) = None
  | Some (m, []) =>
      firstSentence (s ++ t)
      = Some (m ++ takeWhile isSpace t, dropWhile isSpace t)
  | Some (m, r) => firstSentence (s ++ t) = Some (m, r ++ t)
  end.
Proof.
  intros Ht.
  destruct (firstSentence s) as [[m r]|] eqn:E.
  - destruct (firstSentence_Some _ _ _ E)
      as (body & r1 & Hr1 & Hb & Hbne & Hrne & Hm & Hr).
    assert (Hs1 : dropWhile isTerminator s <> []).
    { intros H0. rewrite H0 in Hb. simpl in Hb. congruence. }
    destruct (span_app_inside isTerminator s t Hs1) as [_ D1].
    assert (Hr1' : dropWhile nt (dropWhile isTerminator s) <> [])
      by congruence.
    destruct (span_app_inside nt _ t Hr1') as [T2 D2].
    rewrite Hr1 in D2. rewrite Hb in T2.
    assert (Hstep : firstSentence (s ++ t)
              = Some (body ++ takeWhile isTerminator (r1 ++ t)
                       ++ takeWhile isSpace (dropWhile isTerminator (r1 ++ t)),
                      dropWhile isSpace (dropWhile isTerminator (r1 ++ t)))).
    { unfold firstSentence. fold nt. rewrite D1, T2, D2.
      destruct body; [congruence|].
      destruct r1; [congruence|]. reflexivity. }
    rewrite Hstep. clear Hstep.
    destruct (dropWhile isTerminator r1) as [|c2 r2] eqn:E2.
    + (* the terminators reach the end of [s] *)
      destruct (span_app_through isTerminator r1 t E2) as [T3 D3].
      destruct (span_none isTerminator t Ht) as [T4 D4].
      rewrite T3, D3, T4, D4, app_nil_r.
      destruct (span_all isTerminator r1) as [T6 _].
      { apply dropWhile_nil_iff. exact E2. }
      simpl in Hr. subst r m. simpl.
      rewrite T6, !app_nil_r, <- !app_assoc. reflexivity.
    + assert (E2' : dropWhile isTerminator r1 <> []) by congruence.
      destruct (span_app_inside isTerminator r1 t E2') as [T3 D3].
      rewrite T3, D3, E2.
      destruct (dropWhile isSpace (c2 :: r2)) as [|c3 r3] eqn:E3.
      * destruct (span_app_through isSpace (c2 :: r2) t E3) as [T5 D5].
        rewrite T5, D5. subst r m.
        destruct (span_all isSpace (c2 :: r2)) as [T6 _].
        { apply dropWhile_nil_iff. exact E3. }
        rewrite T6, <- !app_assoc. reflexivity.
      * assert (E3' : dropWhile isSpace (c2 :: r2) <> []) by congruence.
        destruct (span_app_inside isSpace (c2 :: r2) t E3') as [T5 D5].
        rewrite T5, D5, E3. subst r m. reflexivity.
  - (* no match in [s] *)
    unfold firstSentence in E |- *. fold nt in E |- *.
    destruct (dropWhile isTerminator s) as [|c1 s1] eqn:E1.
    + destruct (span_app_through isTerminator s t E1) as [_ D1].
      destruct (span_none isTerminator t Ht) as [_ D4].
      rewrite D1, D4.
      destruct (span_all nt t Ht) as [T2 D2].
      rewrite T2, D2. destruct t; reflexivity.
    + assert (E1' : dropWhile isTerminator s <> []) by congruence.
      destruct (span_app_inside isTerminator s t E1') as [_ D1].
      rewrite D1, E1.
      pose proof (dropWhile_head isTerminator _ _ _ E1) as Hc1.
      destruct (dropWhile nt (c1 :: s1)) as [|c2 r1] eqn:E2.
      * destruct (span_app_through nt (c1 :: s1) t E2) as [T3 D3].
        destruct (span_all nt t Ht) as [T2 D2].
        rewrite T3, D3, D2. reflexivity.
      * exfalso. unfold nt in E. simpl in E. rewrite Hc1 in E.
        simpl in E. discriminate E.
Qed.

End FirstSentence.

Lemma matchSentences_nil (f : nat) : matchSentences f [] = [].
Proof. destruct f; reflexivity. Qed.

Lemma matchSentences_noTerminator (f : nat) (t : jsstring) :
  noTerminator t = true -> matchSentences f t = [].
Proof.
  intros H. destruct f; [reflexivity|].
  rewrite matchSentences_step, firstSentence_noTerminator; auto.
Qed.

(** Fuel beyond the length of the text changes nothing: the length is
    enough for the search to run to its end. *)
Lemma matchSentences_fuel (f1 : nat) :
  forall (f2 : nat) (s : jsstring),
    length s <= f1 -> length s <= f2 ->
    matchSentences f1 s = matchSentences f2 s.
Proof.
  induction f1 as [|f1 IH]; intros f2 s H1 H2.
  - destruct s; [|simpl in H1; lia]. rewrite !matchSentences_nil. reflexivity.
  - destruct f2 as [|f2].
    + destruct s; [|simpl in H2; lia]. rewrite !matchSentences_nil. reflexivity.
    + rewrite !matchSentences_step.
      destruct (firstSentence s) as [[m r]|] eqn:E; [|reflexivity].
      pose proof (firstSentence_rest_shorter _ _ _ E).
      f_equal. apply IH; lia.
Qed.

Lemma matchSentences_hasInk (f : nat) :
  forall s, Forall (fun m => hasInk m = true) (matchSentences f s).
Proof.
  induction f as [|f IH]; intros s; [constructor|].
  rewrite matchSentences_step.
  destruct (firstSentence s) as [[m r]|] eqn:E; [|constructor].
  constructor; [eapply firstSentence_hasInk; eauto | apply IH].
Qed.

(** A terminator-free continuation adds no match; at most it lengthens the
    white space that closes the last one. *)
Lemma matchSentences_app (f : nat) :
  forall s t : jsstring,
    noTerminator t = true -> length s <= f ->
    exists ws, forallb isSpace ws = true
      /\ matchSentences (f + length t) (s ++ t)
         = appendToLast (matchSentences f s) ws.
Proof.
  induction f as [|f IH]; intros s t Ht Hlen.
  - destruct s; [|simpl in Hlen; lia].
    exists []. split; [reflexivity|].
    simpl. rewrite matchSentences_noTerminator; auto.
  - change (S f + length t) with (S (f + length t)).
    rewrite !matchSentences_step.
    pose proof (firstSentence_app s t Ht) as Happ.
    destruct (firstSentence s) as [[m r]|] eqn:E.
    + pose proof (firstSentence_rest_shorter _ _ _ E) as Hr.
      destruct r as [|c r].
      * rewrite Happ, matchSentences_nil.
        rewrite matchSentences_noTerminator
          by (apply forallb_dropWhile; exact Ht).
        exists (takeWhile isSpace t).
        split; [apply takeWhile_forallb | reflexivity].
      * rewrite Happ.
        destruct (IH (c :: r) t Ht) as [ws [Hws Heq]]; [lia|].
        rewrite Heq.
        destruct (matchSentences f (c :: r)) as [|m' l].
        -- exists []. split; [reflexivity|]. simpl.
           rewrite app_nil_r. reflexivity.
        -- exists ws. split; [exact Hws | reflexivity].
    + rewrite Happ. exists []. split; reflexivity.
Qed.

Lemma trim_app_spaces (x ws : jsstring) :
  forallb isSpace ws = true -> trim (x ++ ws) = trim x.
Proof.
  intros H. unfold trim, trimEnd. rewrite rev_app_distr.
  assert (D : dropWhile isSpace (rev ws) = []).
  { apply dropWhile_nil_iff. rewrite forallb_rev_eq. exact H. }
  destruct (span_app_through isSpace (rev ws) (rev x) D) as [_ ->].
  reflexivity.
Qed.

Lemma addSentence_spaces (st : SplitState) (x ws : jsstring) :
  forallb isSpace ws = true ->
  outParagraphs (addSentence st (x ++ ws)) = outParagraphs (addSentence st x)
  /\ currentParagraph (addSentence st (x ++ ws))
     = currentParagraph (addSentence st x) ++ ws
  /\ wordCount (addSentence st (x ++ ws)) = wordCount (addSentence st x).
Proof.
  intros H. unfold addSentence. rewrite (trim_app_spaces x ws H).
  destruct (_ && _); simpl; repeat split. apply app_assoc.
Qed.

Lemma fold_addSentence_appendToLast (l : list jsstring) (ws : jsstring) :
  forallb isSpace ws = true -> l <> [] ->
  forall st,
    outParagraphs (fold_left addSentence (appendToLast l ws) st)
    = outParagraphs (fold_left addSentence l st)
    /\ currentParagraph (fold_left addSentence (appendToLast l ws) st)
       = currentParagraph (fold_left addSentence l st) ++ ws.
Proof.
  intros Hws. induction l as [|x l IH]; intros Hne st; [congruence|].
  destruct l as [|y l].
  - simpl. destruct (addSentence_spaces st x ws Hws) as (H1 & H2 & _). auto.
  - change (appendToLast (x :: y :: l) ws)
      with (x :: appendToLast (y :: l) ws).
    simpl fold_left at 1 3. apply IH. discriminate.
Qed.

Lemma addSentence_hasInk (st : SplitState) (x : jsstring) :
  hasInk x = true -> hasInk (currentParagraph (addSentence st x)) = true.
Proof.
  intros H. unfold addSentence. destruct (_ && _); simpl; auto.
  rewrite hasInk_app, H. apply orb_true_r.
Qed.

Lemma addSentence_keeps_ink (st : SplitState) (x : jsstring) :
  hasInk (currentParagraph st) = true ->
  hasInk (currentParagraph (addSentence st x)) = true
  \/ (outParagraphs (addSentence st x) <> []).
Proof.
  intros H. unfold addSentence. destruct (_ && _); simpl.
  - right. destruct (outParagraphs st); discriminate.
  - left. rewrite hasInk_app, H. reflexivity.
Qed.

Lemma fold_addSentence_hasInk (l : list jsstring) :
  Forall (fun m => hasInk m = true) l ->
  forall st, l <> [] ->
    hasInk (currentParagraph (fold_left addSentence l st)) = true.
Proof.
  induction l as [|x l IH]; intros Hall st Hne; [congruence|].
  inversion Hall as [|? ? Hx Hl]; subst.
  destruct l as [|y l].
  - simpl. apply addSentence_hasInk; assumption.
  - simpl fold_left. apply IH; [assumption | discriminate].
Qed.

Lemma sentencesOf_noTerminator (t : jsstring) :
  noTerminator t = true -> sentencesOf t = [t].
Proof.
  intros H. unfold sentencesOf.
  rewrite matchSentences_noTerminator; auto.
Qed.

(** C10 (as amended). Text that follows the last terminated sentence is
    lost: for a text [t] with at least one match of the sentence pattern
    and a continuation [rest] without terminator, the result for
    [t ++ rest] is the result for [t] alone, as for [One. Two]; a text
    without any terminator comes back as a single paragraph, trimmed when
    it holds a character that is not white space and unchanged
    otherwise. *)
Theorem intelligentSplit_drops_unterminated_tail :
  (forall t rest : jsstring,
     noTerminator rest = true ->
     matchSentences (length t) t <> [] ->
     intelligentSplit (t ++ rest) = intelligentSplit t)
  /\ intelligentSplit (str "One. Two") = [str "One."]
  /\ (forall t : jsstring,
        noTerminator t = true ->
        intelligentSplit t = if hasInk t then [trim t] else [t]).
Proof.
  split; [|split].
  - intros t rest Hrest Hm.
    destruct (matchSentences_app (length t) t rest Hrest (Nat.le_refl (length t)))
      as [ws [Hws Heq]].
    assert (Hs1 : sentencesOf t = matchSentences (length t) t).
    { unfold sentencesOf.
      destruct (matchSentences (length t) t); [congruence | reflexivity]. }
    assert (Hs2 : sentencesOf (t ++ rest)
                  = appendToLast (matchSentences (length t) t) ws).
    { unfold sentencesOf. rewrite length_app, Heq.
      destruct (matchSentences (length t) t) as [|m l]; [congruence|].
      destruct l; reflexivity. }
    unfold intelligentSplit. rewrite Hs1, Hs2.
    destruct (fold_addSentence_appendToLast _ ws Hws Hm
                {| outParagraphs := []; currentParagraph := [];
                   wordCount := 0 |}) as [Ho Hc].
    rewrite Ho, Hc, (trim_app_spaces _ ws Hws).
    pose proof (fold_addSentence_hasInk _
                  (matchSentences_hasInk (length t) t)
                  {| outParagraphs := []; currentParagraph := [];
                     wordCount := 0 |} Hm) as Hink.
    rewrite nonEmpty_trim, Hink.
    rewrite length_app. simpl.
    rewrite Nat.add_1_r. reflexivity.
  - vm_compute. reflexivity.
  - intros t Ht. unfold intelligentSplit.
    rewrite (sentencesOf_noTerminator t Ht). simpl.
    unfold addSentence. simpl. rewrite andb_false_r. simpl.
    rewrite nonEmpty_trim.
    destruct (hasInk t); reflexivity.
Qed.

(** C10, the second half as stated: a text of one space has no terminator
    and is not returned trimmed. *)
Lemma intelligentSplit_blank_not_trimmed :
  ~ (forall t : jsstring,
       noTerminator t = true -> intelligentSplit t = [trim t]).
Proof.
  intros H. specialize (H (str " ") eq_refl).
  vm_compute in H. discriminate H.
Qed.

(** The amended statement at [One. ] followed by [Two], and at a blank. *)
Lemma intelligentSplit_drops_unterminated_tail_witness :
  intelligentSplit (str "One. " ++ str "Two") = intelligentSplit (str "One. ")
  /\ intelligentSplit (str " ") = [str " "].
Proof.
  split.
  - apply (proj1 intelligentSplit_drops_unterminated_tail).
    + reflexivity.
    + vm_compute. discriminate.
  - apply (proj2 (proj2 intelligentSplit_drops_unterminated_tail) (str " ")).
    reflexivity.
Defined.

(* ================================================================== *)
(** * The word model                                                   *)
(* ================================================================== *)

Lemma wordsBefore_S (ps : list Paragraph) :
  forall i p, nth_error ps i = Some p ->
    wordsBefore (S i) ps = wordsBefore i ps + length (words p).
Proof.
  unfold wordsBefore.
  induction ps as [|q ps IH]; intros [|i] p H; simpl in *; try discriminate.
  - injection H as ->. lia.
  - rewrite (IH i p H). lia.
Qed.

Lemma wordsBefore_total (ps : list Paragraph) :
  forall i, wordsBefore i ps <= length (flattenWords ps)
            /\ (length ps <= i -> wordsBefore i ps = length (flattenWords ps)).
Proof.
  unfold wordsBefore, flattenWords.
  induction ps as [|q ps IH]; intros [|i]; simpl; try rewrite length_app;
    try (split; [lia | intros; lia]).
  destruct (IH i) as [H1 H2]. split; [lia|].
  intros H. rewrite H2; lia.
Qed.

Section WellFormed.

Variable ps : list Paragraph.
Hypothesis Hwf : wellFormed ps.

Lemma paragraph_has_word i p :
  nth_error ps i = Some p -> startWordIndex p < paragraphEnd p.
Proof.
  intros H. destruct (Hwf i p H) as [_ H2]. unfold paragraphEnd. lia.
Qed.

Lemma paragraphEnd_wordsBefore i p :
  nth_error ps i = Some p -> paragraphEnd p = wordsBefore (S i) ps.
Proof.
  intros H. destruct (Hwf i p H) as [H1 _].
  unfold paragraphEnd. rewrite H1, (wordsBefore_S ps i p H). reflexivity.
Qed.

Lemma paragraphEnd_le_total i p :
  nth_error ps i = Some p -> paragraphEnd p <= length (flattenWords ps).
Proof.
  intros H. rewrite (paragraphEnd_wordsBefore i p H).
  apply wordsBefore_total.
Qed.

Lemma paragraphEnd_last i p :
  nth_error ps i = Some p -> ~ i < length ps - 1 ->
  paragraphEnd p = length (flattenWords ps).
Proof.
  intros H Hlast. rewrite (paragraphEnd_wordsBefore i p H).
  apply wordsBefore_total.
  assert (i < length ps) by (apply nth_error_Some; congruence). lia.
Qed.

Lemma paragraph_next i p :
  nth_error ps i = Some p -> i < length ps - 1 ->
  exists q, nth_error ps (i + 1) = Some q
            /\ startWordIndex q = paragraphEnd p
            /\ paragraphEnd p < length (flattenWords ps).
Proof.
  intros H Hlt.
  destruct (nth_error ps (i + 1)) as [q|] eqn:E.
  - exists q. split; [reflexivity|].
    destruct (Hwf (i + 1) q E) as [H1 H2].
    rewrite (paragraphEnd_wordsBefore i p H), H1, Nat.add_1_r.
    split; [reflexivity|].
    rewrite Nat.add_1_r in E.
    pose proof (paragraphEnd_le_total (S i) q E) as H3.
    unfold paragraphEnd in H3. rewrite Nat.add_1_r in H1. lia.
  - apply nth_error_None in E. lia.
Qed.

Lemma paragraph_first p :
  nth_error ps 0 = Some p -> startWordIndex p = 0.
Proof. intros H. destruct (Hwf 0 p H) as [H1 _]. exact H1. Qed.

End WellFormed.

Lemma splitParagraphs_hasInk (t : jsstring) :
  Forall (fun x => hasInk x = true) (splitParagraphs t).
Proof.
  unfold splitParagraphs.
  induction (splitOn LF (normalizeNewlines t)) as [|l ls IH]; simpl.
  - constructor.
  - destruct (nonEmpty (trim l)) eqn:E; auto.
    constructor; auto.
    rewrite hasInk_trim, <- nonEmpty_trim. exact E.
Qed.

(** The model built by [parseText] is well formed. *)
Lemma parseParagraphs_wellFormed (t : jsstring) :
  wellFormed (parseParagraphs t).
Proof.
  intros i p H. split.
  - pose proof (startWordIndex_parseParagraphs t i) as E.
    rewrite H in E. simpl in E. congruence.
  - assert (Hall : Forall (fun ws : list jsstring => 0 < length ws)
                     (map words (parseParagraphs t))).
    { rewrite words_parseParagraphs.
      pose proof (splitParagraphs_hasInk t) as Hink.
      induction Hink as [|x l Hx Hl IH]; simpl; constructor; auto.
      apply Nat.ltb_lt. rewrite extractWords_nonEmpty. exact Hx. }
    rewrite Forall_forall in Hall. apply Hall.
    apply in_map. eapply nth_error_In; eauto.
Qed.

(* ================================================================== *)
(** * Effects of the operations                                        *)
(* ================================================================== *)

(** Unfolds the field updates and the writes to the page, and nothing
    else. *)
Ltac wsimpl :=
  cbn [app dom pending nextTimerId updApp updDom
       appWords paragraphs currentWordIndex currentParagraphIndex
       isPlaying isPaused hasStarted wpm sentencePause intervalId
       sentencePauseTimeoutId
       set_words set_paragraphs set_currentWordIndex
       set_currentParagraphIndex set_isPlaying set_isPaused set_hasStarted
       set_wpm set_sentencePause set_intervalId set_sentencePauseTimeoutId
       updateStatus hideStatus setReadingState setWordDisplay
       clearWordDisplay setWordCounter setWordVisible removeClassPaused
       setTextInput showParagraphBreak showEndOfText updateWordCounter
       setTimeout clearTimeout fst snd] in *.

Lemma app_eta (a : App) :
  {| appWords := appWords a; paragraphs := paragraphs a;
     currentWordIndex := currentWordIndex a;
     currentParagraphIndex := currentParagraphIndex a;
     isPlaying := isPlaying a; isPaused := isPaused a;
     hasStarted := hasStarted a; wpm := wpm a;
     sentencePause := sentencePause a; intervalId := intervalId a;
     sentencePauseTimeoutId := sentencePauseTimeoutId a |} = a.
Proof. destruct a; reflexivity. Qed.

Lemma world_eta (w : World) :
  {| app := app w; dom := dom w; pending := pending w;
     nextTimerId := nextTimerId w |} = w.
Proof. destruct w; reflexivity. Qed.

(** The timers that remain when the handle [o] is disarmed. *)
Lemma clearIntervalTimer_app (w : World) :
  app (clearIntervalTimer w) = set_intervalId None (app w).
Proof.
  unfold clearIntervalTimer.
  destruct (intervalId (app w)) eqn:E; wsimpl; [reflexivity|].
  unfold set_intervalId. rewrite <- E. symmetry. apply app_eta.
Qed.

Lemma clearSentencePauseTimer_app (w : World) :
  app (clearSentencePauseTimer w) = set_sentencePauseTimeoutId None (app w).
Proof.
  unfold clearSentencePauseTimer.
  destruct (sentencePauseTimeoutId (app w)) eqn:E; wsimpl; [reflexivity|].
  unfold set_sentencePauseTimeoutId. rewrite <- E. symmetry. apply app_eta.
Qed.

Lemma clearIntervalTimer_pending (w : World) :
  pending (clearIntervalTimer w) = cancelled (intervalId (app w)) (pending w).
Proof.
  unfold clearIntervalTimer, cancelled.
  destruct (intervalId (app w)); reflexivity.
Qed.

Lemma clearSentencePauseTimer_pending (w : World) :
  pending (clearSentencePauseTimer w)
  = cancelled (sentencePauseTimeoutId (app w)) (pending w).
Proof.
  unfold clearSentencePauseTimer, cancelled.
  destruct (sentencePauseTimeoutId (app w)); reflexivity.
Qed.

Lemma clearIntervalTimer_frame (w : World) :
  dom (clearIntervalTimer w) = dom w
  /\ nextTimerId (clearIntervalTimer w) = nextTimerId w.
Proof.
  unfold clearIntervalTimer. destruct (intervalId (app w)); auto.
Qed.

Lemma clearSentencePauseTimer_frame (w : World) :
  dom (clearSentencePauseTimer w) = dom w
  /\ nextTimerId (clearSentencePauseTimer w) = nextTimerId w.
Proof.
  unfold clearSentencePauseTimer.
  destruct (sentencePauseTimeoutId (app w)); auto.
Qed.

(** The fields of the engine after [pause]. *)
Lemma pause_app (w : World) :
  app (pause w)
  = set_sentencePauseTimeoutId None
      (set_intervalId None
         (set_isPaused true (set_isPlaying false (app w)))).
Proof.
  unfold pause.
  match goal with |- app (if ?c then _ else _) = _ => destruct c end;
    wsimpl; rewrite clearSentencePauseTimer_app, clearIntervalTimer_app;
    reflexivity.
Qed.

Lemma pause_nextTimerId (w : World) : nextTimerId (pause w) = nextTimerId w.
Proof.
  unfold pause.
  match goal with |- nextTimerId (if ?c then _ else _) = _ => destruct c end;
    wsimpl;
    rewrite (proj2 (clearSentencePauseTimer_frame _)),
            (proj2 (clearIntervalTimer_frame _)); reflexivity.
Qed.

Lemma pause_pending_eq (w : World) :
  pending (pause w)
  = cancelled (sentencePauseTimeoutId (app w))
      (cancelled (intervalId (app w)) (pending w)).
Proof.
  unfold pause.
  match goal with |- pending (if ?c then _ else _) = _ => destruct c end;
    wsimpl;
    rewrite clearSentencePauseTimer_pending, clearIntervalTimer_pending,
            clearIntervalTimer_app; reflexivity.
Qed.

Lemma pause_pending (w : World) : timersOK w -> pending (pause w) = [].
Proof.
  intros H. rewrite pause_pending_eq. unfold timersOK in H.
  destruct (pending w) as [|t [|t' l]]; try contradiction.
  - destruct (sentencePauseTimeoutId (app w)), (intervalId (app w));
      reflexivity.
  - destruct H as (_ & _ & [H|H]); rewrite H; unfold cancelled.
    + cbn [filter]. rewrite Pos.eqb_refl. cbn [negb].
      destruct (sentencePauseTimeoutId (app w)); reflexivity.
    + destruct (intervalId (app w)) as [i|]; cbn [filter].
      * destruct (Pos.eqb (timerId t) i); cbn [negb filter];
          rewrite ?Pos.eqb_refl; reflexivity.
      * rewrite Pos.eqb_refl. reflexivity.
Qed.

(** [pause] leaves the word display as it is. *)
Lemma pause_display (w : World) :
  wordBefore (dom (pause w)) = wordBefore (dom w)
  /\ wordFocus (dom (pause w)) = wordFocus (dom w)
  /\ wordAfter (dom (pause w)) = wordAfter (dom w).
Proof.
  unfold pause.
  match goal with |- context [if ?c then _ else _] => destruct c end;
    wsimpl;
    rewrite (proj1 (clearSentencePauseTimer_frame _)),
            (proj1 (clearIntervalTimer_frame _)); wsimpl; auto.
Qed.

Lemma displayCurrentWord_frame (w : World) :
  app (displayCurrentWord w) = app w
  /\ pending (displayCurrentWord w) = pending w
  /\ nextTimerId (displayCurrentWord w) = nextTimerId w.
Proof.
  unfold displayCurrentWord.
  destruct (_ <=? _); auto.
  destruct (nth_error _ _); auto.
Qed.

Lemma scheduleNextWord_playing (w : World) :
  isPlaying (app w) = true ->
  scheduleNextWord w
  = {| app := set_intervalId (Some (nextTimerId w)) (app w);
       dom := dom w;
       pending := pending w ++ [scheduledTimer (app w) (nextTimerId w)];
       nextTimerId := Pos.succ (nextTimerId w) |}.
Proof.
  intros H. unfold scheduleNextWord, scheduledTimer, needsSentencePause.
  rewrite H. cbn [negb].
  destruct (_ && _); reflexivity.
Qed.

Lemma scheduleNextWord_idle (w : World) :
  isPlaying (app w) = false -> scheduleNextWord w = w.
Proof. intros H. unfold scheduleNextWord. rewrite H. reflexivity. Qed.

Lemma play_idle (w : World) :
  isPlaying (app w) || (length (appWords (app w)) <=? currentWordIndex (app w))
  = true ->
  play w = w.
Proof. intros H. unfold play. rewrite H. reflexivity. Qed.

Lemma play_starts (w : World) :
  isPlaying (app w) = false ->
  currentWordIndex (app w) < length (appWords (app w)) ->
  play w
  = {| app := set_intervalId (Some (nextTimerId w))
                (set_isPaused false (set_isPlaying true (app w)));
       dom := dom (setReadingState true
                     (hideStatus (updApp (set_isPaused false)
                                    (updApp (set_isPlaying true) w))));
       pending := pending w ++ [scheduledTimer (app w) (nextTimerId w)];
       nextTimerId := Pos.succ (nextTimerId w) |}.
Proof.
  intros H1 H2. unfold play. rewrite H1.
  apply Nat.leb_gt in H2. rewrite H2. cbn [orb].
  rewrite scheduleNextWord_playing by reflexivity.
  reflexivity.
Qed.

(** [play] either does nothing or starts the timer for the current word. *)
Lemma play_cases (w : World) :
  play w = w
  \/ (isPlaying (app w) = false
      /\ currentWordIndex (app w) < length (appWords (app w))
      /\ play w
         = {| app := set_intervalId (Some (nextTimerId w))
                       (set_isPaused false (set_isPlaying true (app w)));
              dom := dom (setReadingState true
                            (hideStatus (updApp (set_isPaused false)
                                           (updApp (set_isPlaying true) w))));
              pending := pending w ++ [scheduledTimer (app w) (nextTimerId w)];
              nextTimerId := Pos.succ (nextTimerId w) |}).
Proof.
  destruct (isPlaying (app w)) eqn:E.
  - left. apply play_idle. rewrite E. reflexivity.
  - destruct (Nat.leb_spec (length (appWords (app w)))
                           (currentWordIndex (app w))) as [H|H].
    + left. apply play_idle. rewrite E.
      apply Nat.leb_le in H. rewrite H. reflexivity.
    + right. split; [reflexivity|]. split; [exact H|].
      apply play_starts; assumption.
Qed.

(* ================================================================== *)
(** * The invariant                                                    *)
(* ================================================================== *)

Lemma samePosition_refl (a : App) : samePosition a a.
Proof. repeat split. Qed.

Lemma samePosition_trans (a b c : App) :
  samePosition a b -> samePosition b c -> samePosition a c.
Proof.
  unfold samePosition. intros (A1 & A2 & A3 & A4 & A5) (B1 & B2 & B3 & B4 & B5).
  repeat split; congruence.
Qed.

Lemma modelOK_same (a a' : App) :
  samePosition a a' -> modelOK a -> modelOK a'.
Proof.
  unfold samePosition, modelOK.
  intros (E1 & E2 & E3 & E4 & _). rewrite E1, E2, E3, E4. auto.
Qed.

Lemma beforeEnd_same (a a' : App) :
  samePosition a a' -> beforeEnd a -> beforeEnd a'.
Proof.
  unfold samePosition, beforeEnd.
  intros (E1 & E2 & E3 & E4 & _). rewrite E1, E3, E4. auto.
Qed.

Lemma inCurrentParagraph_same (a a' : App) :
  samePosition a a' -> inCurrentParagraph a -> inCurrentParagraph a'.
Proof.
  unfold samePosition, inCurrentParagraph.
  intros (E1 & E2 & E3 & E4 & _). rewrite E1, E3, E4. auto.
Qed.

Lemma Tracked_same (w w' : World) :
  samePosition (app w) (app w') -> Tracked w -> Tracked w'.
Proof.
  intros H T H'. apply (inCurrentParagraph_same _ _ H). apply T.
  destruct H as (_ & _ & _ & _ & E). congruence.
Qed.

Lemma pause_samePosition (w : World) : samePosition (app w) (app (pause w)).
Proof. rewrite pause_app. repeat split. Qed.

Lemma play_samePosition (w : World) : samePosition (app w) (app (play w)).
Proof.
  destruct (play_cases w) as [->|(_ & _ & ->)]; repeat split.
Qed.

Lemma pause_isPlaying (w : World) : isPlaying (app (pause w)) = false.
Proof. rewrite pause_app. reflexivity. Qed.

Lemma pause_Inv (w : World) :
  timersOK w -> (hasStarted (app w) = true -> modelOK (app w)) ->
  Inv (pause w).
Proof.
  intros HT HM.
  unfold Inv, timersOK.
  rewrite (pause_pending w HT), pause_isPlaying.
  split; [exact I|]. split; [discriminate|]. split; [|discriminate].
  intros Hs. apply (modelOK_same _ _ (pause_samePosition w)). apply HM.
  destruct (pause_samePosition w) as (_ & _ & _ & _ & E). congruence.
Qed.

Lemma not_playing_no_timer (w : World) :
  timersOK w -> isPlaying (app w) = false -> pending w = [].
Proof.
  unfold timersOK. destruct (pending w) as [|t [|t' l]]; auto.
  - intros (H & _) E. congruence.
  - contradiction.
Qed.

Lemma play_Inv (w : World) :
  Inv w -> hasStarted (app w) = true -> beforeEnd (app w) -> Inv (play w).
Proof.
  intros HI HS HB.
  destruct (play_cases w) as [->|(E1 & E2 & ->)]; [exact HI|].
  destruct HI as (HT & HP & HM & _).
  unfold Inv, timersOK. wsimpl.
  rewrite (not_playing_no_timer w HT E1). cbn [app scheduledTimer timerId].
  split; [|split; [|split]]; auto.
  split; [reflexivity|]. split; [apply Pos.lt_succ_diag_r | left; reflexivity].
Qed.

Ltac split4 := split; [|split; [|split]].

(** The invariant reads the engine's fields and the timers only. *)
Lemma Inv_ext (w w' : World) :
  app w' = app w -> pending w' = pending w ->
  nextTimerId w' = nextTimerId w ->
  Inv w -> Inv w'.
Proof.
  unfold Inv, timersOK. intros -> -> ->. auto.
Qed.

Lemma updateStatus_frame (m : Message) (b : bool) (w : World) :
  app (updateStatus m b w) = app w
  /\ pending (updateStatus m b w) = pending w
  /\ nextTimerId (updateStatus m b w) = nextTimerId w.
Proof. repeat split. Qed.

Lemma Inv_updateStatus (m : Message) (b : bool) (w : World) :
  Inv w -> Inv (updateStatus m b w).
Proof. apply Inv_ext; reflexivity. Qed.

Lemma Tracked_updateStatus (m : Message) (b : bool) (w : World) :
  Tracked w -> Tracked (updateStatus m b w).
Proof. apply Tracked_same. repeat split. Qed.

Lemma display_frame (w : World) :
  app (updateWordCounter (displayCurrentWord w)) = app w
  /\ pending (updateWordCounter (displayCurrentWord w)) = pending w
  /\ nextTimerId (updateWordCounter (displayCurrentWord w)) = nextTimerId w.
Proof.
  destruct (displayCurrentWord_frame w) as (E1 & E2 & E3).
  wsimpl. auto.
Qed.

Lemma Inv_display (w : World) :
  Inv w -> Inv (updateWordCounter (displayCurrentWord w)).
Proof.
  destruct (display_frame w) as (E1 & E2 & E3).
  apply Inv_ext; assumption.
Qed.

Lemma display_samePosition (w : World) :
  samePosition (app w) (app (updateWordCounter (displayCurrentWord w))).
Proof.
  destruct (display_frame w) as (E1 & E2 & E3).
  rewrite E1. apply samePosition_refl.
Qed.

(** Arming the timer of the current word. *)
Lemma scheduleNextWord_Inv (w : World) :
  pending w = [] -> isPlaying (app w) = true ->
  hasStarted (app w) = true -> modelOK (app w) -> beforeEnd (app w) ->
  Inv (scheduleNextWord w)
  /\ samePosition (app w) (app (scheduleNextWord w)).
Proof.
  intros Hpd Hplay Hs Hm Hb.
  rewrite scheduleNextWord_playing by assumption.
  rewrite Hpd. split; [|repeat split].
  unfold Inv, timersOK. cbn [app pending nextTimerId app scheduledTimer timerId].
  split4; auto.
  split; [exact Hplay|].
  split; [apply Pos.lt_succ_diag_r | left; reflexivity].
Qed.

Lemma modelOK_nth (a : App) :
  modelOK a ->
  exists p, nth_error (paragraphs a) (currentParagraphIndex a) = Some p.
Proof.
  intros (_ & _ & _ & H).
  destruct (nth_error (paragraphs a) (currentParagraphIndex a)) eqn:E; eauto.
  apply nth_error_None in E. lia.
Qed.

(** The index-advance step, run by a timer that has just fired. *)
Lemma advanceWord_Inv (w : World) :
  Inv w -> pending w = [] -> isPlaying (app w) = true ->
  exists w', advanceWord w = Some w'
    /\ Inv w'
    /\ currentWordIndex (app w') = currentWordIndex (app w) + 1
    /\ (Tracked w -> Tracked w').
Proof.
  intros (HT & HP & HM & HB) Hpd Hplay.
  pose proof (HP Hplay) as Hs. pose proof (HM Hs) as Hmodel.
  destruct (modelOK_nth _ Hmodel) as [p Hp].
  pose proof (HB Hplay p Hp) as Hlt.
  destruct Hmodel as (Hwf & Hws & Hle & Hcpi).
  pose proof (paragraphEnd_le_total _ Hwf _ _ Hp) as Hend.
  rewrite <- Hws in Hend.
  unfold advanceWord. wsimpl. rewrite Hp. fold (paragraphEnd p).
  set (w1 := updApp _ w).
  assert (HT1 : timersOK w1).
  { unfold timersOK, w1. wsimpl. rewrite Hpd. exact I. }
  assert (HM1 : hasStarted (app w1) = true -> modelOK (app w1)).
  { intros _. unfold w1, modelOK. wsimpl. split4; auto. lia. }
  destruct (Nat.leb_spec (paragraphEnd p) (currentWordIndex (app w) + 1))
    as [Hge|Hin].
  - (* the paragraph is exhausted *)
    pose proof (pause_Inv w1 HT1 HM1) as HI.
    pose proof (pause_samePosition w1) as (P1 & P2 & P3 & P4 & P5).
    assert (HTr : Tracked w -> Tracked (pause w1)).
    { intros T _. destruct (T Hs) as (q & Hq & Hq1 & Hq2).
      exists q. rewrite P1, P3, P4. unfold w1. wsimpl.
      split; [exact Hq|]. rewrite Hq in Hp. injection Hp as ->. lia. }
    assert (Hcwi : currentWordIndex (app (pause w1))
                   = currentWordIndex (app w) + 1).
    { rewrite P3. reflexivity. }
    unfold showParagraphBreak, showEndOfText.
    destruct (_ <? _).
    + exists (updateStatus MsgEndOfParagraph true (pause w1)).
      split; [reflexivity|].
      split; [apply Inv_updateStatus; exact HI|].
      split; [exact Hcwi|].
      intros T. apply Tracked_updateStatus, HTr, T.
    + exists (updateStatus MsgDone true (pause w1)).
      split; [reflexivity|].
      split; [apply Inv_updateStatus; exact HI|].
      split; [exact Hcwi|].
      intros T. apply Tracked_updateStatus, HTr, T.
  - (* the next word of the paragraph *)
    eexists. split; [reflexivity|].
    destruct (display_frame w1) as (E1 & E2 & E3).
    destruct (scheduleNextWord_Inv (updateWordCounter (displayCurrentWord w1)))
      as [HI HP2].
    + rewrite E2. exact Hpd.
    + rewrite E1. exact Hplay.
    + rewrite E1. exact Hs.
    + rewrite E1. unfold w1, modelOK. wsimpl. split4; auto. lia.
    + rewrite E1. unfold w1, beforeEnd. wsimpl.
      intros q Hq. rewrite Hq in Hp. injection Hp as ->. lia.
    + split; [exact HI|].
      destruct HP2 as (P1 & P2 & P3 & P4 & P5).
      rewrite E1 in P1, P2, P3, P4, P5.
      split; [rewrite P3; reflexivity|].
      intros T _. destruct (T Hs) as (q & Hq & Hq1 & Hq2).
      exists q. rewrite P1, P3, P4. unfold w1. wsimpl.
      split; [exact Hq|].
      rewrite Hq in Hp. injection Hp as ->. lia.
Qed.

Lemma timersOK_ext (w w' : World) :
  pending w' = pending w -> nextTimerId w' = nextTimerId w ->
  isPlaying (app w') = isPlaying (app w) ->
  intervalId (app w') = intervalId (app w) ->
  sentencePauseTimeoutId (app w') = sentencePauseTimeoutId (app w) ->
  timersOK w -> timersOK w'.
Proof.
  unfold timersOK. intros -> -> -> -> ->. auto.
Qed.

(** A jump to the first word of paragraph [j], followed by [play]: the
    common end of [continueAfterParagraph] and [restartCurrentParagraph]. *)
Lemma jump_Inv (w w1 : World) (j : nat) (q : Paragraph) :
  Inv w -> hasStarted (app w) = true ->
  app w1 = set_currentWordIndex (startWordIndex q)
             (set_currentParagraphIndex j (app w)) ->
  pending w1 = pending w -> nextTimerId w1 = nextTimerId w ->
  nth_error (paragraphs (app w)) j = Some q ->
  let w' := play (updateWordCounter (displayCurrentWord w1)) in
  Inv w' /\ Tracked w'.
Proof.
  intros (HT & HP & HM & HB) Hs Ha Hpd Hnx Hq w'.
  destruct (HM Hs) as (Hwf & Hws & Hle & Hcpi).
  pose proof (paragraph_has_word _ Hwf _ _ Hq) as Hpos.
  pose proof (paragraphEnd_le_total _ Hwf _ _ Hq) as Hend.
  rewrite <- Hws in Hend.
  assert (Hb1 : beforeEnd (app w1)).
  { unfold beforeEnd. rewrite Ha. wsimpl.
    intros p Hp. rewrite Hp in Hq. injection Hq as ->. exact Hpos. }
  assert (HI1 : Inv w1).
  { unfold Inv. split4.
    - revert HT. apply timersOK_ext; auto; rewrite Ha; reflexivity.
    - rewrite Ha. wsimpl. exact HP.
    - intros _. unfold modelOK. rewrite Ha. wsimpl. split4; auto.
      + lia.
      + apply nth_error_Some. congruence.
    - intros _. exact Hb1. }
  assert (Hs1 : hasStarted (app w1) = true) by (rewrite Ha; exact Hs).
  pose proof (display_samePosition w1) as S1.
  pose proof (play_samePosition (updateWordCounter (displayCurrentWord w1)))
    as S2.
  split.
  - apply play_Inv.
    + apply Inv_display. exact HI1.
    + destruct S1 as (_ & _ & _ & _ & E). congruence.
    + apply (beforeEnd_same _ _ S1). exact Hb1.
  - intros _. apply (inCurrentParagraph_same _ _ S2).
    apply (inCurrentParagraph_same _ _ S1).
    exists q. rewrite Ha. wsimpl. split; [exact Hq | lia].
Qed.

Lemma continueAfterParagraph_Inv (w : World) (p : Paragraph) :
  Inv w -> hasStarted (app w) = true ->
  nth_error (paragraphs (app w)) (currentParagraphIndex (app w)) = Some p ->
  paragraphEnd p <= currentWordIndex (app w) ->
  Inv (continueAfterParagraph w) /\ Tracked (continueAfterParagraph w).
Proof.
  intros HI Hs Hp Hge.
  pose proof HI as (HT & HP & HM & HB).
  destruct (HM Hs) as (Hwf & Hws & Hle & Hcpi).
  unfold continueAfterParagraph.
  destruct ((length (paragraphs (app w)) - 1 <=? currentParagraphIndex (app w))
            && (length (appWords (app w)) <=? currentWordIndex (app w)))
    eqn:Hc.
  - (* wrap around *)
    destruct (nth_error (paragraphs (app w)) 0) as [p0|] eqn:E0.
    2:{ apply nth_error_None in E0. lia. }
    apply (jump_Inv w _ 0 p0 HI Hs); auto.
    wsimpl. rewrite (paragraph_first _ Hwf _ E0). reflexivity.
  - (* the next paragraph *)
    assert (Hnext : currentParagraphIndex (app w)
                    < length (paragraphs (app w)) - 1).
    { destruct (Nat.lt_ge_cases (currentParagraphIndex (app w))
                                (length (paragraphs (app w)) - 1)) as [H|H];
        [exact H|exfalso].
      assert (Hl : ~ currentParagraphIndex (app w)
                     < length (paragraphs (app w)) - 1) by lia.
      pose proof (paragraphEnd_last _ Hwf _ _ Hp Hl) as Hend.
      rewrite <- Hws in Hend.
      apply andb_false_iff in Hc.
      destruct Hc as [Hc|Hc]; apply Nat.leb_gt in Hc; lia. }
    destruct (paragraph_next _ Hwf _ _ Hp Hnext) as (q & Hq & Hq1 & Hq2).
    wsimpl. rewrite Hq.
    apply (jump_Inv w _ (currentParagraphIndex (app w) + 1) q HI Hs); auto.
Qed.

Lemma restartCurrentParagraph_Inv (w : World) :
  Inv w -> hasStarted (app w) = true ->
  exists w', restartCurrentParagraph w = Some w' /\ Inv w' /\ Tracked w'.
Proof.
  intros HI Hs.
  pose proof HI as (HT & HP & HM & HB).
  destruct (modelOK_nth _ (HM Hs)) as [p Hp].
  unfold restartCurrentParagraph. rewrite Hp.
  eexists. split; [reflexivity|].
  apply (jump_Inv w _ (currentParagraphIndex (app w)) p HI Hs); auto.
Qed.

(** A move of the index in a paused engine. *)
Lemma move_Inv (w w1 : World) (i : nat) :
  Inv w -> isPlaying (app w) = false ->
  (hasStarted (app w) = true -> i <= length (appWords (app w))) ->
  app w1 = set_currentWordIndex i (app w) ->
  pending w1 = pending w -> nextTimerId w1 = nextTimerId w ->
  Inv w1.
Proof.
  intros (HT & HP & HM & HB) Hplay Hi Ha Hpd Hnx.
  unfold Inv. split4.
  - revert HT. apply timersOK_ext; auto; rewrite Ha; reflexivity.
  - rewrite Ha. wsimpl. exact HP.
  - rewrite Ha. wsimpl. intros Hs.
    destruct (HM Hs) as (Hwf & Hws & Hle & Hcpi).
    unfold modelOK. wsimpl. split4; auto.
  - rewrite Ha. wsimpl. congruence.
Qed.

Lemma Inv_of_pause (w : World) : Inv w -> Inv (pause w).
Proof. intros (HT & _ & HM & _). apply pause_Inv; assumption. Qed.

Lemma navigatePrev_Inv (w : World) : Inv w -> Inv (navigatePrev w).
Proof.
  intros HI. unfold navigatePrev.
  destruct (hasStarted (app w) && (0 <? currentWordIndex (app w))) eqn:G;
    [|exact HI].
  apply andb_true_iff in G. destruct G as [Hs Hpos].
  pose proof (Inv_of_pause w HI) as HIp.
  pose proof (pause_samePosition w) as (P1 & P2 & P3 & P4 & P5).
  set (w1 := updApp _ (pause w)).
  apply Inv_updateStatus.
  apply Inv_display.
  apply (move_Inv (pause w) w1 (currentWordIndex (app (pause w)) - 1));
    auto using pause_isPlaying.
  intros Hs'. destruct HIp as (_ & _ & HM & _).
  destruct (HM Hs') as (_ & _ & Hle & _). lia.
Qed.

Lemma navigateNext_Inv (w : World) : Inv w -> Inv (navigateNext w).
Proof.
  intros HI. unfold navigateNext.
  destruct (hasStarted (app w)
            && (currentWordIndex (app w) <? length (appWords (app w)) - 1))
    eqn:G; [|exact HI].
  apply andb_true_iff in G. destruct G as [Hs Hlt].
  apply Nat.ltb_lt in Hlt.
  pose proof (Inv_of_pause w HI) as HIp.
  pose proof (pause_samePosition w) as (P1 & P2 & P3 & P4 & P5).
  set (w1 := updApp _ (pause w)).
  apply Inv_updateStatus.
  apply Inv_display.
  apply (move_Inv (pause w) w1 (currentWordIndex (app (pause w)) + 1));
    auto using pause_isPlaying.
  intros _. rewrite P2, P3. lia.
Qed.

Lemma Inv_not_started (w : World) :
  Inv w -> hasStarted (app w) = false -> isPlaying (app w) = false.
Proof.
  intros (_ & HP & _) Hs.
  destruct (isPlaying (app w)); auto. rewrite HP in Hs; auto.
Qed.

Lemma Tracked_not_started (w : World) :
  hasStarted (app w) = false -> Tracked w.
Proof. intros H H'. congruence. Qed.

Lemma startReading_Inv (w : World) :
  Inv w -> hasStarted (app w) = false ->
  Inv (startReading w) /\ Tracked (startReading w).
Proof.
  intros HI Hs.
  pose proof (Inv_not_started w HI Hs) as Hplay.
  pose proof HI as (HT & HP & HM & HB).
  unfold startReading.
  destruct (negb (nonEmpty (trim (textInput (dom w))))).
  { split; [apply Inv_updateStatus; exact HI|].
    apply Tracked_not_started. exact Hs. }
  unfold parseText. cbn [fst snd].
  set (t := textInput (dom w)).
  set (w0 := updApp (set_words (flattenWords (parseParagraphs t)))
               (updApp (set_paragraphs (parseParagraphs t)) w)).
  change (appWords (app w0)) with (flattenWords (parseParagraphs t)).
  destruct (0 <? length (flattenWords (parseParagraphs t))) eqn:Hok;
    cbn [negb].
  2:{ split; [|apply Tracked_not_started; exact Hs].
      unfold Inv. split4.
      - revert HT. apply timersOK_ext; reflexivity.
      - exact HP.
      - unfold w0. wsimpl. congruence.
      - unfold w0. wsimpl. congruence. }
  apply Nat.ltb_lt in Hok.
  set (w3 := updApp (set_hasStarted true)
               (updApp (set_currentParagraphIndex 0)
                  (updApp (set_currentWordIndex 0) w0))).
  pose proof (parseParagraphs_wellFormed t) as Hwf.
  destruct (nth_error (parseParagraphs t) 0) as [p0|] eqn:E0.
  2:{ apply nth_error_None in E0.
      destruct (parseParagraphs t); simpl in *; lia. }
  pose proof (paragraph_has_word _ Hwf _ _ E0) as Hpos.
  rewrite (paragraph_first _ Hwf _ E0) in Hpos.
  assert (Hb3 : beforeEnd (app w3)).
  { unfold beforeEnd, w3, w0. wsimpl. intros p Hp.
    rewrite Hp in E0. injection E0 as ->. exact Hpos. }
  assert (HI3 : Inv w3).
  { unfold Inv. split4.
    - revert HT. apply timersOK_ext; reflexivity.
    - reflexivity.
    - intros _. unfold modelOK, w3, w0. wsimpl. split4; auto.
      + lia.
      + apply nth_error_Some. congruence.
    - intros _. exact Hb3. }
  set (w4 := setWordVisible true (displayCurrentWord (updateWordCounter w3))).
  assert (E4 : app w4 = app w3 /\ pending w4 = pending w3
               /\ nextTimerId w4 = nextTimerId w3).
  { destruct (displayCurrentWord_frame (updateWordCounter w3))
      as (E1 & E2 & E3).
    unfold w4. wsimpl. auto. }
  destruct E4 as (E1 & E2 & E3).
  pose proof (play_samePosition w4) as S4.
  split.
  - apply play_Inv.
    + revert HI3. apply Inv_ext; assumption.
    + rewrite E1. reflexivity.
    + rewrite E1. exact Hb3.
  - intros _. apply (inCurrentParagraph_same _ _ S4). rewrite E1.
    exists p0. unfold w3, w0. wsimpl. split; [exact E0|].
    rewrite (paragraph_first _ Hwf _ E0). lia.
Qed.

Lemma reset_Inv (w : World) :
  Inv w -> Inv (reset w) /\ hasStarted (app (reset w)) = false.
Proof.
  intros (HT & HP & HM & HB).
  split; [|reflexivity].
  unfold Inv, timersOK, reset. wsimpl.
  rewrite (pause_pending w HT), pause_isPlaying.
  split4; auto; discriminate.
Qed.

Lemma onTextChange_Inv (w : World) :
  Inv w -> Inv (onTextChange w)
           /\ (Tracked w -> Tracked (onTextChange w)).
Proof.
  intros HI. unfold onTextChange.
  destruct (hasStarted (app w)) eqn:Hs; cbv zeta.
  - destruct (reset_Inv w HI) as [HR Hs'].
    destruct (nonEmpty (trim (textInput (dom (reset w))))); (split;
      [apply Inv_updateStatus; exact HR
      | intros _; apply Tracked_updateStatus, Tracked_not_started; exact Hs']).
  - destruct (nonEmpty (trim (textInput (dom w)))); (split;
      [apply Inv_updateStatus; exact HI
      | intros _; apply Tracked_updateStatus, Tracked_not_started; exact Hs]).
Qed.

Lemma onWpmChange_Inv (v : positive) (w : World) :
  Inv w -> Inv (onWpmChange v w)
           /\ samePosition (app w) (app (onWpmChange v w)).
Proof.
  intros HI. pose proof HI as (HT & HP & HM & HB).
  unfold onWpmChange.
  set (w1 := updApp (set_wpm v) w).
  assert (HI1 : Inv w1).
  { unfold Inv. split4; auto. }
  change (isPlaying (app w1)) with (isPlaying (app w)).
  destruct (isPlaying (app w)) eqn:Hplay.
  - pose proof (pause_samePosition w1) as S1.
    pose proof (play_samePosition (pause w1)) as S2.
    split.
    + apply play_Inv.
      * apply Inv_of_pause. exact HI1.
      * destruct S1 as (_ & _ & _ & _ & E). rewrite E. apply HP. reflexivity.
      * apply (beforeEnd_same _ _ S1). apply HB. reflexivity.
    + apply (samePosition_trans _ _ _ S1 S2).
  - split; [exact HI1 | repeat split].
Qed.

Lemma handleReaderClick_Inv (w : World) :
  Inv w ->
  exists w', handleReaderClick w = Some w' /\ Inv w'
             /\ (Tracked w -> Tracked w').
Proof.
  intros HI.
  unfold handleReaderClick.
  destruct (hasStarted (app w)) eqn:Hs; cbn [negb].
  2:{ destruct (startReading_Inv w HI Hs) as [H1 H2]. eauto. }
  pose proof HI as (HT & HP & HM & HB).
  destruct (isPaused (app w)).
  2:{ eexists. split; [reflexivity|].
      split; [apply Inv_of_pause; exact HI|].
      apply Tracked_same, pause_samePosition. }
  destruct (modelOK_nth _ (HM Hs)) as [p Hp]. rewrite Hp.
  fold (paragraphEnd p).
  destruct (Nat.leb_spec (paragraphEnd p) (currentWordIndex (app w)))
    as [Hge|Hlt].
  - destruct (continueAfterParagraph_Inv w p HI Hs Hp Hge) as [H1 H2]. eauto.
  - eexists. split; [reflexivity|].
    split; [|apply Tracked_same, play_samePosition].
    apply play_Inv; auto.
    intros q Hq. rewrite Hq in Hp. injection Hp as ->. exact Hlt.
Qed.

Lemma arrowLeft_Inv (w : World) :
  Inv w -> exists w', onGlobalKeydown ArrowLeft w = Some w' /\ Inv w'.
Proof.
  intros HI. cbn [onGlobalKeydown].
  destruct (hasStarted (app w)) eqn:Hs; [|eauto].
  pose proof (Inv_of_pause w HI) as HIp.
  destruct (0 <? currentWordIndex (app (pause w))); [|eauto].
  eexists. split; [reflexivity|].
  set (w1 := updApp _ (pause w)).
  apply Inv_display.
  apply (move_Inv (pause w) w1 (currentWordIndex (app (pause w)) - 1));
    auto using pause_isPlaying.
  intros Hs'. destruct HIp as (_ & _ & HM & _).
  destruct (HM Hs') as (_ & _ & Hle & _). lia.
Qed.

Lemma arrowRight_Inv (w : World) :
  Inv w -> exists w', onGlobalKeydown ArrowRight w = Some w' /\ Inv w'.
Proof.
  intros HI. cbn [onGlobalKeydown].
  destruct (hasStarted (app w)) eqn:Hs; [|eauto].
  pose proof (Inv_of_pause w HI) as HIp.
  destruct (Nat.ltb_spec (currentWordIndex (app (pause w)))
                         (length (appWords (app (pause w))) - 1));
    [|eauto].
  eexists. split; [reflexivity|].
  set (w1 := updApp _ (pause w)).
  apply Inv_display.
  apply (move_Inv (pause w) w1 (currentWordIndex (app (pause w)) + 1));
    auto using pause_isPlaying.
  intros _. lia.
Qed.

Lemma find_single (t : Timer) (id : positive) :
  find (fun t0 => Pos.eqb (timerId t0) id) [t]
  = if Pos.eqb (timerId t) id then Some t else None.
Proof. reflexivity. Qed.

(** The outer closure of the sentence pause: the display is blanked and
    the inner timer is armed for [sentencePause] milliseconds. *)
Lemma sentenceClear_playing (w : World) :
  isPlaying (app w) = true ->
  runCallback CbSentenceClear w
  = Some {| app := set_sentencePauseTimeoutId (Some (nextTimerId w)) (app w);
            dom := dom (clearWordDisplay w);
            pending := pending w
                       ++ [{| timerId := nextTimerId w;
                              timerDelay := inject_Z (sentencePause (app w));
                              timerCallback := CbSentenceAdvance |}];
            nextTimerId := Pos.succ (nextTimerId w) |}.
Proof. intros H. unfold runCallback. rewrite H. reflexivity. Qed.

Lemma advance_playing (cb : Callback) (w : World) :
  cb <> CbSentenceClear -> isPlaying (app w) = true ->
  runCallback cb w = advanceWord w.
Proof.
  intros Hcb H. unfold runCallback. rewrite H.
  destruct cb; [congruence | reflexivity | reflexivity].
Qed.

(** A timer that fires: the armed one is disarmed and its closure runs. *)
Lemma fireTimer_Inv (id : positive) (w : World) :
  Inv w ->
  exists w', fireTimer id w = Some w' /\ Inv w'
             /\ (Tracked w -> Tracked w').
Proof.
  intros HI. pose proof HI as (HT & HP & HM & HB).
  unfold fireTimer.
  pose proof HT as HT'. unfold timersOK in HT'.
  destruct (pending w) as [|t [|t' l]] eqn:Hpd; [| |contradiction].
  { cbn [find]. eauto. }
  destruct HT' as (Hplay & Hlt & Hids).
  rewrite find_single.
  destruct (Pos.eqb_spec (timerId t) id) as [Hid|Hid]; [|eauto].
  set (w0 := clearTimeout id w).
  assert (Hpd0 : pending w0 = []).
  { unfold w0. wsimpl. rewrite Hpd. cbn [filter].
    rewrite Hid, Pos.eqb_refl. reflexivity. }
  assert (HI0 : Inv w0).
  { unfold Inv, timersOK. rewrite Hpd0. split4; auto. }
  assert (Hplay0 : isPlaying (app w0) = true) by exact Hplay.
  destruct (timerCallback t) eqn:Hcb.
  - (* blank the display and arm the sentence pause *)
    rewrite (sentenceClear_playing w0 Hplay0), Hpd0.
    eexists. split; [reflexivity|]. split.
    + unfold Inv, timersOK.
      cbn [app pending nextTimerId List.app timerId isPlaying hasStarted
           set_sentencePauseTimeoutId intervalId sentencePauseTimeoutId].
      split4; auto.
      split; [exact Hplay|].
      split; [apply Pos.lt_succ_diag_r | right; reflexivity].
    + apply Tracked_same. repeat split.
  - rewrite advance_playing by (auto; discriminate).
    destruct (advanceWord_Inv w0 HI0 Hpd0 Hplay0) as (w' & H1 & H2 & _ & H4).
    exists w'. split; [exact H1|]. split; [exact H2|].
    intros T. apply H4. revert T. apply Tracked_same. repeat split.
  - rewrite advance_playing by (auto; discriminate).
    destruct (advanceWord_Inv w0 HI0 Hpd0 Hplay0) as (w' & H1 & H2 & _ & H4).
    exists w'. split; [exact H1|]. split; [exact H2|].
    intros T. apply H4. revert T. apply Tracked_same. repeat split.
Qed.

(** Every event keeps the invariant and raises no TypeError; an event
    other than a manual step keeps the position in the current
    paragraph. *)
Lemma handle_Inv (e : Event) (w : World) :
  Inv w ->
  exists w', handle e w = Some w' /\ Inv w'
             /\ (isStepEvent e = false -> Tracked w -> Tracked w').
Proof.
  intros HI. destruct e as [| | |k|t|v|v|id]; cbn [handle isStepEvent].
  - destruct (handleReaderClick_Inv w HI) as (w' & H1 & H2 & H3). eauto.
  - eexists. split; [reflexivity|].
    split; [apply navigatePrev_Inv; exact HI | discriminate].
  - eexists. split; [reflexivity|].
    split; [apply navigateNext_Inv; exact HI | discriminate].
  - destruct k.
    + destruct (handleReaderClick_Inv w HI) as (w' & H1 & H2 & H3). eauto.
    + destruct (arrowLeft_Inv w HI) as (w' & H1 & H2).
      exists w'. split; [exact H1|]. split; [exact H2 | discriminate].
    + destruct (arrowRight_Inv w HI) as (w' & H1 & H2).
      exists w'. split; [exact H1|]. split; [exact H2 | discriminate].
    + cbn [onGlobalKeydown].
      destruct (hasStarted (app w)) eqn:Hs; [|eauto].
      destruct (restartCurrentParagraph_Inv w HI Hs) as (w' & H1 & H2 & H3).
      eauto.
    + cbn [onGlobalKeydown]. eauto.
  - eexists. split; [reflexivity|].
    assert (HI1 : Inv (setTextInput t w))
      by (revert HI; apply Inv_ext; reflexivity).
    assert (HT1 : Tracked w -> Tracked (setTextInput t w))
      by (apply Tracked_same; repeat split).
    destruct (onTextChange_Inv (setTextInput t w) HI1) as [H1 H2].
    split; [exact H1|]. intros _ T. apply H2, HT1, T.
  - eexists. split; [reflexivity|].
    destruct (onWpmChange_Inv v w HI) as [H1 H2].
    split; [exact H1|]. intros _. apply Tracked_same. exact H2.
  - eexists. split; [reflexivity|].
    split; [|intros _; apply Tracked_same; repeat split].
    destruct HI as (HT & HP & HM & HB).
    unfold Inv. split4; auto.
  - destruct (fireTimer_Inv id w HI) as (w' & H1 & H2 & H3). eauto.
Qed.

Lemma initial_Inv (wpmValue : positive) (pauseValue : Z) (t : jsstring) :
  Inv (initial wpmValue pauseValue t) /\ Tracked (initial wpmValue pauseValue t).
Proof.
  split.
  - unfold Inv, timersOK. cbn. split4; auto; discriminate.
  - apply Tracked_not_started. reflexivity.
Qed.

Lemma Reachable_Inv (allowed : Event -> bool) (w : World) :
  ReachableBy allowed w -> Inv w.
Proof.
  induction 1 as [wv pv t | w e w' _ IH _ Hh].
  - apply initial_Inv.
  - destruct (handle_Inv e w IH) as (w2 & H1 & H2 & _).
    rewrite Hh in H1. injection H1 as ->. exact H2.
Qed.

Lemma Reachable_Tracked (allowed : Event -> bool) (w : World) :
  (forall e, allowed e = true -> isStepEvent e = false) ->
  ReachableBy allowed w -> Tracked w.
Proof.
  intros Hal.
  induction 1 as [wv pv t | w e w' Hr IH Ha Hh].
  - apply initial_Inv.
  - destruct (handle_Inv e w (Reachable_Inv _ _ Hr)) as (w2 & H1 & _ & H3).
    rewrite Hh in H1. injection H1 as ->.
    apply H3; [apply Hal; exact Ha | exact IH].
Qed.

Lemma run_Reachable (allowed : Event -> bool) (es : list Event) :
  forall w w', ReachableBy allowed w -> forallb allowed es = true ->
    run es w = Some w' -> ReachableBy allowed w'.
Proof.
  induction es as [|e es IH]; intros w w' Hr Hal Hrun; simpl in *.
  - injection Hrun as <-. exact Hr.
  - apply andb_true_iff in Hal. destruct Hal as [He Hes].
    destruct (handle e w) as [w1|] eqn:Hh; [|discriminate].
    apply (IH w1 w'); auto.
    apply (Reachable_step allowed w e w1); assumption.
Qed.

(* ================================================================== *)
(** * Properties of the playback engine                                *)
(* ================================================================== *)

(** C4 (as amended). After a successful start, every reachable state has
    its word index within [0, totalWords] and a valid paragraph index; as
    long as the events are not manual steps, the word index lies between
    the start of the current paragraph and its end, the end being reached
    only when the engine is paused at the paragraph break or at the end of
    the text, where the current paragraph is the last one.  The timer
    advance, [continueAfterParagraph] and [restartCurrentParagraph] are
    among these events. *)
Theorem position_invariant :
  forall (allowed : Event -> bool) (w : World),
    ReachableBy allowed w ->
    hasStarted (app w) = true ->
    (currentWordIndex (app w) <= length (appWords (app w))
     /\ currentParagraphIndex (app w) < length (paragraphs (app w)))
    /\ ((forall e, allowed e = true -> isStepEvent e = false) ->
        exists p,
          nth_error (paragraphs (app w)) (currentParagraphIndex (app w))
          = Some p
          /\ startWordIndex p <= currentWordIndex (app w) <= paragraphEnd p
          /\ (currentWordIndex (app w) = paragraphEnd p ->
              isPlaying (app w) = false)
          /\ (currentWordIndex (app w) = length (appWords (app w)) ->
              currentParagraphIndex (app w)
              = length (paragraphs (app w)) - 1)).
Proof.
  intros allowed w Hr Hs.
  pose proof (Reachable_Inv allowed w Hr) as (HT & HP & HM & HB).
  destruct (HM Hs) as (Hwf & Hws & Hle & Hcpi).
  split; [split; assumption|].
  intros Hal.
  destruct (Reachable_Tracked allowed w Hal Hr Hs) as (p & Hp & H1 & H2).
  exists p. split; [exact Hp|]. split; [split; assumption|]. split.
  - intros E. destruct (isPlaying (app w)) eqn:Hplay; [|reflexivity].
    pose proof (HB eq_refl p Hp). lia.
  - intros E.
    destruct (Nat.lt_ge_cases (currentParagraphIndex (app w))
                              (length (paragraphs (app w)) - 1)) as [H|H];
      [|lia].
    destruct (paragraph_next _ Hwf _ _ Hp H) as (q & _ & _ & Hlt).
    rewrite <- Hws in Hlt. lia.
Qed.

(** The amended invariant in the state reached at the paragraph break of
    the example text. *)
Lemma position_invariant_witness :
  exists w,
    run toParagraphBreak (initial 300 0 exampleText) = Some w
    /\ currentWordIndex (app w) = 2
    /\ currentParagraphIndex (app w) = 0
    /\ exists p,
         nth_error (paragraphs (app w)) (currentParagraphIndex (app w))
         = Some p
         /\ startWordIndex p <= currentWordIndex (app w) <= paragraphEnd p.
Proof.
  destruct (run toParagraphBreak (initial 300 0 exampleText)) as [w|] eqn:E;
    [|vm_compute in E; discriminate E].
  exists w. split; [reflexivity|].
  assert (Hr : ReachableBy notStep w).
  { apply (run_Reachable notStep toParagraphBreak
             (initial 300 0 exampleText) w);
      [apply Reachable_initial | reflexivity | exact E]. }
  assert (Hs : hasStarted (app w) = true).
  { vm_compute in E. injection E as <-. reflexivity. }
  destruct (position_invariant notStep w Hr Hs) as (_ & H).
  destruct H as (p & Hp & Hrange & _).
  { intros e He. unfold notStep in He.
    destruct (isStepEvent e); [discriminate He | reflexivity]. }
  split; [vm_compute in E; injection E as <-; reflexivity|].
  split; [vm_compute in E; injection E as <-; reflexivity|].
  exists p. split; assumption.
Defined.

(** C4, as the specification states it: at the paragraph break of the
    example text the engine is started and reachable, the word index is
    2, the first word of the second paragraph, and the current paragraph
    is still the first. *)
Lemma position_claim_fails_at_paragraph_break :
  exists w,
    Reachable w /\ hasStarted (app w) = true /\ ~ positionClaim (app w).
Proof.
  destruct (run toParagraphBreak (initial 300 0 exampleText)) as [w|] eqn:E;
    [|vm_compute in E; discriminate E].
  exists w. split; [|split].
  - apply (run_Reachable (fun _ => true) toParagraphBreak
             (initial 300 0 exampleText) w);
      [apply Reachable_initial | reflexivity | exact E].
  - vm_compute in E. injection E as <-. reflexivity.
  - vm_compute in E. injection E as <-.
    unfold positionClaim. cbn.
    intros (_ & p & Hp & H1 & H2).
    injection Hp as <-. cbn in H2. lia.
Qed.

(** No event raises a TypeError in a reachable state. *)
Lemma handle_total (allowed : Event -> bool) (w : World) (e : Event) :
  ReachableBy allowed w -> exists w', handle e w = Some w'.
Proof.
  intros Hr.
  destruct (handle_Inv e w (Reachable_Inv allowed w Hr)) as (w' & H & _).
  eauto.
Qed.

(** C6. A text without any word makes [parseText] return false, and
    [startReading] on it only writes the status that asks for text: the
    engine's fields (mode, [hasStarted], position, words and paragraphs),
    the timers and the word display are left as they were. *)
Theorem startReading_empty_input :
  forall w : World,
    flattenWords (parseParagraphs (textInput (dom w))) = [] ->
    fst (parseText (textInput (dom w)) w) = false
    /\ startReading w = updateStatus MsgPasteAndPress false w
    /\ app (startReading w) = app w
    /\ pending (startReading w) = pending w
    /\ nextTimerId (startReading w) = nextTimerId w
    /\ wordBefore (dom (startReading w)) = wordBefore (dom w)
    /\ wordFocus (dom (startReading w)) = wordFocus (dom w)
    /\ wordAfter (dom (startReading w)) = wordAfter (dom w)
    /\ statusText (dom (startReading w)) = MsgPasteAndPress.
Proof.
  intros w H.
  assert (Hink : hasInk (textInput (dom w)) = false).
  { rewrite <- parseSucceeds_hasInk. unfold parseSucceeds. rewrite H.
    reflexivity. }
  assert (Hstart : startReading w = updateStatus MsgPasteAndPress false w).
  { unfold startReading. rewrite nonEmpty_trim, Hink. reflexivity. }
  split.
  - unfold parseText. cbn [fst]. wsimpl. rewrite H. reflexivity.
  - rewrite Hstart. repeat split.
Qed.

(** The blank text of the specification, in a fresh page. *)
Lemma startReading_empty_input_witness :
  flattenWords (parseParagraphs (textInput (dom (initial 300 200 blankText))))
  = []
  /\ app (startReading (initial 300 200 blankText))
     = app (initial 300 200 blankText).
Proof.
  split; [reflexivity|].
  apply (startReading_empty_input (initial 300 200 blankText)).
  reflexivity.
Defined.

(** C7, at the first word of a text being played: a click on the previous
    arrow leaves the engine as it is, playing with its timer armed,
    whereas the left arrow key pauses it and disarms the timer; at the
    last word a click on the next arrow leaves it playing as well. *)
Theorem navigatePrev_at_first_word_keeps_playing :
  isPlaying (app justStarted) = true
  /\ hasStarted (app justStarted) = true
  /\ currentWordIndex (app justStarted) = 0
  /\ navigatePrev justStarted = justStarted
  /\ isPlaying (app (navigatePrev justStarted)) = true
  /\ length (pending (navigatePrev justStarted)) = 1
  /\ option_map (fun w => (isPlaying (app w), isPaused (app w), pending w))
       (onGlobalKeydown ArrowLeft justStarted)
     = Some (false, true, [])
  /\ option_map (fun w => (currentWordIndex (app w), isPlaying (app w),
                           isPlaying (app (navigateNext w)),
                           length (pending (navigateNext w))))
       atLastWord
     = Some (1, true, true, 1).
Proof.
  vm_compute. repeat split.
Qed.

Lemma fire_single (w : World) (t : Timer) :
  pending w = [t] ->
  fireTimer (timerId t) w
  = runCallback (timerCallback t) (clearTimeout (timerId t) w)
  /\ pending (clearTimeout (timerId t) w) = [].
Proof.
  intros H. unfold fireTimer. rewrite H, find_single, Pos.eqb_refl.
  split; [reflexivity|].
  cbn [clearTimeout pending]. rewrite H. cbn [filter].
  rewrite Pos.eqb_refl. reflexivity.
Qed.


(** The index-advance step increments the word index. *)
Lemma advanceWord_index (w w' : World) :
  advanceWord w = Some w' ->
  currentWordIndex (app w') = currentWordIndex (app w) + 1.
Proof.
  unfold advanceWord. wsimpl.
  set (w1 := updApp _ w).
  destruct (nth_error _ _) as [p|]; [|discriminate].
  destruct (_ <=? _).
  - pose proof (pause_samePosition w1) as (_ & _ & P3 & _).
    unfold showParagraphBreak, showEndOfText.
    destruct (_ <? _); intros H; injection H as <-;
      rewrite (proj1 (updateStatus_frame _ _ _)), P3; reflexivity.
  - intros H. injection H as <-.
    destruct (display_frame w1) as (E1 & _ & _).
    destruct (isPlaying (app (updateWordCounter (displayCurrentWord w1))))
      eqn:Hplay.
    + rewrite scheduleNextWord_playing by exact Hplay.
      cbn [app set_intervalId currentWordIndex]. rewrite E1. reflexivity.
    + rewrite scheduleNextWord_idle by exact Hplay.
      rewrite E1. reflexivity.
Qed.

(** The sentence-end test on the examples of the specification. *)
Lemma isSentenceEnd_examples :
  isSentenceEnd (Some (str "Done.")) = true
  /\ isSentenceEnd (Some quotedStop) = true
  /\ isSentenceEnd (Some (str "Done")) = false
  /\ isSentenceEnd None = false.
Proof. repeat split. Qed.

Lemma pending_mk (a : App) (d : Dom) (l : list Timer) (n : positive) :
  pending {| app := a; dom := d; pending := l; nextTimerId := n |} = l.
Proof. reflexivity. Qed.

(** C8. A change of [wpm] in a reachable playing state keeps the word
    index, the paragraph index and the words, cancels the armed timer and
    arms exactly one fresh timer of [60000 / v] ms for the same current
    word; the next index-advance step, run when that timer (and, for a
    sentence end, the sentence-pause timer after it) fires, moves to the
    next word: the word in flight is neither skipped nor repeated. *)
Theorem onWpmChange_rearms_current_word :
  forall (allowed : Event -> bool) (w : World) (v : positive),
    ReachableBy allowed w ->
    isPlaying (app w) = true ->
    let w' := onWpmChange v w in
    let id := nextTimerId w in
    currentWordIndex (app w') = currentWordIndex (app w)
    /\ currentParagraphIndex (app w') = currentParagraphIndex (app w)
    /\ appWords (app w') = appWords (app w)
    /\ isPlaying (app w') = true
    /\ wpm (app w') = v
    /\ pending w'
       = [{| timerId := id;
             timerDelay := (60000 # v)%Q;
             timerCallback := if needsSentencePause (app w)
                              then CbSentenceClear else CbAdvance |}]
    /\ (forall t, In t (pending w) -> ~ In t (pending w'))
    /\ exists w2,
         fireTimer id w' = Some w2
         /\ if needsSentencePause (app w)
            then currentWordIndex (app w2) = currentWordIndex (app w)
                 /\ exists w3,
                      fireTimer (Pos.succ id) w2 = Some w3
                      /\ currentWordIndex (app w3)
                         = currentWordIndex (app w) + 1
            else currentWordIndex (app w2) = currentWordIndex (app w) + 1.
Proof.
  intros allowed w v Hr Hplay w' id.
  pose proof (Reachable_Inv allowed w Hr) as HI.
  pose proof HI as (HT & HP & HM & HB).
  pose proof (HP Hplay) as Hs.
  destruct (HM Hs) as (Hwf & Hws & Hle & Hcpi).
  destruct (modelOK_nth _ (HM Hs)) as [p Hp].
  pose proof (HB Hplay p Hp) as Hlt.
  pose proof (paragraphEnd_le_total _ Hwf _ _ Hp) as Hend.
  rewrite <- Hws in Hend.
  destruct (onWpmChange_Inv v w HI) as [HI' _].
  fold w' in HI'.
  set (w1 := updApp (set_wpm v) w).
  assert (HT1 : timersOK w1) by exact HT.
  assert (Hw' : w' = play (pause w1)).
  { unfold w', onWpmChange. fold w1.
    change (isPlaying (app w1)) with (isPlaying (app w)).
    rewrite Hplay. reflexivity. }
  pose proof (pause_app w1) as Hpa.
  pose proof (pause_pending w1 HT1) as Hpp.
  pose proof (pause_nextTimerId w1) as Hpn.
  assert (Hstart : play (pause w1)
            = {| app := set_intervalId (Some id)
                          (set_isPaused false
                             (set_isPlaying true (app (pause w1))));
                 dom := dom (setReadingState true
                               (hideStatus
                                  (updApp (set_isPaused false)
                                     (updApp (set_isPlaying true)
                                        (pause w1)))));
                 pending := [scheduledTimer (app (pause w1)) id];
                 nextTimerId := Pos.succ id |}).
  { rewrite play_starts.
    - rewrite Hpp, Hpn. reflexivity.
    - apply pause_isPlaying.
    - rewrite Hpa. unfold w1. wsimpl. lia. }
  assert (Htimer : scheduledTimer (app (pause w1)) id
            = {| timerId := id;
                 timerDelay := (60000 # v)%Q;
                 timerCallback := if needsSentencePause (app w)
                                  then CbSentenceClear else CbAdvance |}).
  { rewrite Hpa. reflexivity. }
  rewrite Htimer in Hstart.
  assert (Hpd' : pending w' = [{| timerId := id;
                 timerDelay := (60000 # v)%Q;
                 timerCallback := if needsSentencePause (app w)
                                  then CbSentenceClear else CbAdvance |}]).
  { rewrite Hw', Hstart. reflexivity. }
  assert (Hcwi' : currentWordIndex (app w') = currentWordIndex (app w)).
  { rewrite Hw', Hstart. cbn [app]. rewrite Hpa. reflexivity. }
  split; [exact Hcwi'|].
  split; [rewrite Hw', Hstart; cbn [app]; rewrite Hpa; reflexivity|].
  split; [rewrite Hw', Hstart; cbn [app]; rewrite Hpa; reflexivity|].
  split; [rewrite Hw', Hstart; reflexivity|].
  split; [rewrite Hw', Hstart; cbn [app]; rewrite Hpa; reflexivity|].
  split; [exact Hpd'|].
  split.
  { intros t Hin. rewrite Hpd'. intros [E|[]].
    unfold timersOK in HT.
    destruct (pending w) as [|t0 [|t1 l]]; try contradiction.
    destruct Hin as [->|[]]. destruct HT as (_ & Hlt0 & _).
    rewrite <- E in Hlt0. cbn [timerId] in Hlt0.
    apply (Pos.lt_irrefl _ Hlt0). }
  (* the new timer fires *)
  destruct (fireTimer_Inv id w' HI') as (w2 & Hf2 & HI2 & _).
  exists w2. split; [exact Hf2|].
  destruct (fire_single w' _ Hpd') as [Hfs Hclr].
  cbn [timerId timerCallback] in Hfs, Hclr.
  assert (Hplay0 : isPlaying (app (clearTimeout id w')) = true).
  { rewrite Hw', Hstart. reflexivity. }
  rewrite Hfs in Hf2.
  destruct (needsSentencePause (app w)).
  - rewrite (sentenceClear_playing _ Hplay0) in Hf2.
    injection Hf2 as Hw2.
    assert (Hcwi2 : currentWordIndex (app w2) = currentWordIndex (app w)).
    { rewrite <- Hw2. cbn [app set_sentencePauseTimeoutId currentWordIndex].
      exact Hcwi'. }
    split; [exact Hcwi2|].
    assert (Hn0 : nextTimerId (clearTimeout id w') = Pos.succ id).
    { rewrite Hw', Hstart. reflexivity. }
    assert (Hp2 : pending w2
              = [sentencePauseTimer (app (clearTimeout id w')) (Pos.succ id)]).
    { rewrite <- Hw2, pending_mk.
      change (filter _ (pending w')) with (pending (clearTimeout id w')).
      change (nextTimerId w') with (nextTimerId (clearTimeout id w')).
      rewrite Hclr, Hn0. reflexivity. }
    destruct (fireTimer_Inv (Pos.succ id) w2 HI2) as (w3 & Hf3 & _).
    exists w3. split; [exact Hf3|].
    destruct (fire_single w2 _ Hp2) as [Hfs2 _].
    cbn [timerId timerCallback sentencePauseTimer] in Hfs2.
    rewrite Hfs2 in Hf3.
    rewrite advance_playing in Hf3.
    + rewrite (advanceWord_index _ _ Hf3). cbn [clearTimeout app].
      rewrite Hcwi2. reflexivity.
    + discriminate.
    + rewrite <- Hw2. exact Hplay0.
  - rewrite advance_playing in Hf2; [|discriminate|exact Hplay0].
    rewrite (advanceWord_index _ _ Hf2). cbn [clearTimeout app].
    rewrite Hcwi'. reflexivity.
Qed.

(** The theorem in the state just after reading starts, for a change to
    600 words per minute. *)
Lemma onWpmChange_rearms_current_word_witness :
  ReachableBy (fun _ => true) justStarted
  /\ isPlaying (app justStarted) = true
  /\ currentWordIndex (app (onWpmChange 600 justStarted)) = 0
  /\ pending (onWpmChange 600 justStarted)
     = [{| timerId := 2; timerDelay := (60000 # 600)%Q;
           timerCallback := CbAdvance |}].
Proof.
  assert (Hr : ReachableBy (fun _ => true) justStarted).
  { apply (Reachable_step _ (initial 300 200 twoWords) ClickReader);
      [apply Reachable_initial | reflexivity | vm_compute; reflexivity]. }
  assert (Hp : isPlaying (app justStarted) = true)
    by (vm_compute; reflexivity).
  pose proof (onWpmChange_rearms_current_word (fun _ => true) justStarted 600
                Hr Hp) as H.
  cbv zeta in H. destruct H as (H1 & _ & _ & _ & _ & H6 & _).
  split; [exact Hr|]. split; [exact Hp|]. split.
  - rewrite H1. vm_compute. reflexivity.
  - rewrite H6. vm_compute. reflexivity.
Defined.

(* ================================================================== *)
(** * Further properties of the segmentation                           *)
(* ================================================================== *)

Lemma inkOf_cons (c : ascii) (s : jsstring) :
  inkOf (c :: s) = if isSpace c then inkOf s else c :: inkOf s.
Proof. unfold inkOf. simpl. destruct (isSpace c); reflexivity. Qed.

Lemma inkOf_app (s t : jsstring) : inkOf (s ++ t) = inkOf s ++ inkOf t.
Proof. unfold inkOf. apply filter_app. Qed.

Lemma inkOf_rev (s : jsstring) : inkOf (rev s) = rev (inkOf s).
Proof.
  induction s as [|c s IH]; simpl; auto.
  rewrite inkOf_app, IH, !inkOf_cons.
  destruct (isSpace c); simpl; [apply app_nil_r | reflexivity].
Qed.

Lemma inkOf_dropWhile (s : jsstring) : inkOf (dropWhile isSpace s) = inkOf s.
Proof.
  induction s as [|c s IH]; simpl; auto.
  rewrite inkOf_cons. destruct (isSpace c) eqn:E; [exact IH|].
  rewrite inkOf_cons, E. reflexivity.
Qed.

Lemma inkOf_trim (s : jsstring) : inkOf (trim s) = inkOf s.
Proof.
  unfold trim, trimStart, trimEnd.
  rewrite inkOf_dropWhile, inkOf_rev, inkOf_dropWhile, inkOf_rev.
  apply rev_involutive.
Qed.

Lemma inkOf_nil_iff (s : jsstring) : inkOf s = [] <-> hasInk s = false.
Proof.
  induction s as [|c s IH]; simpl.
  - split; reflexivity.
  - rewrite inkOf_cons, hasInk_cons.
    destruct (isSpace c); simpl; [exact IH|]. split; discriminate.
Qed.

Lemma inkOf_replaceChar (a b : ascii) (s : jsstring) :
  isSpace a = true -> isSpace b = true ->
  inkOf (replaceChar a b s) = inkOf s.
Proof.
  intros Ha Hb. unfold replaceChar.
  induction s as [|c s IH]; simpl; auto.
  rewrite !inkOf_cons, IH.
  destruct (Ascii.eqb_spec c a) as [->|]; [rewrite Ha, Hb|]; reflexivity.
Qed.

Lemma inkOf_collapseSpaces (b : bool) (s : jsstring) :
  inkOf (collapseSpaces b s) = inkOf s.
Proof.
  revert b. induction s as [|c s IH]; intros b; simpl; auto.
  rewrite (inkOf_cons c).
  destruct (isSpace c) eqn:E.
  - destruct b; rewrite ?inkOf_cons, IH; reflexivity.
  - rewrite inkOf_cons, E, IH. reflexivity.
Qed.

Lemma inkOf_replaceCRLF (s : jsstring) : inkOf (replaceCRLF s) = inkOf s.
Proof.
  assert (H : forall s, inkOf (replaceCRLF s) = inkOf s
                        /\ forall c, inkOf (replaceCRLF (c :: s))
                                     = inkOf (c :: s)).
  { clear s. induction s as [|d s [IH1 IH2]].
    - split; [reflexivity|]. intros c. reflexivity.
    - split; [apply IH2|]. intros c.
      change (replaceCRLF (c :: d :: s))
        with (if Ascii.eqb c CR && Ascii.eqb d LF
              then LF :: replaceCRLF s else c :: replaceCRLF (d :: s)).
      destruct (Ascii.eqb_spec c CR) as [->|]; simpl andb.
      + destruct (Ascii.eqb_spec d LF) as [->|].
        * rewrite !inkOf_cons, IH1. reflexivity.
        * rewrite !(inkOf_cons CR), IH2. reflexivity.
      + rewrite !(inkOf_cons c), IH2. reflexivity. }
  apply H.
Qed.

(** Splitting on a white-space separator keeps the ink, in order. *)
Lemma inkOf_splitOn (sep : ascii) (s : jsstring) :
  isSpace sep = true ->
  concat (map inkOf (splitOn sep s)) = inkOf s.
Proof.
  intros Hsep. induction s as [|c s IH]; simpl; auto.
  rewrite inkOf_cons.
  destruct (Ascii.eqb_spec c sep) as [->|Hne].
  - simpl. rewrite IH, Hsep. reflexivity.
  - destruct (splitOn_cons sep s) as [p [ps E]]. rewrite E in *.
    simpl in *. rewrite inkOf_cons, <- IH.
    destruct (isSpace c); reflexivity.
Qed.

(** In a text whose only white space is the separator, the pieces hold no
    white space at all, and the non-empty ones are the words. *)
Lemma splitOn_SP_words (s : jsstring) :
  onlySP s = true ->
  concat (filter nonEmpty (splitOn SP s)) = inkOf s
  /\ forallb isWord (filter nonEmpty (splitOn SP s)) = true
  /\ forall p ps, splitOn SP s = p :: ps ->
       forallb (fun c => negb (isSpace c)) p = true.
Proof.
  induction s as [|c s IH]; intros H.
  - simpl. repeat split. intros p ps E. injection E as <- _. reflexivity.
  - rewrite onlySP_cons in H. apply andb_true_iff in H.
    destruct H as [Hc Hs]. destruct (IH Hs) as (I1 & I2 & I3).
    simpl. rewrite inkOf_cons.
    destruct (Ascii.eqb_spec c SP) as [->|Hne].
    + simpl. split; [exact I1|]. split; [exact I2|].
      intros p ps E. injection E as <- _. reflexivity.
    + rewrite orb_false_r in Hc. apply negb_true_iff in Hc as Hc'.
      rewrite Hc'.
      destruct (splitOn_cons SP s) as [p [ps E]]. rewrite E in *.
      specialize (I3 p ps eq_refl).
      simpl in *.
      destruct p as [|d p]; simpl in *.
      * rewrite I1. split; [reflexivity|].
        unfold isWord at 1. simpl. rewrite Hc, I2.
        split; [reflexivity|].
        intros p0 ps0 E0. injection E0 as <- _. simpl. rewrite Hc. reflexivity.
      * rewrite <- I1. split; [reflexivity|].
        unfold isWord at 1. simpl. rewrite Hc.
        unfold isWord in I2 at 1. simpl in I2. rewrite I3 in *.
        simpl in *. split; [exact I2|].
        intros p0 ps0 E0. injection E0 as <- _. simpl. rewrite Hc, I3.
        reflexivity.
Qed.

Lemma extractWords_ink (s : jsstring) :
  concat (extractWords s) = inkOf s
  /\ forallb isWord (extractWords s) = true.
Proof.
  unfold extractWords.
  destruct (splitOn_SP_words
              (trim (collapseSpaces false (replaceChar LF SP s))))
    as (H1 & H2 & _).
  { apply onlySP_trim, onlySP_collapseSpaces. }
  split; [|exact H2].
  rewrite H1, inkOf_trim, inkOf_collapseSpaces.
  apply inkOf_replaceChar; reflexivity.
Qed.

Lemma flattenWords_parseParagraphs (t : jsstring) :
  flattenWords (parseParagraphs t) = flat_map extractWords (splitParagraphs t).
Proof.
  unfold flattenWords.
  rewrite flat_map_words, words_parseParagraphs, <- flat_map_concat_map.
  reflexivity.
Qed.

(** X1. Segmentation loses nothing but white space: the words of a text,
    concatenated in order, are the text without its white-space
    characters; and no word is empty or holds white space. *)
Theorem parseText_keeps_ink :
  forall (t : jsstring) (w : World),
    concat (appWords (app (snd (parseText t w)))) = inkOf t
    /\ forallb isWord (appWords (app (snd (parseText t w)))) = true.
Proof.
  intros t w.
  change (appWords (app (snd (parseText t w))))
    with (flattenWords (parseParagraphs t)).
  rewrite flattenWords_parseParagraphs.
  unfold splitParagraphs.
  rewrite <- (inkOf_replaceCRLF t).
  rewrite <- (inkOf_replaceChar CR LF (replaceCRLF t)) by reflexivity.
  fold (normalizeNewlines t).
  rewrite <- (inkOf_splitOn LF (normalizeNewlines t)) by reflexivity.
  induction (splitOn LF (normalizeNewlines t)) as [|l ls [IH1 IH2]].
  - split; reflexivity.
  - simpl. destruct (nonEmpty (trim l)) eqn:E.
    + simpl. rewrite concat_app, forallb_app, IH1, IH2.
      destruct (extractWords_ink (trim l)) as [E1 E2].
      rewrite E1, E2, inkOf_trim. split; reflexivity.
    + rewrite IH1, IH2. split; [|reflexivity].
      rewrite nonEmpty_trim in E. apply inkOf_nil_iff in E.
      rewrite E. reflexivity.
Qed.

(** X2. [parseText] succeeds exactly when the trimmed text is not empty,
    which is the test [startReading] makes before calling it: the second
    failure exit of [startReading] is never taken. *)
Theorem parseText_succeeds_iff_trim_nonempty :
  forall (t : jsstring) (w : World),
    fst (parseText t w) = nonEmpty (trim t)
    /\ fst (parseText t w) = hasInk t.
Proof.
  intros t w.
  change (fst (parseText t w)) with (parseSucceeds t).
  rewrite nonEmpty_trim, parseSucceeds_hasInk. split; reflexivity.
Qed.

Lemma replaceCRLF_cons_other (c : ascii) (s : jsstring) :
  Ascii.eqb c CR = false -> replaceCRLF (c :: s) = c :: replaceCRLF s.
Proof.
  intros H. destruct s as [|d s]; [reflexivity|].
  change (replaceCRLF (c :: d :: s))
    with (if Ascii.eqb c CR && Ascii.eqb d LF
          then LF :: replaceCRLF s else c :: replaceCRLF (d :: s)).
  rewrite H. reflexivity.
Qed.

Lemma replaceCRLF_noLF (s : jsstring) :
  noLF s = true -> replaceCRLF s = s.
Proof.
  unfold noLF. induction s as [|c s IH]; [reflexivity|].
  intros H. simpl in H. apply andb_true_iff in H. destruct H as [Hc Hs].
  destruct s as [|d s]; [reflexivity|].
  change (replaceCRLF (c :: d :: s))
    with (if Ascii.eqb c CR && Ascii.eqb d LF
          then LF :: replaceCRLF s else c :: replaceCRLF (d :: s)).
  simpl in Hs. apply andb_true_iff in Hs as Hs'. destruct Hs' as [Hd _].
  apply negb_true_iff in Hd. rewrite Hd, andb_false_r, (IH Hs).
  reflexivity.
Qed.

Lemma replaceCRLF_pair (s : jsstring) :
  replaceCRLF (CR :: LF :: s) = LF :: replaceCRLF s.
Proof. reflexivity. Qed.

Lemma replaceCRLF_noCR (s : jsstring) :
  noCR s = true -> replaceCRLF s = s.
Proof.
  unfold noCR. induction s as [|c s IH]; [reflexivity|].
  intros H. cbn [forallb] in H. apply andb_true_iff in H.
  destruct H as [Hc Hs]. apply negb_true_iff in Hc.
  rewrite (replaceCRLF_cons_other c s Hc), (IH Hs). reflexivity.
Qed.

Lemma replaceCRLF_withCRLF (s : jsstring) :
  noCR s = true -> replaceCRLF (withCRLF s) = s.
Proof.
  unfold noCR, withCRLF. induction s as [|c s IH]; [reflexivity|].
  intros H. cbn [forallb] in H. apply andb_true_iff in H.
  destruct H as [Hc Hs]. apply negb_true_iff in Hc.
  cbn [flat_map].
  destruct (Ascii.eqb_spec c LF) as [->|Hne]; cbn [List.app].
  - rewrite replaceCRLF_pair, (IH Hs). reflexivity.
  - rewrite (replaceCRLF_cons_other c _ Hc), (IH Hs). reflexivity.
Qed.

Lemma replaceChar_noCR (s : jsstring) :
  noCR s = true -> replaceChar CR LF s = s.
Proof.
  unfold noCR, replaceChar. induction s as [|c s IH]; [reflexivity|].
  intros H. simpl in H. apply andb_true_iff in H. destruct H as [Hc Hs].
  apply negb_true_iff in Hc. simpl. rewrite Hc, (IH Hs). reflexivity.
Qed.

Lemma withCR_noLF (s : jsstring) : noCR s = true -> noLF (withCR s) = true.
Proof.
  unfold noCR, noLF, withCR, replaceChar.
  induction s as [|c s IH]; [reflexivity|].
  intros H. simpl in H. apply andb_true_iff in H. destruct H as [Hc Hs].
  simpl. rewrite (IH Hs), andb_true_r.
  destruct (Ascii.eqb_spec c LF) as [->|Hne]; [reflexivity|].
  apply negb_true_iff. apply Ascii.eqb_neq. exact Hne.
Qed.

Lemma replaceChar_withCR (s : jsstring) :
  noCR s = true -> replaceChar CR LF (withCR s) = s.
Proof.
  unfold noCR, withCR, replaceChar.
  induction s as [|c s IH]; [reflexivity|].
  intros H. simpl in H. apply andb_true_iff in H. destruct H as [Hc Hs].
  apply negb_true_iff in Hc. simpl. rewrite (IH Hs).
  destruct (Ascii.eqb_spec c LF) as [->|Hne]; [reflexivity|].
  rewrite Hc. reflexivity.
Qed.

(** X3. The three conventions for the end of a line give the same
    paragraphs: a text written with line feeds, the same text with
    carriage return and line feed, and with lone carriage returns. *)
Theorem parseText_line_endings :
  forall t : jsstring,
    noCR t = true ->
    parseParagraphs (withCRLF t) = parseParagraphs t
    /\ parseParagraphs (withCR t) = parseParagraphs t.
Proof.
  intros t H.
  assert (H0 : normalizeNewlines t = t).
  { unfold normalizeNewlines.
    rewrite (replaceCRLF_noCR t H). apply replaceChar_noCR. exact H. }
  assert (H1 : normalizeNewlines (withCRLF t) = t).
  { unfold normalizeNewlines.
    rewrite (replaceCRLF_withCRLF t H). apply replaceChar_noCR. exact H. }
  assert (H2 : normalizeNewlines (withCR t) = t).
  { unfold normalizeNewlines.
    rewrite (replaceCRLF_noLF _ (withCR_noLF t H)).
    apply replaceChar_withCR. exact H. }
  unfold parseParagraphs, splitParagraphs.
  rewrite H0, H1, H2. split; reflexivity.
Qed.

(** The theorem on a text of two lines. *)
Lemma parseText_line_endings_witness :
  noCR exampleText = true
  /\ parseParagraphs (withCRLF exampleText) = parseParagraphs exampleText
  /\ parseParagraphs (withCR exampleText) = parseParagraphs exampleText.
Proof.
  split; [reflexivity|].
  apply (parseText_line_endings exampleText). reflexivity.
Defined.

Lemma dropWhile_idem (p : ascii -> bool) (s : jsstring) :
  dropWhile p (dropWhile p s) = dropWhile p s.
Proof.
  induction s as [|c s IH]; simpl; auto.
  destruct (p c) eqn:E; auto. simpl. rewrite E. reflexivity.
Qed.

Lemma dropWhile_headClean (s : jsstring) :
  headClean s = true -> dropWhile isSpace s = s.
Proof.
  destruct s as [|c s]; simpl; auto.
  intros H. apply negb_true_iff in H. rewrite H. reflexivity.
Qed.

Lemma headClean_dropWhile (s : jsstring) :
  headClean (dropWhile isSpace s) = true.
Proof.
  induction s as [|c s IH]; simpl; auto.
  destruct (isSpace c) eqn:E; auto. simpl. rewrite E. reflexivity.
Qed.

Lemma headClean_app (s t : jsstring) :
  s <> [] -> headClean (s ++ t) = headClean s.
Proof. destruct s; [congruence | reflexivity]. Qed.

(** Dropping leading white space leaves the end of the string alone. *)
Lemma headClean_rev_dropWhile (s : jsstring) :
  headClean (rev s) = true -> headClean (rev (dropWhile isSpace s)) = true.
Proof.
  induction s as [|c s IH]; simpl; auto.
  intros H. destruct (isSpace c) eqn:E; [|exact H].
  apply IH. destruct (rev s) as [|d r] eqn:Er; [reflexivity|].
  rewrite headClean_app in H by discriminate. exact H.
Qed.

Lemma trim_idem (s : jsstring) : trim (trim s) = trim s.
Proof.
  unfold trim, trimStart.
  set (y := trimEnd s).
  assert (Hy : headClean (rev y) = true).
  { unfold y, trimEnd. rewrite rev_involutive. apply headClean_dropWhile. }
  assert (Hz : trimEnd (dropWhile isSpace y) = dropWhile isSpace y).
  { unfold trimEnd.
    rewrite (dropWhile_headClean _ (headClean_rev_dropWhile y Hy)).
    apply rev_involutive. }
  rewrite Hz. apply dropWhile_idem.
Qed.

Lemma noLF_dropWhile (p : ascii -> bool) (s : jsstring) :
  noLF s = true -> noLF (dropWhile p s) = true.
Proof. unfold noLF. apply forallb_dropWhile. Qed.

Lemma noLF_trim (s : jsstring) : noLF s = true -> noLF (trim s) = true.
Proof.
  intros H. unfold trim, trimStart, trimEnd.
  apply noLF_dropWhile. unfold noLF. rewrite forallb_rev_eq.
  apply noLF_dropWhile. unfold noLF. rewrite forallb_rev_eq. exact H.
Qed.

Lemma splitOn_LF_noLF (s : jsstring) :
  Forall (fun l => noLF l = true) (splitOn LF s).
Proof.
  induction s as [|c s IH]; simpl.
  - constructor; [reflexivity | constructor].
  - destruct (Ascii.eqb_spec c LF) as [->|Hne].
    + constructor; [reflexivity | exact IH].
    + destruct (splitOn LF s) as [|p ps]; inversion IH; subst.
      * constructor; [|constructor]. unfold noLF. simpl.
        apply Ascii.eqb_neq in Hne. rewrite Hne. reflexivity.
      * constructor; [|assumption]. unfold noLF in *. simpl.
        apply Ascii.eqb_neq in Hne. rewrite Hne. assumption.
Qed.

Lemma splitParagraphs_lines (t : jsstring) :
  Forall (fun x => trim x = x /\ nonEmpty x = true /\ noLF x = true
                   /\ hasInk x = true)
         (splitParagraphs t).
Proof.
  unfold splitParagraphs.
  pose proof (splitOn_LF_noLF (normalizeNewlines t)) as H.
  induction H as [|l ls Hl Hls IH]; simpl; [constructor|].
  destruct (nonEmpty (trim l)) eqn:E; [|exact IH].
  constructor; [|exact IH].
  split; [apply trim_idem|]. split; [exact E|].
  split; [apply noLF_trim; exact Hl|].
  rewrite hasInk_trim, <- nonEmpty_trim. exact E.
Qed.

(** X4. Every paragraph that [parseText] stores is a trimmed, non-empty
    single line of the text, its words are the words extracted from that
    line, and it has at least one word. *)
Theorem parseText_paragraphs_are_lines :
  forall (t : jsstring) (w : World),
    Forall paragraphOK (paragraphs (app (snd (parseText t w)))).
Proof.
  intros t w.
  change (paragraphs (app (snd (parseText t w)))) with (parseParagraphs t).
  pose proof (text_parseParagraphs t) as Ht.
  pose proof (words_parseParagraphs t) as Hw.
  pose proof (splitParagraphs_lines t) as Hl.
  rewrite <- Ht in Hl, Hw. clear Ht.
  induction (parseParagraphs t) as [|p ps IH]; [constructor|].
  simpl in Hl, Hw. inversion Hl as [|? ? (H1 & H2 & H3 & H4) Hl']; subst.
  injection Hw as Hw1 Hw2.
  constructor; [|apply IH; assumption].
  unfold paragraphOK. repeat split; try assumption.
  rewrite Hw1. apply Nat.ltb_lt. rewrite extractWords_nonEmpty. exact H4.
Qed.

(* ================================================================== *)
(** * Further properties of the ORP calculator                         *)
(* ================================================================== *)

Lemma offsetTable_lt (n : nat) : 0 < n -> offsetTable n < n.
Proof.
  intros H. unfold offsetTable.
  repeat match goal with
         | |- context [?a <=? ?b] => destruct (Nat.leb_spec a b)
         end; lia.
Qed.

Lemma leadingRun_prefix (P rest : jsstring) :
  forallb isPunct P = true -> startsWithLetter rest = true ->
  leadingRun (P ++ rest) = length P.
Proof.
  unfold leadingRun, isPunct, startsWithLetter.
  induction P as [|c P IH]; simpl; intros HP Hr.
  - destruct rest as [|a r]; [reflexivity|]. simpl.
    rewrite Hr. reflexivity.
  - apply andb_true_iff in HP. destruct HP as [Hc HP].
    rewrite Hc. simpl. rewrite (IH HP Hr). reflexivity.
Qed.

Lemma cleanWord_shape (P A T : jsstring) :
  forallb isPunct P = true -> forallb isAlnum A = true ->
  forallb isPunct T = true ->
  cleanWord (P ++ A ++ T) = A.
Proof.
  unfold cleanWord, isPunct. intros HP HA HT.
  rewrite !filter_app.
  assert (F : forall l, forallb (fun c => negb (isAlnum c)) l = true ->
                        filter isAlnum l = []).
  { induction l as [|c l IH]; simpl; auto.
    intros H. apply andb_true_iff in H. destruct H as [Hc Hl].
    apply negb_true_iff in Hc. rewrite Hc. auto. }
  rewrite (F P HP), (F T HT), app_nil_r. simpl.
  apply forallb_filter_id. exact HA.
Qed.

Lemma splitWordAtORP_parts (W : jsstring) :
  before (splitWordAtORP W) = firstn (calculateORP W) W
  /\ focus (splitWordAtORP W) = match nth_error W (calculateORP W) with
                                | Some c => [c]
                                | None => []
                                end.
Proof.
  unfold splitWordAtORP. cbn [before focus].
  rewrite substring_prefix. split; reflexivity.
Qed.

(** X5. On a word made of punctuation, then letters and digits, then
    punctuation, the focus is one of the letters or digits: the ORP index
    is the length of the leading punctuation plus an offset below the
    number of letters. *)
Theorem calculateORP_lands_on_letter :
  forall P A T : jsstring,
    forallb isPunct P = true ->
    forallb isAlnum A = true ->
    A <> [] ->
    forallb isPunct T = true ->
    let W := P ++ A ++ T in
    calculateORP W = length P + offsetTable (length A)
    /\ offsetTable (length A) < length A
    /\ exists c,
         nth_error A (offsetTable (length A)) = Some c
         /\ isAlnum c = true
         /\ focus (splitWordAtORP W) = [c]
         /\ before (splitWordAtORP W) = P ++ firstn (offsetTable (length A)) A.
Proof.
  intros P A T HP HA Hne HT W.
  assert (Hlen : 0 < length A) by (destruct A; [congruence | simpl; lia]).
  pose proof (offsetTable_lt (length A) Hlen) as Hlt.
  assert (Horp : calculateORP W = length P + offsetTable (length A)).
  { unfold calculateORP. rewrite leadingPunctuation_run, orpIndex_table.
    unfold W. rewrite (cleanWord_shape P A T HP HA HT).
    rewrite leadingRun_prefix; auto.
    destruct A as [|a A']; [congruence|]. simpl in HA |- *.
    apply andb_true_iff in HA. destruct HA as [Ha _]. exact Ha. }
  split; [exact Horp|]. split; [exact Hlt|].
  destruct (nth_error A (offsetTable (length A))) as [c|] eqn:E.
  2:{ apply nth_error_None in E. lia. }
  exists c. split; [reflexivity|].
  assert (Hnth : nth_error W (calculateORP W) = Some c).
  { rewrite Horp. unfold W.
    rewrite nth_error_app2 by lia.
    replace (length P + offsetTable (length A) - length P)
      with (offsetTable (length A)) by lia.
    rewrite nth_error_app1 by exact Hlt. exact E. }
  split.
  { rewrite forallb_forall in HA. apply HA.
    eapply nth_error_In; eauto. }
  destruct (splitWordAtORP_parts W) as (Hb & Hf).
  split.
  - rewrite Hf, Hnth. reflexivity.
  - rewrite Hb, Horp. unfold W.
    rewrite firstn_app.
    rewrite firstn_all2 by lia.
    replace (length P + offsetTable (length A) - length P)
      with (offsetTable (length A)) by lia.
    rewrite firstn_app.
    replace (offsetTable (length A) - length A) with 0 by lia.
    simpl. rewrite app_nil_r. reflexivity.
Qed.

(** The theorem on [Hello] between a quotation mark and a comma. *)
Lemma calculateORP_lands_on_letter_witness :
  forallb isPunct [ascii_of_nat 34] = true
  /\ forallb isAlnum (str "Hello") = true
  /\ forallb isPunct (str ",") = true
  /\ calculateORP ([ascii_of_nat 34] ++ str "Hello" ++ str ",") = 1 + 1.
Proof.
  split; [reflexivity|]. split; [reflexivity|]. split; [reflexivity|].
  apply (calculateORP_lands_on_letter [ascii_of_nat 34] (str "Hello")
           (str ","));
    [reflexivity | reflexivity | discriminate | reflexivity].
Defined.

(* ================================================================== *)
(** * Further properties of [intelligentSplit]                         *)
(* ================================================================== *)

Lemma addSentence_ink (st : SplitState) (x : jsstring) :
  concat (map inkOf (outParagraphs (addSentence st x)))
    ++ inkOf (currentParagraph (addSentence st x))
  = (concat (map inkOf (outParagraphs st)) ++ inkOf (currentParagraph st))
    ++ inkOf x.
Proof.
  unfold addSentence. destruct (_ && _); cbn [outParagraphs currentParagraph].
  - rewrite map_app, concat_app. cbn [map concat].
    rewrite app_nil_r, inkOf_trim. reflexivity.
  - rewrite inkOf_app, app_assoc. reflexivity.
Qed.

Lemma fold_addSentence_ink (l : list jsstring) :
  forall st,
    concat (map inkOf (outParagraphs (fold_left addSentence l st)))
      ++ inkOf (currentParagraph (fold_left addSentence l st))
    = (concat (map inkOf (outParagraphs st)) ++ inkOf (currentParagraph st))
      ++ inkOf (concat l).
Proof.
  induction l as [|x l IH]; intros st; cbn [fold_left concat].
  - unfold inkOf at 4. cbn [filter]. rewrite app_nil_r. reflexivity.
  - rewrite IH, addSentence_ink, inkOf_app, app_assoc. reflexivity.
Qed.

Lemma trim_trimmedInk (s : jsstring) :
  hasInk s = true -> trimmedInk (trim s).
Proof.
  intros H. split; [apply trim_idem | rewrite hasInk_trim; exact H].
Qed.

Lemma addSentence_trimmed (st : SplitState) (x : jsstring) :
  hasInk x = true ->
  Forall trimmedInk (outParagraphs st) ->
  (currentParagraph st = [] \/ hasInk (currentParagraph st) = true) ->
  Forall trimmedInk (outParagraphs (addSentence st x))
  /\ hasInk (currentParagraph (addSentence st x)) = true.
Proof.
  intros Hx Hout Hcp. unfold addSentence.
  destruct (_ && _) eqn:E; cbn [outParagraphs currentParagraph].
  - split; [|exact Hx].
    apply Forall_app. split; [exact Hout|].
    constructor; [|constructor]. apply trim_trimmedInk.
    destruct Hcp as [Hcp|Hcp]; [|exact Hcp].
    rewrite Hcp in E. rewrite andb_false_r in E. discriminate.
  - split; [exact Hout|]. rewrite hasInk_app, Hx. apply orb_true_r.
Qed.

Lemma fold_addSentence_trimmed (l : list jsstring) :
  Forall (fun m => hasInk m = true) l ->
  forall st,
    Forall trimmedInk (outParagraphs st) ->
    (currentParagraph st = [] \/ hasInk (currentParagraph st) = true) ->
    Forall trimmedInk (outParagraphs (fold_left addSentence l st))
    /\ (currentParagraph (fold_left addSentence l st) = []
        \/ hasInk (currentParagraph (fold_left addSentence l st)) = true).
Proof.
  induction 1 as [|x l Hx Hl IH]; intros st Hout Hcp; cbn [fold_left].
  - split; assumption.
  - destruct (addSentence_trimmed st x Hx Hout Hcp) as [H1 H2].
    apply IH; [exact H1 | right; exact H2].
Qed.

Lemma sentencesOf_hasInk (t : jsstring) :
  hasInk t = true -> Forall (fun m => hasInk m = true) (sentencesOf t).
Proof.
  intros H. unfold sentencesOf.
  pose proof (matchSentences_hasInk (length t) t) as Hm.
  destruct (matchSentences (length t) t); [|exact Hm].
  constructor; [exact H | constructor].
Qed.

Lemma sentencesOf_ink (t : jsstring) :
  hasInk (concat (sentencesOf t)) = false -> sentencesOf t = [t].
Proof.
  unfold sentencesOf.
  pose proof (matchSentences_hasInk (length t) t) as Hm.
  destruct (matchSentences (length t) t) as [|m l]; [reflexivity|].
  inversion Hm as [|? ? Hink _]; subst.
  cbn [concat]. rewrite hasInk_app, Hink. discriminate.
Qed.

Lemma noInk_noTerminator (t : jsstring) :
  hasInk t = false -> noTerminator t = true.
Proof.
  unfold noTerminator. induction t as [|c t IH]; [reflexivity|].
  rewrite hasInk_cons. intros H. apply orb_false_iff in H.
  destruct H as [Hc Ht]. apply negb_false_iff in Hc.
  cbn [forallb]. rewrite (IH Ht), andb_true_r.
  destruct (isTerminator c) eqn:E; [|reflexivity].
  rewrite (terminator_not_space c E) in Hc. discriminate.
Qed.

Lemma sentencesOf_nonempty (t : jsstring) : sentencesOf t <> [].
Proof.
  unfold sentencesOf. destruct (matchSentences (length t) t); discriminate.
Qed.

(** X6. [intelligentSplit] always returns at least one paragraph; the
    characters other than white space of the paragraphs, in order, are
    those of the sentences it works on; and when the text holds such a
    character, every paragraph is free of surrounding white space and
    holds one too, whereas a text of white space comes back as it is. *)
Theorem intelligentSplit_paragraphs :
  forall t : jsstring,
    intelligentSplit t <> []
    /\ concat (map inkOf (intelligentSplit t)) = inkOf (concat (sentencesOf t))
    /\ (if hasInk t then Forall trimmedInk (intelligentSplit t)
        else intelligentSplit t = [t]).
Proof.
  intros t.
  destruct (hasInk t) eqn:Ht.
  - unfold intelligentSplit. fold splitStart.
    set (st := fold_left addSentence (sentencesOf t) splitStart).
    assert (Hink : concat (map inkOf (outParagraphs st))
                     ++ inkOf (currentParagraph st)
                   = inkOf (concat (sentencesOf t))).
    { unfold st. rewrite fold_addSentence_ink. reflexivity. }
    destruct (fold_addSentence_trimmed (sentencesOf t)
                (sentencesOf_hasInk t Ht) splitStart) as [H1 _].
    { constructor. }
    { left. reflexivity. }
    fold st in H1.
    pose proof (fold_addSentence_hasInk (sentencesOf t)
                  (sentencesOf_hasInk t Ht) splitStart
                  (sentencesOf_nonempty t)) as Hcp.
    fold st in Hcp.
    rewrite nonEmpty_trim, Hcp.
    rewrite length_app. cbn [length]. rewrite Nat.add_1_r. cbn [Nat.ltb Nat.leb].
    split; [destruct (outParagraphs st); discriminate|].
    split.
    + rewrite map_app, concat_app. cbn [map concat].
      rewrite app_nil_r, inkOf_trim. exact Hink.
    + apply Forall_app. split; [exact H1|].
      constructor; [apply trim_trimmedInk; exact Hcp | constructor].
  - assert (E : intelligentSplit t = [t]).
    { unfold intelligentSplit.
      rewrite (sentencesOf_noTerminator t (noInk_noTerminator t Ht)).
      cbn [fold_left]. unfold addSentence.
      cbn [currentParagraph nonEmpty length Nat.ltb Nat.leb].
      rewrite andb_false_r. cbn [currentParagraph outParagraphs List.app].
      assert (Hnil : trim t = []).
      { pose proof (nonEmpty_trim t) as N. rewrite Ht in N.
        destruct (trim t); [reflexivity | discriminate N]. }
      rewrite Hnil. reflexivity. }
    rewrite E, (sentencesOf_noTerminator t (noInk_noTerminator t Ht)).
    split; [discriminate|]. split; [|reflexivity].
    cbn [map concat]. rewrite !app_nil_r. reflexivity.
Qed.

(* ================================================================== *)
(** * Modes and timers                                                 *)
(* ================================================================== *)

Lemma ModeOK_ext (w w' : World) :
  isPaused (app w') = isPaused (app w) ->
  hasStarted (app w') = hasStarted (app w) ->
  isPlaying (app w') = isPlaying (app w) ->
  pending w' = pending w ->
  ModeOK w -> ModeOK w'.
Proof. unfold ModeOK. intros -> -> -> ->. auto. Qed.

Lemma ModeOK_updateStatus (m : Message) (b : bool) (w : World) :
  ModeOK w -> ModeOK (updateStatus m b w).
Proof. apply ModeOK_ext; reflexivity. Qed.

Lemma ModeOK_display (w : World) :
  ModeOK w -> ModeOK (updateWordCounter (displayCurrentWord w)).
Proof.
  destruct (display_frame w) as (E1 & E2 & _).
  apply ModeOK_ext; rewrite ?E1, ?E2; reflexivity.
Qed.

Lemma pause_Mode (w : World) :
  timersOK w -> hasStarted (app w) = true -> ModeOK (pause w).
Proof.
  intros HT Hs. unfold ModeOK.
  rewrite (pause_pending w HT), pause_app.
  cbn [isPaused hasStarted isPlaying set_sentencePauseTimeoutId
       set_intervalId set_isPaused set_isPlaying].
  rewrite Hs. split; [reflexivity | discriminate].
Qed.

Lemma play_Mode (w : World) :
  hasStarted (app w) = true ->
  (isPlaying (app w) = false ->
   currentWordIndex (app w) < length (appWords (app w))) ->
  (isPlaying (app w) = true -> ModeOK w) ->
  ModeOK (play w).
Proof.
  intros Hs Hidle Hplay.
  destruct (isPlaying (app w)) eqn:E.
  - rewrite play_idle by (rewrite E; reflexivity). auto.
  - rewrite (play_starts w E (Hidle eq_refl)).
    unfold ModeOK.
    cbn [app pending isPaused hasStarted isPlaying set_intervalId
         set_isPaused set_isPlaying].
    rewrite Hs. split; [reflexivity|].
    intros _. destruct (pending w); discriminate.
Qed.

Lemma scheduleNextWord_Mode (w : World) :
  isPlaying (app w) = true -> hasStarted (app w) = true ->
  isPaused (app w) = false ->
  ModeOK (scheduleNextWord w).
Proof.
  intros Hp Hs Hpa. rewrite (scheduleNextWord_playing w Hp).
  unfold ModeOK.
  cbn [app pending isPaused hasStarted isPlaying set_intervalId].
  rewrite Hp, Hs, Hpa. split; [reflexivity|].
  intros _. destruct (pending w); discriminate.
Qed.

Lemma advanceWord_Mode (w w' : World) :
  advanceWord w = Some w' ->
  timersOK w -> hasStarted (app w) = true ->
  isPlaying (app w) = true -> isPaused (app w) = false ->
  ModeOK w'.
Proof.
  unfold advanceWord. wsimpl.
  set (w1 := updApp _ w).
  intros H HT Hs Hp Hpa.
  assert (HT1 : timersOK w1) by exact HT.
  destruct (nth_error _ _) as [p|]; [|discriminate].
  destruct (_ <=? _).
  - unfold showParagraphBreak, showEndOfText in H.
    destruct (_ <? _); injection H as <-;
      apply ModeOK_updateStatus, pause_Mode; assumption.
  - injection H as <-.
    destruct (display_frame w1) as (E1 & _ & _).
    apply scheduleNextWord_Mode; rewrite E1; assumption.
Qed.

Lemma Mode_playing_not_paused (w : World) :
  ModeOK w -> isPlaying (app w) = true -> isPaused (app w) = false.
Proof.
  intros [H _] Hp. rewrite H, Hp. apply andb_false_r.
Qed.

Lemma fireTimer_Mode (id : positive) (w w' : World) :
  Inv w -> ModeOK w -> fireTimer id w = Some w' -> ModeOK w'.
Proof.
  intros HI HM. pose proof HI as (HT & HP & _ & _).
  unfold fireTimer.
  pose proof HT as HT'. unfold timersOK in HT'.
  destruct (pending w) as [|t [|t' l]] eqn:Hpd; [| |contradiction].
  { cbn [find]. intros H. injection H as <-. exact HM. }
  destruct HT' as (Hplay & _ & _).
  rewrite find_single.
  destruct (Pos.eqb_spec (timerId t) id) as [Hid|Hid].
  2:{ intros H. injection H as <-. exact HM. }
  set (w0 := clearTimeout id w).
  assert (Hplay0 : isPlaying (app w0) = true) by exact Hplay.
  assert (Hpd0 : pending w0 = []).
  { unfold w0. cbn [clearTimeout pending]. rewrite Hpd. cbn [filter].
    rewrite Hid, Pos.eqb_refl. reflexivity. }
  assert (HT0 : timersOK w0) by (unfold timersOK; rewrite Hpd0; exact I).
  pose proof (HP Hplay) as Hs.
  pose proof (Mode_playing_not_paused w HM Hplay) as Hpa.
  destruct (timerCallback t) eqn:Hcb.
  - rewrite (sentenceClear_playing w0 Hplay0).
    intros H. injection H as <-.
    unfold ModeOK.
    cbn [app pending isPaused hasStarted isPlaying
         set_sentencePauseTimeoutId].
    split; [apply HM|].
    intros _ E. apply app_eq_nil in E. destruct E as [_ E]. discriminate E.
  - rewrite advance_playing by (auto; discriminate).
    intros H. apply (advanceWord_Mode w0 w' H); assumption.
  - rewrite advance_playing by (auto; discriminate).
    intros H. apply (advanceWord_Mode w0 w' H); assumption.
Qed.

Lemma moved_Mode (w w1 : World) (i : nat) :
  ModeOK w ->
  app w1 = set_currentWordIndex i (app w) -> pending w1 = pending w ->
  ModeOK w1.
Proof.
  intros HM Ha Hpd. revert HM.
  apply ModeOK_ext; rewrite ?Ha; auto.
Qed.

Lemma navigatePrev_Mode (w : World) :
  Inv w -> ModeOK w -> ModeOK (navigatePrev w).
Proof.
  intros (HT & _) HM. unfold navigatePrev.
  destruct (hasStarted (app w) && (0 <? currentWordIndex (app w))) eqn:G;
    [|exact HM].
  apply andb_true_iff in G. destruct G as [Hs _].
  apply ModeOK_updateStatus, ModeOK_display.
  apply (moved_Mode (pause w) _ (currentWordIndex (app (pause w)) - 1));
    [apply pause_Mode; assumption | reflexivity | reflexivity].
Qed.

Lemma navigateNext_Mode (w : World) :
  Inv w -> ModeOK w -> ModeOK (navigateNext w).
Proof.
  intros (HT & _) HM. unfold navigateNext.
  destruct (hasStarted (app w) && _) eqn:G; [|exact HM].
  apply andb_true_iff in G. destruct G as [Hs _].
  apply ModeOK_updateStatus, ModeOK_display.
  apply (moved_Mode (pause w) _ (currentWordIndex (app (pause w)) + 1));
    [apply pause_Mode; assumption | reflexivity | reflexivity].
Qed.

Lemma arrow_Mode (k : Key) (w w' : World) :
  k = ArrowLeft \/ k = ArrowRight ->
  Inv w -> ModeOK w -> onGlobalKeydown k w = Some w' -> ModeOK w'.
Proof.
  intros Hk (HT & _) HM.
  destruct Hk as [-> | ->]; cbn [onGlobalKeydown];
    (destruct (hasStarted (app w)) eqn:Hs;
     [|intros H; injection H as <-; exact HM]);
    pose proof (pause_Mode w HT Hs) as HMp.
  - destruct (0 <? _); intros H; injection H as <-; [|exact HMp].
    apply ModeOK_display.
    apply (moved_Mode (pause w) _ (currentWordIndex (app (pause w)) - 1));
      [exact HMp | reflexivity | reflexivity].
  - destruct (_ <? _); intros H; injection H as <-; [|exact HMp].
    apply ModeOK_display.
    apply (moved_Mode (pause w) _ (currentWordIndex (app (pause w)) + 1));
      [exact HMp | reflexivity | reflexivity].
Qed.

Lemma Mode_not_started (w : World) :
  Inv w -> ModeOK w -> hasStarted (app w) = false ->
  isPlaying (app w) = false /\ isPaused (app w) = false.
Proof.
  intros HI [HM _] Hs.
  split; [apply Inv_not_started; assumption|].
  rewrite HM, Hs. reflexivity.
Qed.

Lemma startReading_Mode (w : World) :
  Inv w -> ModeOK w -> hasStarted (app w) = false ->
  ModeOK (startReading w).
Proof.
  intros HI HM Hs.
  destruct (Mode_not_started w HI HM Hs) as [Hplay Hpa].
  unfold startReading.
  destruct (negb (nonEmpty (trim (textInput (dom w))))).
  { apply ModeOK_updateStatus. exact HM. }
  unfold parseText. cbn [fst snd].
  set (t := textInput (dom w)).
  set (w0 := updApp (set_words (flattenWords (parseParagraphs t)))
               (updApp (set_paragraphs (parseParagraphs t)) w)).
  change (appWords (app w0)) with (flattenWords (parseParagraphs t)).
  destruct (0 <? length (flattenWords (parseParagraphs t))) eqn:Hok;
    cbn [negb].
  2:{ revert HM. apply ModeOK_ext; reflexivity. }
  apply Nat.ltb_lt in Hok.
  set (w3 := updApp (set_hasStarted true)
               (updApp (set_currentParagraphIndex 0)
                  (updApp (set_currentWordIndex 0) w0))).
  set (w4 := setWordVisible true (displayCurrentWord (updateWordCounter w3))).
  assert (E4 : app w4 = app w3).
  { destruct (displayCurrentWord_frame (updateWordCounter w3)) as (E1 & _).
    unfold w4. wsimpl. exact E1. }
  apply play_Mode; rewrite E4.
  - reflexivity.
  - intros _. exact Hok.
  - intros H. change (isPlaying (app w3)) with (isPlaying (app w)) in H.
    congruence.
Qed.

Lemma reset_Mode (w : World) : Inv w -> ModeOK (reset w).
Proof.
  intros (HT & _). unfold ModeOK, reset. wsimpl.
  rewrite (pause_pending w HT), pause_isPlaying.
  split; [reflexivity | discriminate].
Qed.

Lemma onTextChange_Mode (w : World) :
  Inv w -> ModeOK w -> ModeOK (onTextChange w).
Proof.
  intros HI HM. unfold onTextChange.
  destruct (hasStarted (app w)) eqn:Hs; cbv zeta.
  - destruct (nonEmpty (trim (textInput (dom (reset w)))));
      apply ModeOK_updateStatus, reset_Mode; exact HI.
  - destruct (nonEmpty (trim (textInput (dom w))));
      apply ModeOK_updateStatus; exact HM.
Qed.

Lemma beforeEnd_in_text (a : App) :
  modelOK a -> beforeEnd a ->
  currentWordIndex a < length (appWords a).
Proof.
  intros Hm Hb. destruct (modelOK_nth a Hm) as [p Hp].
  destruct Hm as (Hwf & Hws & _ & _).
  pose proof (paragraphEnd_le_total _ Hwf _ _ Hp) as He.
  rewrite <- Hws in He. pose proof (Hb p Hp). lia.
Qed.

Lemma onWpmChange_Mode (v : positive) (w : World) :
  Inv w -> ModeOK w -> ModeOK (onWpmChange v w).
Proof.
  intros HI HM. pose proof HI as (HT & HP & HMo & HB).
  unfold onWpmChange.
  set (w1 := updApp (set_wpm v) w).
  change (isPlaying (app w1)) with (isPlaying (app w)).
  destruct (isPlaying (app w)) eqn:Hplay.
  2:{ revert HM. apply ModeOK_ext; try reflexivity. }
  pose proof (pause_samePosition w1) as (P1 & P2 & P3 & P4 & P5).
  apply play_Mode.
  - rewrite P5. apply HP. reflexivity.
  - intros _. rewrite P2, P3.
    apply (beforeEnd_in_text (app w)); auto.
  - rewrite pause_isPlaying. discriminate.
Qed.

(** The common end of [continueAfterParagraph] and
    [restartCurrentParagraph], for the modes. *)
Lemma jump_Mode (w w1 : World) (j : nat) (q : Paragraph) :
  Inv w -> ModeOK w -> hasStarted (app w) = true ->
  app w1 = set_currentWordIndex (startWordIndex q)
             (set_currentParagraphIndex j (app w)) ->
  pending w1 = pending w ->
  nth_error (paragraphs (app w)) j = Some q ->
  ModeOK (play (updateWordCounter (displayCurrentWord w1))).
Proof.
  intros (HT & HP & HMo & HB) HM Hs Ha Hpd Hq.
  destruct (HMo Hs) as (Hwf & Hws & Hle & Hcpi).
  pose proof (paragraph_has_word _ Hwf _ _ Hq) as Hpos.
  pose proof (paragraphEnd_le_total _ Hwf _ _ Hq) as Hend.
  rewrite <- Hws in Hend.
  destruct (display_frame w1) as (E1 & E2 & _).
  apply play_Mode; rewrite ?E1, ?E2, ?Ha.
  - exact Hs.
  - intros _. wsimpl. lia.
  - intros _. apply ModeOK_display. revert HM.
    apply ModeOK_ext; rewrite ?Ha; auto.
Qed.

Lemma continueAfterParagraph_Mode (w : World) (p : Paragraph) :
  Inv w -> ModeOK w -> hasStarted (app w) = true ->
  nth_error (paragraphs (app w)) (currentParagraphIndex (app w)) = Some p ->
  paragraphEnd p <= currentWordIndex (app w) ->
  ModeOK (continueAfterParagraph w).
Proof.
  intros HI HM Hs Hp Hge.
  pose proof HI as (HT & HP & HMo & HB).
  destruct (HMo Hs) as (Hwf & Hws & Hle & Hcpi).
  unfold continueAfterParagraph.
  destruct ((length (paragraphs (app w)) - 1 <=? currentParagraphIndex (app w))
            && (length (appWords (app w)) <=? currentWordIndex (app w)))
    eqn:Hc.
  - destruct (nth_error (paragraphs (app w)) 0) as [p0|] eqn:E0.
    2:{ apply nth_error_None in E0. lia. }
    apply (jump_Mode w _ 0 p0 HI HM Hs); auto.
    wsimpl. rewrite (paragraph_first _ Hwf _ E0). reflexivity.
  - assert (Hnext : currentParagraphIndex (app w)
                    < length (paragraphs (app w)) - 1).
    { destruct (Nat.lt_ge_cases (currentParagraphIndex (app w))
                                (length (paragraphs (app w)) - 1)) as [H|H];
        [exact H|exfalso].
      assert (Hl : ~ currentParagraphIndex (app w)
                     < length (paragraphs (app w)) - 1) by lia.
      pose proof (paragraphEnd_last _ Hwf _ _ Hp Hl) as Hend.
      rewrite <- Hws in Hend.
      apply andb_false_iff in Hc.
      destruct Hc as [Hc|Hc]; apply Nat.leb_gt in Hc; lia. }
    destruct (paragraph_next _ Hwf _ _ Hp Hnext) as (q & Hq & Hq1 & Hq2).
    wsimpl. rewrite Hq.
    apply (jump_Mode w _ (currentParagraphIndex (app w) + 1) q HI HM Hs);
      auto.
Qed.

Lemma handleReaderClick_Mode (w w' : World) :
  Inv w -> ModeOK w -> handleReaderClick w = Some w' -> ModeOK w'.
Proof.
  intros HI HM. unfold handleReaderClick.
  destruct (hasStarted (app w)) eqn:Hs; cbn [negb].
  2:{ intros H. injection H as <-. apply startReading_Mode; assumption. }
  pose proof HI as (HT & HP & HMo & HB).
  destruct (isPaused (app w)) eqn:Hpa.
  2:{ intros H. injection H as <-. apply pause_Mode; assumption. }
  destruct (modelOK_nth _ (HMo Hs)) as [p Hp]. rewrite Hp.
  fold (paragraphEnd p).
  destruct (Nat.leb_spec (paragraphEnd p) (currentWordIndex (app w)))
    as [Hge|Hlt]; intros H; injection H as <-.
  - apply (continueAfterParagraph_Mode w p); assumption.
  - destruct (HMo Hs) as (Hwf & Hws & _ & _).
    pose proof (paragraphEnd_le_total _ Hwf _ _ Hp) as He.
    rewrite <- Hws in He.
    apply play_Mode; [exact Hs | intros _; lia | intros _; exact HM].
Qed.

Lemma handle_Mode (e : Event) (w w' : World) :
  Inv w -> ModeOK w -> handle e w = Some w' -> ModeOK w'.
Proof.
  intros HI HM. destruct e as [| | |k|t|v|v|id]; cbn [handle].
  - apply handleReaderClick_Mode; assumption.
  - intros H. injection H as <-. apply navigatePrev_Mode; assumption.
  - intros H. injection H as <-. apply navigateNext_Mode; assumption.
  - destruct k.
    + apply handleReaderClick_Mode; assumption.
    + apply (arrow_Mode ArrowLeft); auto.
    + apply (arrow_Mode ArrowRight); auto.
    + cbn [onGlobalKeydown].
      destruct (hasStarted (app w)) eqn:Hs.
      2:{ intros H. injection H as <-. exact HM. }
      pose proof HI as (_ & _ & HMo & _).
      destruct (modelOK_nth _ (HMo Hs)) as [p Hp].
      unfold restartCurrentParagraph. rewrite Hp.
      intros H. injection H as <-.
      apply (jump_Mode w _ (currentParagraphIndex (app w)) p HI HM Hs); auto.
    + cbn [onGlobalKeydown]. intros H. injection H as <-. exact HM.
  - intros H. injection H as <-.
    apply onTextChange_Mode.
    + revert HI. apply Inv_ext; reflexivity.
    + revert HM. apply ModeOK_ext; reflexivity.
  - intros H. injection H as <-. apply onWpmChange_Mode; assumption.
  - intros H. injection H as <-. revert HM. apply ModeOK_ext; reflexivity.
  - apply fireTimer_Mode; assumption.
Qed.

Lemma Reachable_Mode (allowed : Event -> bool) (w : World) :
  ReachableBy allowed w -> ModeOK w.
Proof.
  induction 1 as [wv pv t | w e w' Hr IH _ Hh].
  - unfold ModeOK. cbn. split; [reflexivity | discriminate].
  - apply (handle_Mode e w w'); auto.
    apply (Reachable_Inv allowed). exact Hr.
Qed.

(** X7. In every reachable state the three flags encode one of three
    modes: not started (nothing set), playing, or paused. *)
Theorem engine_has_three_modes :
  forall (allowed : Event -> bool) (w : World),
    ReachableBy allowed w ->
    (hasStarted (app w) = false /\ isPlaying (app w) = false
       /\ isPaused (app w) = false)
    \/ (hasStarted (app w) = true /\ isPlaying (app w) = true
          /\ isPaused (app w) = false)
    \/ (hasStarted (app w) = true /\ isPlaying (app w) = false
          /\ isPaused (app w) = true).
Proof.
  intros allowed w Hr.
  pose proof (Reachable_Inv allowed w Hr) as (_ & HP & _).
  pose proof (Reachable_Mode allowed w Hr) as [HM _].
  destruct (hasStarted (app w)), (isPlaying (app w)), (isPaused (app w));
    cbn in HM; try discriminate HM; auto;
    specialize (HP eq_refl); discriminate HP.
Qed.

Lemma engine_has_three_modes_witness :
  ReachableBy (fun _ => true) justStarted
  /\ ((hasStarted (app justStarted) = false
       /\ isPlaying (app justStarted) = false
       /\ isPaused (app justStarted) = false)
      \/ (hasStarted (app justStarted) = true
          /\ isPlaying (app justStarted) = true
          /\ isPaused (app justStarted) = false)
      \/ (hasStarted (app justStarted) = true
          /\ isPlaying (app justStarted) = false
          /\ isPaused (app justStarted) = true)).
Proof.
  assert (Hr : ReachableBy (fun _ => true) justStarted).
  { apply (Reachable_step _ (initial 300 200 twoWords) ClickReader);
      [apply Reachable_initial | reflexivity | vm_compute; reflexivity]. }
  split; [exact Hr|].
  apply (engine_has_three_modes (fun _ => true) justStarted Hr).
Defined.

(** X8. In every reachable state exactly one timer is armed while the
    engine plays and none otherwise; the armed timer has a handle that
    the engine remembers, so that [pause] disarms it. *)
Theorem one_timer_while_playing :
  forall (allowed : Event -> bool) (w : World),
    ReachableBy allowed w ->
    length (pending w) = (if isPlaying (app w) then 1 else 0)
    /\ Forall (remembered w) (pending w)
    /\ pending (pause w) = [].
Proof.
  intros allowed w Hr.
  pose proof (Reachable_Inv allowed w Hr) as (HT & _).
  pose proof (Reachable_Mode allowed w Hr) as [_ HM].
  split; [|split; [|apply pause_pending; exact HT]].
  - unfold timersOK in HT.
    destruct (pending w) as [|t [|t' l]]; try contradiction.
    + destruct (isPlaying (app w)); [|reflexivity].
      exfalso. apply HM; reflexivity.
    + destruct HT as (Hp & _). rewrite Hp. reflexivity.
  - unfold timersOK in HT.
    destruct (pending w) as [|t [|t' l]]; try contradiction.
    + constructor.
    + destruct HT as (_ & H1 & H2).
      constructor; [split; assumption | constructor].
Qed.

Lemma one_timer_while_playing_witness :
  ReachableBy (fun _ => true) justStarted
  /\ length (pending justStarted) = 1
  /\ pending (pause justStarted) = [].
Proof.
  assert (Hr : ReachableBy (fun _ => true) justStarted).
  { apply (Reachable_step _ (initial 300 200 twoWords) ClickReader);
      [apply Reachable_initial | reflexivity | vm_compute; reflexivity]. }
  destruct (one_timer_while_playing (fun _ => true) justStarted Hr)
    as (H1 & _ & H3).
  split; [exact Hr|]. split; [|exact H3].
  rewrite H1. vm_compute. reflexivity.
Defined.

Lemma run_Inv (es : list Event) :
  forall w, Inv w -> exists w', run es w = Some w' /\ Inv w'.
Proof.
  induction es as [|e es IH]; intros w HI; cbn [run].
  - eauto.
  - destruct (handle_Inv e w HI) as (w1 & H1 & HI1 & _).
    rewrite H1. apply IH. exact HI1.
Qed.

(** X9. No sequence of events makes the engine read a property of an
    undefined paragraph: from a reachable state every sequence of events
    runs to a state. *)
Theorem events_never_throw :
  forall (allowed : Event -> bool) (w : World) (es : list Event),
    ReachableBy allowed w ->
    exists w', run es w = Some w'.
Proof.
  intros allowed w es Hr.
  destruct (run_Inv es w (Reachable_Inv allowed w Hr)) as (w' & H & _).
  eauto.
Qed.

Lemma events_never_throw_witness :
  ReachableBy (fun _ => true) justStarted
  /\ exists w',
       run [KeyDown KeyR; TimerFires 1; KeyDown Space; ClickNext] justStarted
       = Some w'.
Proof.
  assert (Hr : ReachableBy (fun _ => true) justStarted).
  { apply (Reachable_step _ (initial 300 200 twoWords) ClickReader);
      [apply Reachable_initial | reflexivity | vm_compute; reflexivity]. }
  split; [exact Hr|].
  apply (events_never_throw (fun _ => true) justStarted _ Hr).
Defined.

(* ================================================================== *)
(** * What the page shows                                              *)
(* ================================================================== *)

Lemma displayCurrentWord_shows (w : World) (word : jsstring) :
  nth_error (appWords (app w)) (currentWordIndex (app w)) = Some word ->
  shownWord (displayCurrentWord w) = splitParts (splitWordAtORP word).
Proof.
  intros H. unfold displayCurrentWord.
  assert (Hlt : currentWordIndex (app w) < length (appWords (app w)))
    by (apply nth_error_Some; congruence).
  apply Nat.leb_gt in Hlt. rewrite Hlt, H. reflexivity.
Qed.

Lemma displayCurrentWord_dom (w : World) :
  textInput (dom (displayCurrentWord w)) = textInput (dom w)
  /\ statusText (dom (displayCurrentWord w)) = statusText (dom w)
  /\ statusBreak (dom (displayCurrentWord w)) = statusBreak (dom w)
  /\ statusHidden (dom (displayCurrentWord w)) = statusHidden (dom w)
  /\ wordCounter (dom (displayCurrentWord w)) = wordCounter (dom w).
Proof.
  unfold displayCurrentWord.
  destruct (_ <=? _); [repeat split|].
  destruct (nth_error _ _); repeat split.
Qed.

Lemma scheduleNextWord_dom (w : World) : dom (scheduleNextWord w) = dom w.
Proof.
  destruct (isPlaying (app w)) eqn:E.
  - rewrite (scheduleNextWord_playing w E). reflexivity.
  - rewrite (scheduleNextWord_idle w E). reflexivity.
Qed.

Lemma play_shown (w : World) : shownWord (play w) = shownWord w.
Proof.
  destruct (play_cases w) as [->|(_ & _ & ->)]; reflexivity.
Qed.

Lemma play_counter (w : World) :
  wordCounter (dom (play w)) = wordCounter (dom w).
Proof.
  destruct (play_cases w) as [->|(_ & _ & ->)]; reflexivity.
Qed.

Lemma pause_shown (w : World) : shownWord (pause w) = shownWord w.
Proof.
  destruct (pause_display w) as (D1 & D2 & D3).
  unfold shownWord. rewrite D1, D2, D3. reflexivity.
Qed.

(** The condition under which [pause] writes the paused status. *)
Lemma pause_dom (w : World) :
  dom (pause w)
  = dom (if hasStarted (app w)
            && (currentWordIndex (app w) <? length (appWords (app w)))
         then updateStatus MsgPaused false (setReadingState false w)
         else setReadingState false w).
Proof.
  unfold pause. cbv zeta.
  rewrite clearSentencePauseTimer_app, clearIntervalTimer_app.
  cbn [app updApp setReadingState updDom hasStarted currentWordIndex appWords
       set_sentencePauseTimeoutId set_intervalId set_isPaused set_isPlaying].
  destruct (hasStarted (app w)
            && (currentWordIndex (app w) <? length (appWords (app w))));
    cbn [dom updateStatus updDom];
    rewrite (proj1 (clearSentencePauseTimer_frame _)),
            (proj1 (clearIntervalTimer_frame _)); reflexivity.
Qed.

Lemma pause_keeps_page (w : World) :
  textInput (dom (pause w)) = textInput (dom w)
  /\ wordCounter (dom (pause w)) = wordCounter (dom w)
  /\ wordVisible (dom (pause w)) = wordVisible (dom w).
Proof.
  rewrite pause_dom. destruct (_ && _); repeat split.
Qed.

Lemma pause_status (w : World) :
  hasStarted (app w) = true ->
  currentWordIndex (app w) < length (appWords (app w)) ->
  statusText (dom (pause w)) = MsgPaused
  /\ statusBreak (dom (pause w)) = false
  /\ statusHidden (dom (pause w)) = false.
Proof.
  intros Hs Hlt. rewrite pause_dom, Hs.
  apply Nat.ltb_lt in Hlt. rewrite Hlt. repeat split.
Qed.

Lemma pause_status_at_end (w : World) :
  length (appWords (app w)) <= currentWordIndex (app w) ->
  statusText (dom (pause w)) = statusText (dom w)
  /\ statusBreak (dom (pause w)) = statusBreak (dom w)
  /\ statusHidden (dom (pause w)) = statusHidden (dom w).
Proof.
  intros Hge. rewrite pause_dom.
  apply Nat.ltb_ge in Hge. rewrite Hge, andb_false_r. repeat split.
Qed.

(* ================================================================== *)
(** * Further properties of the playback engine                        *)
(* ================================================================== *)

Lemma Reachable_idle (allowed : Event -> bool) (w : World) :
  ReachableBy allowed w -> isPlaying (app w) = false -> pending w = [].
Proof.
  intros Hr. apply not_playing_no_timer.
  apply (Reachable_Inv allowed w Hr).
Qed.

(** X10. [startReading] on a text that holds a character other than white
    space, in an engine that has not started: the model is the parsed
    text, the position is the first word of the first paragraph, that
    word is shown split at its ORP, the counter reads 1 of the number of
    words, the status is hidden and the engine plays with one timer of
    [60000 / wpm] ms armed. *)
Theorem startReading_starts :
  forall (allowed : Event -> bool) (w : World),
    ReachableBy allowed w ->
    hasStarted (app w) = false ->
    hasInk (textInput (dom w)) = true ->
    let t := textInput (dom w) in
    let w' := startReading w in
    hasStarted (app w') = true
    /\ isPlaying (app w') = true
    /\ isPaused (app w') = false
    /\ currentWordIndex (app w') = 0
    /\ currentParagraphIndex (app w') = 0
    /\ paragraphs (app w') = parseParagraphs t
    /\ appWords (app w') = flattenWords (parseParagraphs t)
    /\ (exists first,
          nth_error (appWords (app w')) 0 = Some first
          /\ shownWord w' = splitParts (splitWordAtORP first))
    /\ wordCounter (dom w') = (1, length (appWords (app w')))
    /\ wordVisible (dom w') = true
    /\ statusHidden (dom w') = true
    /\ exists cb,
         pending w' = [{| timerId := nextTimerId w;
                          timerDelay := (60000 # wpm (app w))%Q;
                          timerCallback := cb |}].
Proof.
  intros allowed w Hr Hs Hink t w'.
  pose proof (Reachable_Inv allowed w Hr) as HI.
  pose proof (Inv_not_started w HI Hs) as Hplay.
  pose proof (Reachable_idle allowed w Hr Hplay) as Hpd.
  assert (Hok : (0 <? length (flattenWords (parseParagraphs t))) = true).
  { fold (parseSucceeds t). rewrite parseSucceeds_hasInk. exact Hink. }
  set (w0 := updApp (set_words (flattenWords (parseParagraphs t)))
               (updApp (set_paragraphs (parseParagraphs t)) w)).
  set (w3 := updApp (set_hasStarted true)
               (updApp (set_currentParagraphIndex 0)
                  (updApp (set_currentWordIndex 0) w0))).
  set (w4 := setWordVisible true (displayCurrentWord (updateWordCounter w3))).
  assert (Hw' : w' = play w4).
  { pose proof Hok as Hok'. unfold t in Hok'.
    unfold w', startReading. cbv zeta. rewrite nonEmpty_trim, Hink.
    cbn [negb]. unfold parseText.
    cbn [app updApp appWords set_words set_paragraphs].
    rewrite Hok'. reflexivity. }
  destruct (displayCurrentWord_frame (updateWordCounter w3))
    as (E1 & E2 & E3).
  assert (Ea : app w4 = app w3) by exact E1.
  assert (Ep : pending w4 = []) by (unfold w4; wsimpl; rewrite E2; exact Hpd).
  assert (En : nextTimerId w4 = nextTimerId w) by exact E3.
  apply Nat.ltb_lt in Hok.
  assert (Hstart : play w4
            = {| app := set_intervalId (Some (nextTimerId w))
                          (set_isPaused false (set_isPlaying true (app w3)));
                 dom := dom (setReadingState true
                               (hideStatus (updApp (set_isPaused false)
                                              (updApp (set_isPlaying true)
                                                 w4))));
                 pending := [scheduledTimer (app w3) (nextTimerId w)];
                 nextTimerId := Pos.succ (nextTimerId w) |}).
  { rewrite play_starts; rewrite ?Ea, ?Ep, ?En; auto. }
  rewrite Hw', Hstart. clear Hstart Hw'.
  destruct (nth_error (flattenWords (parseParagraphs t)) 0) as [first|]
    eqn:Ef.
  2:{ apply nth_error_None in Ef. lia. }
  split; [reflexivity|]. split; [reflexivity|]. split; [reflexivity|].
  split; [reflexivity|]. split; [reflexivity|]. split; [reflexivity|].
  split; [reflexivity|].
  split.
  { exists first. split; [exact Ef|].
    change (shownWord (displayCurrentWord (updateWordCounter w3))
            = splitParts (splitWordAtORP first)).
    apply displayCurrentWord_shows. exact Ef. }
  destruct (displayCurrentWord_dom (updateWordCounter w3))
    as (_ & _ & _ & _ & D5).
  split; [exact D5|]. split; [reflexivity|]. split; [reflexivity|].
  eexists. reflexivity.
Qed.

Lemma startReading_starts_witness :
  ReachableBy (fun _ => true) (initial 300 200 twoWords)
  /\ hasStarted (app (initial 300 200 twoWords)) = false
  /\ hasInk (textInput (dom (initial 300 200 twoWords))) = true
  /\ isPlaying (app (startReading (initial 300 200 twoWords))) = true
  /\ currentWordIndex (app (startReading (initial 300 200 twoWords))) = 0.
Proof.
  assert (Hr : ReachableBy (fun _ => true) (initial 300 200 twoWords))
    by apply Reachable_initial.
  assert (Hs : hasStarted (app (initial 300 200 twoWords)) = false)
    by reflexivity.
  assert (Hi : hasInk (textInput (dom (initial 300 200 twoWords))) = true)
    by reflexivity.
  pose proof (startReading_starts (fun _ => true) _ Hr Hs Hi) as H.
  cbv zeta in H. destruct H as (_ & H2 & _ & H4 & _).
  repeat split; assumption.
Defined.

Lemma updateStatus_page (m : Message) (b : bool) (w : World) :
  shownWord (updateStatus m b w) = shownWord w
  /\ wordCounter (dom (updateStatus m b w)) = wordCounter (dom w)
  /\ wordVisible (dom (updateStatus m b w)) = wordVisible (dom w)
  /\ textInput (dom (updateStatus m b w)) = textInput (dom w)
  /\ statusText (dom (updateStatus m b w)) = m
  /\ statusBreak (dom (updateStatus m b w)) = b
  /\ statusHidden (dom (updateStatus m b w)) = false.
Proof. repeat split. Qed.

Lemma reset_app (w : World) :
  app (reset w)
  = set_isPaused false
      (set_hasStarted false
         (set_currentParagraphIndex 0
            (set_currentWordIndex 0
               (set_paragraphs [] (set_words [] (app (pause w))))))).
Proof. reflexivity. Qed.

Lemma reset_pending (w : World) : pending (reset w) = pending (pause w).
Proof. reflexivity. Qed.

Lemma reset_page (w : World) :
  shownWord (reset w) = ([], [], [])
  /\ wordCounter (dom (reset w)) = (0, 0)
  /\ wordVisible (dom (reset w)) = false
  /\ textInput (dom (reset w)) = textInput (dom (pause w)).
Proof. repeat split. Qed.

(** X11. A change of the text while the engine has started resets it: it
    is not started, the model is empty, the position is zero, no timer is
    armed, the display is blank and the counter reads 0 of 0; the rate
    and the sentence pause are kept, and the status asks to start when
    the new text holds a character other than white space and to paste a
    text otherwise. *)
Theorem text_change_resets :
  forall (allowed : Event -> bool) (w : World) (t : jsstring),
    ReachableBy allowed w ->
    hasStarted (app w) = true ->
    let w' := onTextChange (setTextInput t w) in
    hasStarted (app w') = false
    /\ isPlaying (app w') = false
    /\ isPaused (app w') = false
    /\ appWords (app w') = []
    /\ paragraphs (app w') = []
    /\ currentWordIndex (app w') = 0
    /\ currentParagraphIndex (app w') = 0
    /\ wpm (app w') = wpm (app w)
    /\ sentencePause (app w') = sentencePause (app w)
    /\ pending w' = []
    /\ shownWord w' = ([], [], [])
    /\ wordCounter (dom w') = (0, 0)
    /\ wordVisible (dom w') = false
    /\ textInput (dom w') = t
    /\ statusText (dom w')
       = (if hasInk t then MsgClickToStart else MsgPasteAndClick)
    /\ statusBreak (dom w') = false
    /\ statusHidden (dom w') = false.
Proof.
  intros allowed w t Hr Hs w'.
  pose proof (Reachable_Inv allowed w Hr) as (HT & _).
  set (w1 := setTextInput t w).
  assert (HT1 : timersOK w1) by exact HT.
  pose proof (pause_app w1) as Hpa.
  pose proof (pause_pending w1 HT1) as Hpp.
  destruct (pause_keeps_page w1) as (K1 & _ & _).
  destruct (reset_page w1) as (R1 & R2 & R3 & R4).
  assert (Ht : textInput (dom (reset w1)) = t).
  { rewrite R4. exact K1. }
  set (m := if hasInk t then MsgClickToStart else MsgPasteAndClick).
  assert (Hw' : w' = updateStatus m false (reset w1)).
  { unfold w', onTextChange. fold w1.
    change (hasStarted (app w1)) with (hasStarted (app w)).
    rewrite Hs. cbv zeta. rewrite Ht, nonEmpty_trim. unfold m.
    destruct (hasInk t); reflexivity. }
  destruct (updateStatus_frame m false (reset w1)) as (F1 & F2 & _).
  rewrite Hw'. clear Hw'. rewrite F1, F2, reset_app, reset_pending, Hpp, Hpa.
  do 10 (split; [reflexivity|]).
  destruct (updateStatus_page m false (reset w1))
    as (U1 & U2 & U3 & U4 & U5 & U6 & U7).
  rewrite U1, U2, U3, U4, U5, U6, U7, R1, R2, R3, Ht. repeat split.
Qed.

Lemma text_change_resets_witness :
  ReachableBy (fun _ => true) justStarted
  /\ hasStarted (app justStarted) = true
  /\ hasStarted (app (onTextChange (setTextInput (str "new") justStarted)))
     = false
  /\ pending (onTextChange (setTextInput (str "new") justStarted)) = [].
Proof.
  assert (Hr : ReachableBy (fun _ => true) justStarted).
  { apply (Reachable_step _ (initial 300 200 twoWords) ClickReader);
      [apply Reachable_initial | reflexivity | vm_compute; reflexivity]. }
  assert (Hs : hasStarted (app justStarted) = true)
    by (vm_compute; reflexivity).
  pose proof (text_change_resets (fun _ => true) justStarted (str "new")
                Hr Hs) as H.
  cbv zeta in H.
  destruct H as (H1 & _ & _ & _ & _ & _ & _ & _ & _ & H10 & _).
  repeat split; assumption.
Defined.

Lemma advanceWord_within (w : World) (p : Paragraph) :
  nth_error (paragraphs (app w)) (currentParagraphIndex (app w)) = Some p ->
  currentWordIndex (app w) + 1 < paragraphEnd p ->
  advanceWord w
  = Some (scheduleNextWord (updateWordCounter (displayCurrentWord (stepped w)))).
Proof.
  intros Hp Hlt. unfold advanceWord. fold (stepped w).
  change (paragraphs (app (stepped w))) with (paragraphs (app w)).
  change (currentParagraphIndex (app (stepped w)))
    with (currentParagraphIndex (app w)).
  rewrite Hp. fold (paragraphEnd p).
  change (currentWordIndex (app (stepped w)))
    with (currentWordIndex (app w) + 1).
  apply Nat.leb_gt in Hlt. rewrite Hlt. reflexivity.
Qed.

Lemma advanceWord_at_end (w : World) (p : Paragraph) :
  nth_error (paragraphs (app w)) (currentParagraphIndex (app w)) = Some p ->
  paragraphEnd p <= currentWordIndex (app w) + 1 ->
  advanceWord w
  = Some (updateStatus (breakMessage (app w)) true (pause (stepped w))).
Proof.
  intros Hp Hge. unfold advanceWord. fold (stepped w).
  change (paragraphs (app (stepped w))) with (paragraphs (app w)).
  change (currentParagraphIndex (app (stepped w)))
    with (currentParagraphIndex (app w)).
  rewrite Hp. fold (paragraphEnd p).
  change (currentWordIndex (app (stepped w)))
    with (currentWordIndex (app w) + 1).
  apply Nat.leb_le in Hge. rewrite Hge. cbv zeta.
  rewrite (pause_app (stepped w)).
  cbn [currentParagraphIndex paragraphs set_sentencePauseTimeoutId
       set_intervalId set_isPaused set_isPlaying].
  change (currentParagraphIndex (app (stepped w)))
    with (currentParagraphIndex (app w)).
  change (paragraphs (app (stepped w))) with (paragraphs (app w)).
  unfold breakMessage, showParagraphBreak, showEndOfText.
  destruct (_ <? _); reflexivity.
Qed.

Lemma updateWordCounter_page (w : World) :
  shownWord (updateWordCounter w) = shownWord w
  /\ wordCounter (dom (updateWordCounter w))
     = (currentWordIndex (app w) + 1, length (appWords (app w))).
Proof. split; reflexivity. Qed.

(** X12. When the timer of a word that needs no blanking fires and the
    next index is still inside the current paragraph, the engine moves to
    the next word: it is displayed split at its ORP, the counter follows,
    the engine keeps playing and one timer of [60000 / wpm] ms is armed
    for the new word. *)
Theorem timer_advances_within_paragraph :
  forall (allowed : Event -> bool) (w : World) (t : Timer) (p : Paragraph),
    ReachableBy allowed w ->
    pending w = [t] ->
    timerCallback t <> CbSentenceClear ->
    nth_error (paragraphs (app w)) (currentParagraphIndex (app w)) = Some p ->
    currentWordIndex (app w) + 1 < paragraphEnd p ->
    exists w' word,
      fireTimer (timerId t) w = Some w'
      /\ currentWordIndex (app w') = currentWordIndex (app w) + 1
      /\ currentParagraphIndex (app w') = currentParagraphIndex (app w)
      /\ isPlaying (app w') = true
      /\ nth_error (appWords (app w)) (currentWordIndex (app w) + 1)
         = Some word
      /\ shownWord w' = splitParts (splitWordAtORP word)
      /\ wordCounter (dom w')
         = (currentWordIndex (app w) + 2, length (appWords (app w)))
      /\ exists cb,
           pending w' = [{| timerId := nextTimerId w;
                            timerDelay := (60000 # wpm (app w))%Q;
                            timerCallback := cb |}].
Proof.
  intros allowed w t p Hr Hpd Hcb Hp Hlt.
  pose proof (Reachable_Inv allowed w Hr) as (HT & HP & HM & HB).
  assert (Hplay : isPlaying (app w) = true).
  { unfold timersOK in HT. rewrite Hpd in HT. apply HT. }
  destruct (HM (HP Hplay)) as (Hwf & Hws & _ & _).
  pose proof (paragraphEnd_le_total _ Hwf _ _ Hp) as Hend.
  rewrite <- Hws in Hend.
  destruct (nth_error (appWords (app w)) (currentWordIndex (app w) + 1))
    as [word|] eqn:Ew.
  2:{ apply nth_error_None in Ew. lia. }
  destruct (fire_single w t Hpd) as [Hf Hclr].
  set (w0 := clearTimeout (timerId t) w) in *.
  rewrite (advance_playing _ w0 Hcb Hplay) in Hf.
  rewrite (advanceWord_within w0 p Hp Hlt) in Hf.
  set (w2 := updateWordCounter (displayCurrentWord (stepped w0))) in *.
  destruct (display_frame (stepped w0)) as (E1 & E2 & E3).
  fold w2 in E1, E2, E3.
  assert (Hplay2 : isPlaying (app w2) = true) by (rewrite E1; exact Hplay).
  pose proof (scheduleNextWord_playing w2 Hplay2) as Hsch.
  assert (A : app (scheduleNextWord w2)
              = set_intervalId (Some (nextTimerId w2)) (app w2))
    by (rewrite Hsch; reflexivity).
  assert (P : pending (scheduleNextWord w2)
              = pending w2 ++ [scheduledTimer (app w2) (nextTimerId w2)])
    by (rewrite Hsch; reflexivity).
  pose proof (scheduleNextWord_dom w2) as D.
  exists (scheduleNextWord w2), word. split; [exact Hf|].
  unfold shownWord. rewrite A, P, D, E1, E2, E3.
  split; [reflexivity|]. split; [reflexivity|]. split; [exact Hplay|].
  split; [reflexivity|].
  destruct (updateWordCounter_page (displayCurrentWord (stepped w0)))
    as (U1 & U2).
  fold w2 in U1, U2.
  destruct (displayCurrentWord_frame (stepped w0)) as (F1 & _ & _).
  split.
  { fold (shownWord w2). rewrite U1.
    apply displayCurrentWord_shows. exact Ew. }
  split.
  { rewrite U2, F1.
    change (currentWordIndex (app (stepped w0)))
      with (currentWordIndex (app w) + 1).
    change (appWords (app (stepped w0))) with (appWords (app w)).
    f_equal. lia. }
  change (pending (stepped w0)) with (pending w0). rewrite Hclr.
  eexists. reflexivity.
Qed.

(** X13. When the armed timer is not the blanking closure of a sentence
    pause and the next index is the end of the current paragraph, its
    firing stops the engine there: the index is advanced, the paragraph
    index is kept, the engine is paused with no timer armed, the word
    display and the counter are not written (they keep what they held:
    the last word, or the blank of a sentence pause), and the status,
    flagged as a break, announces the end of the paragraph, or the end of
    the text after the last paragraph. *)
Theorem timer_stops_at_paragraph_end :
  forall (allowed : Event -> bool) (w : World) (t : Timer) (p : Paragraph),
    ReachableBy allowed w ->
    pending w = [t] ->
    timerCallback t <> CbSentenceClear ->
    nth_error (paragraphs (app w)) (currentParagraphIndex (app w)) = Some p ->
    paragraphEnd p <= currentWordIndex (app w) + 1 ->
    exists w',
      fireTimer (timerId t) w = Some w'
      /\ currentWordIndex (app w') = currentWordIndex (app w) + 1
      /\ currentParagraphIndex (app w') = currentParagraphIndex (app w)
      /\ isPlaying (app w') = false
      /\ isPaused (app w') = true
      /\ pending w' = []
      /\ shownWord w' = shownWord w
      /\ wordCounter (dom w') = wordCounter (dom w)
      /\ statusText (dom w')
         = (if currentParagraphIndex (app w) <? length (paragraphs (app w)) - 1
            then MsgEndOfParagraph else MsgDone)
      /\ statusBreak (dom w') = true
      /\ statusHidden (dom w') = false.
Proof.
  intros allowed w t p Hr Hpd Hcb Hp Hge.
  pose proof (Reachable_Inv allowed w Hr) as (HT & HP & HM & HB).
  assert (Hplay : isPlaying (app w) = true).
  { unfold timersOK in HT. rewrite Hpd in HT. apply HT. }
  destruct (fire_single w t Hpd) as [Hf Hclr].
  set (w0 := clearTimeout (timerId t) w) in *.
  rewrite (advance_playing _ w0 Hcb Hplay) in Hf.
  rewrite (advanceWord_at_end w0 p Hp Hge) in Hf.
  eexists. split; [exact Hf|].
  destruct (updateStatus_frame (breakMessage (app w0)) true
              (pause (stepped w0))) as (F1 & F2 & _).
  destruct (updateStatus_page (breakMessage (app w0)) true
              (pause (stepped w0))) as (U1 & U2 & _ & _ & U5 & U6 & U7).
  destruct (pause_keeps_page (stepped w0)) as (_ & K2 & _).
  assert (HT0 : timersOK (stepped w0)).
  { unfold timersOK. change (pending (stepped w0)) with (pending w0).
    rewrite Hclr. exact I. }
  rewrite F1, F2, U1, U2, K2, U5, U6, U7, (pause_app (stepped w0)),
    (pause_pending _ HT0), (pause_shown (stepped w0)).
  repeat split.
Qed.

Lemma timer_advances_within_paragraph_witness :
  ReachableBy (fun _ => true) justStarted
  /\ pending justStarted = [firstTimer]
  /\ exists w',
       fireTimer 1 justStarted = Some w'
       /\ currentWordIndex (app w') = 1
       /\ isPlaying (app w') = true.
Proof.
  assert (Hr : ReachableBy (fun _ => true) justStarted).
  { apply (Reachable_step _ (initial 300 200 twoWords) ClickReader);
      [apply Reachable_initial | reflexivity | vm_compute; reflexivity]. }
  assert (Hpd : pending justStarted = [firstTimer])
    by (vm_compute; reflexivity).
  assert (Hcb : timerCallback firstTimer <> CbSentenceClear)
    by (cbn; discriminate).
  assert (Hp : nth_error (paragraphs (app justStarted))
                 (currentParagraphIndex (app justStarted))
               = Some {| index := 0; text := str "a b";
                         words := [str "a"; str "b"];
                         startWordIndex := 0 |})
    by (vm_compute; reflexivity).
  assert (Hlt : currentWordIndex (app justStarted) + 1
                < paragraphEnd {| index := 0; text := str "a b";
                                  words := [str "a"; str "b"];
                                  startWordIndex := 0 |})
    by (vm_compute; lia).
  destruct (timer_advances_within_paragraph (fun _ => true) justStarted
              firstTimer _ Hr Hpd Hcb Hp Hlt)
    as (w' & word & H1 & H2 & _ & H4 & _).
  split; [exact Hr|]. split; [exact Hpd|].
  exists w'. split; [exact H1|]. split; [|exact H4].
  rewrite H2. vm_compute. reflexivity.
Defined.

Lemma timer_stops_at_paragraph_end_witness :
  ReachableBy (fun _ => true) oneWordStarted
  /\ pending oneWordStarted = [firstTimer]
  /\ exists w',
       fireTimer 1 oneWordStarted = Some w'
       /\ isPlaying (app w') = false
       /\ statusText (dom w') = MsgDone.
Proof.
  assert (Hr : ReachableBy (fun _ => true) oneWordStarted).
  { apply (Reachable_step _ (initial 300 200 (str "a")) ClickReader);
      [apply Reachable_initial | reflexivity | vm_compute; reflexivity]. }
  assert (Hpd : pending oneWordStarted = [firstTimer])
    by (vm_compute; reflexivity).
  assert (Hcb : timerCallback firstTimer <> CbSentenceClear)
    by (cbn; discriminate).
  assert (Hp : nth_error (paragraphs (app oneWordStarted))
                 (currentParagraphIndex (app oneWordStarted))
               = Some {| index := 0; text := str "a";
                         words := [str "a"];
                         startWordIndex := 0 |})
    by (vm_compute; reflexivity).
  assert (Hge : paragraphEnd {| index := 0; text := str "a";
                                words := [str "a"];
                                startWordIndex := 0 |}
                <= currentWordIndex (app oneWordStarted) + 1)
    by (vm_compute; lia).
  destruct (timer_stops_at_paragraph_end (fun _ => true) oneWordStarted
              firstTimer _ Hr Hpd Hcb Hp Hge)
    as (w' & H1 & _ & _ & H4 & _ & _ & _ & _ & H8 & _).
  split; [exact Hr|]. split; [exact Hpd|].
  exists w'. split; [exact H1|]. split; [exact H4|].
  rewrite H8. vm_compute. reflexivity.
Defined.

(** [play] when it starts: what it writes and what it leaves. *)
Lemma play_starts_effect (w : World) :
  isPlaying (app w) = false ->
  currentWordIndex (app w) < length (appWords (app w)) ->
  app (play w) = set_intervalId (Some (nextTimerId w))
                   (set_isPaused false (set_isPlaying true (app w)))
  /\ pending (play w) = pending w ++ [scheduledTimer (app w) (nextTimerId w)]
  /\ shownWord (play w) = shownWord w
  /\ wordCounter (dom (play w)) = wordCounter (dom w)
  /\ statusHidden (dom (play w)) = true.
Proof.
  intros H1 H2. rewrite (play_starts w H1 H2). repeat split.
Qed.

(** X14. The activation (click on the reader or Space) toggles a playing
    engine: it pauses, disarming the timer and showing the paused status
    over the same word at the same position; a second activation resumes
    at the same position with the status hidden and one timer of
    [60000 / wpm] ms armed. *)
Theorem activation_toggles_pause :
  forall (allowed : Event -> bool) (w : World),
    ReachableBy allowed w ->
    isPlaying (app w) = true ->
    exists w1 w2,
      handleReaderClick w = Some w1
      /\ isPlaying (app w1) = false
      /\ isPaused (app w1) = true
      /\ pending w1 = []
      /\ samePosition (app w) (app w1)
      /\ shownWord w1 = shownWord w
      /\ statusText (dom w1) = MsgPaused
      /\ statusBreak (dom w1) = false
      /\ statusHidden (dom w1) = false
      /\ handleReaderClick w1 = Some w2
      /\ isPlaying (app w2) = true
      /\ isPaused (app w2) = false
      /\ samePosition (app w) (app w2)
      /\ shownWord w2 = shownWord w
      /\ statusHidden (dom w2) = true
      /\ exists cb,
           pending w2 = [{| timerId := nextTimerId w;
                            timerDelay := (60000 # wpm (app w))%Q;
                            timerCallback := cb |}].
Proof.
  intros allowed w Hr Hplay.
  pose proof (Reachable_Inv allowed w Hr) as HI.
  pose proof HI as (HT & HP & HM & HB).
  pose proof (Reachable_Mode allowed w Hr) as HMo.
  pose proof (HP Hplay) as Hs.
  pose proof (Mode_playing_not_paused w HMo Hplay) as Hpa.
  pose proof (beforeEnd_in_text (app w) (HM Hs) (HB Hplay)) as Hlt.
  destruct (modelOK_nth _ (HM Hs)) as [p Hp].
  pose proof (HB Hplay p Hp) as Hend.
  pose proof (pause_app w) as Ea.
  pose proof (pause_pending w HT) as Ep.
  pose proof (pause_nextTimerId w) as En.
  pose proof (pause_samePosition w) as S1.
  destruct (pause_status w Hs Hlt) as (T1 & T2 & T3).
  exists (pause w), (play (pause w)).
  split; [unfold handleReaderClick; rewrite Hs, Hpa; reflexivity|].
  split; [apply pause_isPlaying|].
  split; [rewrite Ea; reflexivity|].
  split; [exact Ep|]. split; [exact S1|].
  split; [apply pause_shown|].
  split; [exact T1|]. split; [exact T2|]. split; [exact T3|].
  destruct S1 as (P1 & P2 & P3 & P4 & P5).
  assert (Hlt' : currentWordIndex (app (pause w))
                 < length (appWords (app (pause w))))
    by (rewrite P2, P3; exact Hlt).
  destruct (play_starts_effect (pause w) (pause_isPlaying w) Hlt')
    as (A & P & Sh & _ & Hid).
  split.
  { unfold handleReaderClick. rewrite P5, Hs. cbn [negb].
    assert (E : isPaused (app (pause w)) = true) by (rewrite Ea; reflexivity).
    rewrite E, P1, P4, Hp, P3. fold (paragraphEnd p).
    apply Nat.leb_gt in Hend. rewrite Hend. reflexivity. }
  rewrite A, P, Sh, Hid, Ep, En, (pause_shown w), Ea.
  split; [reflexivity|]. split; [reflexivity|].
  split; [repeat split|]. split; [reflexivity|]. split; [reflexivity|].
  eexists. reflexivity.
Qed.

Lemma activation_toggles_pause_witness :
  ReachableBy (fun _ => true) justStarted
  /\ isPlaying (app justStarted) = true
  /\ exists w1 w2,
       handleReaderClick justStarted = Some w1
       /\ isPlaying (app w1) = false
       /\ handleReaderClick w1 = Some w2
       /\ isPlaying (app w2) = true.
Proof.
  assert (Hr : ReachableBy (fun _ => true) justStarted).
  { apply (Reachable_step _ (initial 300 200 twoWords) ClickReader);
      [apply Reachable_initial | reflexivity | vm_compute; reflexivity]. }
  assert (Hp : isPlaying (app justStarted) = true)
    by (vm_compute; reflexivity).
  destruct (activation_toggles_pause (fun _ => true) justStarted Hr Hp)
    as (w1 & w2 & H1 & H2 & _ & _ & _ & _ & _ & _ & _ & H10 & H11 & _).
  split; [exact Hr|]. split; [exact Hp|].
  exists w1, w2. repeat split; assumption.
Defined.

(** Display of the current word followed by [play] in an idle engine. *)
Lemma display_then_play (w1 : World) (word : jsstring) :
  isPlaying (app w1) = false ->
  nth_error (appWords (app w1)) (currentWordIndex (app w1)) = Some word ->
  let w' := play (updateWordCounter (displayCurrentWord w1)) in
  app w' = set_intervalId (Some (nextTimerId w1))
             (set_isPaused false (set_isPlaying true (app w1)))
  /\ pending w' = pending w1 ++ [scheduledTimer (app w1) (nextTimerId w1)]
  /\ shownWord w' = splitParts (splitWordAtORP word)
  /\ wordCounter (dom w')
     = (currentWordIndex (app w1) + 1, length (appWords (app w1)))
  /\ statusHidden (dom w') = true.
Proof.
  intros Hplay Hword w'.
  destruct (display_frame w1) as (E1 & E2 & E3).
  destruct (displayCurrentWord_frame w1) as (F1 & _ & _).
  assert (Hlt : currentWordIndex (app w1) < length (appWords (app w1)))
    by (apply nth_error_Some; congruence).
  destruct (updateWordCounter_page (displayCurrentWord w1)) as (U1 & U2).
  pose proof (displayCurrentWord_shows w1 word Hword) as Sh.
  assert (Hp' : isPlaying (app (updateWordCounter (displayCurrentWord w1)))
                = false) by (rewrite E1; exact Hplay).
  assert (Hl' : currentWordIndex
                  (app (updateWordCounter (displayCurrentWord w1)))
                < length (appWords
                            (app (updateWordCounter (displayCurrentWord w1)))))
    by (rewrite E1; exact Hlt).
  destruct (play_starts_effect _ Hp' Hl') as (A & P & S & C & Hid).
  unfold w'. rewrite A, P, S, C, Hid, E1, E2, E3, U1, U2, F1, Sh.
  repeat split.
Qed.

(** Display of the current word followed by [play] in a playing engine:
    [play] does nothing. *)
Lemma display_while_playing (w1 : World) (word : jsstring) :
  isPlaying (app w1) = true ->
  nth_error (appWords (app w1)) (currentWordIndex (app w1)) = Some word ->
  let w' := play (updateWordCounter (displayCurrentWord w1)) in
  app w' = app w1
  /\ pending w' = pending w1
  /\ shownWord w' = splitParts (splitWordAtORP word)
  /\ wordCounter (dom w')
     = (currentWordIndex (app w1) + 1, length (appWords (app w1))).
Proof.
  intros Hplay Hword w'.
  destruct (display_frame w1) as (E1 & E2 & E3).
  destruct (displayCurrentWord_frame w1) as (F1 & _ & _).
  destruct (updateWordCounter_page (displayCurrentWord w1)) as (U1 & U2).
  pose proof (displayCurrentWord_shows w1 word Hword) as Sh.
  unfold w'. rewrite play_idle by (rewrite E1, Hplay; reflexivity).
  rewrite E1, E2, U1, U2, F1, Sh. repeat split.
Qed.

(** The first word of a paragraph of a well-formed model is a word of the
    text. *)
Lemma paragraph_start_word (a : App) (j : nat) (q : Paragraph) :
  modelOK a -> nth_error (paragraphs a) j = Some q ->
  exists word, nth_error (appWords a) (startWordIndex q) = Some word.
Proof.
  intros (Hwf & Hws & _ & _) Hq.
  pose proof (paragraph_has_word _ Hwf _ _ Hq) as H1.
  pose proof (paragraphEnd_le_total _ Hwf _ _ Hq) as H2.
  rewrite <- Hws in H2.
  destruct (nth_error (appWords a) (startWordIndex q)) as [word|] eqn:E;
    [eauto|].
  apply nth_error_None in E. lia.
Qed.

(** X15. The activation of an engine stopped at or after the end of its
    paragraph continues with the next paragraph, or with the first one
    after the last: the position is the first word of that paragraph,
    which is shown split at its ORP, the counter follows, the status is
    hidden and the engine plays with one timer of [60000 / wpm] ms. *)
Theorem activation_continues_after_paragraph :
  forall (allowed : Event -> bool) (w : World) (p : Paragraph),
    ReachableBy allowed w ->
    hasStarted (app w) = true ->
    isPlaying (app w) = false ->
    nth_error (paragraphs (app w)) (currentParagraphIndex (app w)) = Some p ->
    paragraphEnd p <= currentWordIndex (app w) ->
    exists w' q word,
      handleReaderClick w = Some w'
      /\ currentParagraphIndex (app w')
         = (if currentParagraphIndex (app w) + 1 <? length (paragraphs (app w))
            then currentParagraphIndex (app w) + 1 else 0)
      /\ nth_error (paragraphs (app w)) (currentParagraphIndex (app w'))
         = Some q
      /\ startWordIndex q
         = (if currentParagraphIndex (app w) + 1 <? length (paragraphs (app w))
            then paragraphEnd p else 0)
      /\ currentWordIndex (app w') = startWordIndex q
      /\ paragraphs (app w') = paragraphs (app w)
      /\ appWords (app w') = appWords (app w)
      /\ isPlaying (app w') = true
      /\ isPaused (app w') = false
      /\ nth_error (appWords (app w)) (startWordIndex q) = Some word
      /\ shownWord w' = splitParts (splitWordAtORP word)
      /\ wordCounter (dom w')
         = (startWordIndex q + 1, length (appWords (app w)))
      /\ statusHidden (dom w') = true
      /\ exists cb,
           pending w' = [{| timerId := nextTimerId w;
                            timerDelay := (60000 # wpm (app w))%Q;
                            timerCallback := cb |}].
Proof.
  intros allowed w p Hr Hs Hplay Hp Hge.
  pose proof (Reachable_Inv allowed w Hr) as HI.
  pose proof HI as (HT & HP & HM & HB).
  destruct (Reachable_Mode allowed w Hr) as (Hpa & _).
  rewrite Hs, Hplay in Hpa. cbn in Hpa.
  pose proof (Reachable_idle allowed w Hr Hplay) as Hpd.
  pose proof (HM Hs) as Hm.
  pose proof Hm as (Hwf & Hws & Hle & Hcpi).
  assert (Hclick : handleReaderClick w = Some (continueAfterParagraph w)).
  { unfold handleReaderClick. rewrite Hs, Hpa, Hp. cbn [negb].
    fold (paragraphEnd p). apply Nat.leb_le in Hge. rewrite Hge.
    reflexivity. }
  rewrite Hclick.
  unfold continueAfterParagraph. cbv zeta.
  destruct (Nat.lt_ge_cases (currentParagraphIndex (app w))
              (length (paragraphs (app w)) - 1)) as [Hnext|Hlast].
  - (* another paragraph follows *)
    assert (Hc : (length (paragraphs (app w)) - 1
                  <=? currentParagraphIndex (app w))
                 && (length (appWords (app w)) <=? currentWordIndex (app w))
                 = false).
    { apply andb_false_iff. left. apply Nat.leb_gt. exact Hnext. }
    rewrite Hc.
    destruct (paragraph_next _ Hwf _ _ Hp Hnext) as (q & Hq & Hq1 & Hq2).
    assert (Hif : (currentParagraphIndex (app w) + 1
                   <? length (paragraphs (app w))) = true)
      by (apply Nat.ltb_lt; lia).
    rewrite Hif.
    destruct (paragraph_start_word _ _ _ Hm Hq) as [word Hword].
    wsimpl. rewrite Hq.
    match goal with
    | |- context [play (updateWordCounter (displayCurrentWord ?x))] =>
        set (w1 := x)
    end.
    assert (Hp1 : isPlaying (app w1) = false) by exact Hplay.
    assert (Hw1 : nth_error (appWords (app w1)) (currentWordIndex (app w1))
                  = Some word) by exact Hword.
    destruct (display_then_play w1 word Hp1 Hw1) as (A & P & Sh & C & Hid).
    exists (play (updateWordCounter (displayCurrentWord w1))), q, word.
    rewrite A, P, Sh, C, Hid.
    split; [reflexivity|]. split; [reflexivity|]. split; [exact Hq|].
    split; [exact Hq1|]. split; [reflexivity|]. split; [reflexivity|].
    split; [reflexivity|]. split; [reflexivity|]. split; [reflexivity|].
    split; [exact Hword|]. split; [reflexivity|]. split; [reflexivity|].
    split; [reflexivity|].
    eexists. unfold w1. cbn [pending updApp nextTimerId]. rewrite Hpd.
    reflexivity.
  - (* the last paragraph: back to the start of the text *)
    assert (Hl : ~ currentParagraphIndex (app w)
                   < length (paragraphs (app w)) - 1) by lia.
    pose proof (paragraphEnd_last _ Hwf _ _ Hp Hl) as Hend.
    rewrite <- Hws in Hend.
    assert (Hc : (length (paragraphs (app w)) - 1
                  <=? currentParagraphIndex (app w))
                 && (length (appWords (app w)) <=? currentWordIndex (app w))
                 = true).
    { apply andb_true_iff. split; apply Nat.leb_le; lia. }
    rewrite Hc.
    assert (Hif : (currentParagraphIndex (app w) + 1
                   <? length (paragraphs (app w))) = false)
      by (apply Nat.ltb_ge; lia).
    rewrite Hif.
    destruct (nth_error (paragraphs (app w)) 0) as [q|] eqn:Hq.
    2:{ apply nth_error_None in Hq. lia. }
    pose proof (paragraph_first _ Hwf _ Hq) as Hq0.
    destruct (paragraph_start_word _ _ _ Hm Hq) as [word Hword].
    match goal with
    | |- context [play (updateWordCounter (displayCurrentWord ?x))] =>
        set (w1 := x)
    end.
    assert (Hp1 : isPlaying (app w1) = false) by exact Hplay.
    assert (Hw1 : nth_error (appWords (app w1)) (currentWordIndex (app w1))
                  = Some word) by (rewrite Hq0 in Hword; exact Hword).
    destruct (display_then_play w1 word Hp1 Hw1) as (A & P & Sh & C & Hid).
    exists (play (updateWordCounter (displayCurrentWord w1))), q, word.
    rewrite A, P, Sh, C, Hid, Hq0.
    split; [reflexivity|]. split; [reflexivity|]. split; [exact Hq|].
    split; [reflexivity|]. split; [reflexivity|]. split; [reflexivity|].
    split; [reflexivity|]. split; [reflexivity|]. split; [reflexivity|].
    split; [rewrite Hq0 in Hword; exact Hword|].
    split; [reflexivity|]. split; [reflexivity|]. split; [reflexivity|].
    eexists. unfold w1. cbn [pending updApp nextTimerId]. rewrite Hpd.
    reflexivity.
Qed.

Lemma activation_continues_after_paragraph_witness :
  ReachableBy (fun _ => true) atParagraphBreak
  /\ isPlaying (app atParagraphBreak) = false
  /\ exists w',
       handleReaderClick atParagraphBreak = Some w'
       /\ currentParagraphIndex (app w') = 1
       /\ currentWordIndex (app w') = 1
       /\ isPlaying (app w') = true.
Proof.
  assert (Hr : ReachableBy (fun _ => true) atParagraphBreak).
  { apply (run_Reachable (fun _ => true) [ClickReader; TimerFires 1]
             (initial 300 200 twoLines) atParagraphBreak);
      [apply Reachable_initial | reflexivity | vm_compute; reflexivity]. }
  assert (Hs : hasStarted (app atParagraphBreak) = true)
    by (vm_compute; reflexivity).
  assert (Hplay : isPlaying (app atParagraphBreak) = false)
    by (vm_compute; reflexivity).
  assert (Hp : nth_error (paragraphs (app atParagraphBreak))
                 (currentParagraphIndex (app atParagraphBreak))
               = Some {| index := 0; text := str "a"; words := [str "a"];
                         startWordIndex := 0 |})
    by (vm_compute; reflexivity).
  assert (Hge : paragraphEnd {| index := 0; text := str "a";
                                words := [str "a"]; startWordIndex := 0 |}
                <= currentWordIndex (app atParagraphBreak))
    by (vm_compute; lia).
  destruct (activation_continues_after_paragraph (fun _ => true)
              atParagraphBreak _ Hr Hs Hplay Hp Hge)
    as (w' & q & word & H1 & H2 & _ & H4 & H5 & _ & _ & H8 & _).
  split; [exact Hr|]. split; [exact Hplay|].
  exists w'. split; [exact H1|].
  split; [rewrite H2; vm_compute; reflexivity|].
  split; [rewrite H5, H4; vm_compute; reflexivity|exact H8].
Defined.

(** A move of the word index followed by the display of the word. *)
Lemma moved_effect (v : World) (h : nat -> nat) (word : jsstring) :
  nth_error (appWords (app v)) (h (currentWordIndex (app v))) = Some word ->
  let X := updateWordCounter
             (displayCurrentWord
                (updApp (fun a =>
                           set_currentWordIndex (h (currentWordIndex a)) a)
                        v)) in
  app X = set_currentWordIndex (h (currentWordIndex (app v))) (app v)
  /\ pending X = pending v
  /\ shownWord X = splitParts (splitWordAtORP word)
  /\ wordCounter (dom X)
     = (h (currentWordIndex (app v)) + 1, length (appWords (app v))).
Proof.
  intros Hword X.
  set (w1 := updApp (fun a => set_currentWordIndex (h (currentWordIndex a)) a)
                    v) in *.
  destruct (display_frame w1) as (E1 & E2 & E3).
  destruct (displayCurrentWord_frame w1) as (F1 & _ & _).
  destruct (updateWordCounter_page (displayCurrentWord w1)) as (U1 & U2).
  assert (Hw1 : nth_error (appWords (app w1)) (currentWordIndex (app w1))
                = Some word) by exact Hword.
  pose proof (displayCurrentWord_shows w1 word Hw1) as Sh.
  unfold X. rewrite E1, E2, U1, U2, F1, Sh. repeat split.
Qed.

(** X16. A manual step in a started engine, by click or by key, puts the
    word index one word back, but not before the first word, or one word
    forward, but not past the last word; the paragraph index and the
    model are left alone. When the index moves the engine is paused with
    no timer armed, the word at the new index is shown split at its ORP
    and the counter follows. *)
Theorem manual_step_moves_one_word :
  forall (allowed : Event -> bool) (w : World) (e : Event),
    ReachableBy allowed w ->
    hasStarted (app w) = true ->
    isStepEvent e = true ->
    exists w',
      handle e w = Some w'
      /\ currentWordIndex (app w') = stepTarget e (app w)
      /\ currentParagraphIndex (app w') = currentParagraphIndex (app w)
      /\ paragraphs (app w') = paragraphs (app w)
      /\ appWords (app w') = appWords (app w)
      /\ (currentWordIndex (app w') <> currentWordIndex (app w) ->
          isPlaying (app w') = false
          /\ isPaused (app w') = true
          /\ pending w' = []
          /\ exists word,
               nth_error (appWords (app w)) (currentWordIndex (app w'))
               = Some word
               /\ shownWord w' = splitParts (splitWordAtORP word)
               /\ wordCounter (dom w')
                  = (currentWordIndex (app w') + 1,
                     length (appWords (app w)))).
Proof.
  intros allowed w e Hr Hs He.
  pose proof (Reachable_Inv allowed w Hr) as HI.
  pose proof HI as (HT & HP & HM & HB).
  destruct (HM Hs) as (Hwf & Hws & Hle & Hcpi).
  pose proof (pause_app w) as Ea.
  pose proof (pause_pending w HT) as Ep.
  destruct (pause_samePosition w) as (P1 & P2 & P3 & P4 & P5).
  assert (Hback : 0 < currentWordIndex (app w) ->
            exists word,
              nth_error (appWords (app (pause w)))
                ((fun n => n - 1) (currentWordIndex (app (pause w))))
              = Some word).
  { intros Hpos. rewrite P2, P3. cbv beta.
    destruct (nth_error (appWords (app w)) (currentWordIndex (app w) - 1))
      as [word|] eqn:E; [eauto|].
    apply nth_error_None in E. lia. }
  assert (Hfwd : currentWordIndex (app w) < length (appWords (app w)) - 1 ->
            exists word,
              nth_error (appWords (app (pause w)))
                ((fun n => n + 1) (currentWordIndex (app (pause w))))
              = Some word).
  { intros Hpos. rewrite P2, P3. cbv beta.
    destruct (nth_error (appWords (app w)) (currentWordIndex (app w) + 1))
      as [word|] eqn:E; [eauto|].
    apply nth_error_None in E. lia. }
  assert (Hstay : forall w0 : World,
            samePosition (app w) (app w0) ->
            currentWordIndex (app w) = stepTarget e (app w) ->
            exists w',
              Some w0 = Some w'
              /\ currentWordIndex (app w') = stepTarget e (app w)
              /\ currentParagraphIndex (app w')
                 = currentParagraphIndex (app w)
              /\ paragraphs (app w') = paragraphs (app w)
              /\ appWords (app w') = appWords (app w)
              /\ (currentWordIndex (app w') <> currentWordIndex (app w) ->
                  isPlaying (app w') = false
                  /\ isPaused (app w') = true
                  /\ pending w' = []
                  /\ exists word,
                       nth_error (appWords (app w))
                         (currentWordIndex (app w')) = Some word
                       /\ shownWord w' = splitParts (splitWordAtORP word)
                       /\ wordCounter (dom w')
                          = (currentWordIndex (app w') + 1,
                             length (appWords (app w))))).
  { intros w0 (Q1 & Q2 & Q3 & Q4 & Q5) Ht. exists w0.
    split; [reflexivity|]. split; [congruence|].
    split; [exact Q4|]. split; [exact Q1|]. split; [exact Q2|].
    intros Hne. congruence. }
  assert (Hmove : forall (h : nat -> nat) (word : jsstring) (w0 : World),
            nth_error (appWords (app (pause w)))
              (h (currentWordIndex (app (pause w)))) = Some word ->
            h (currentWordIndex (app w)) = stepTarget e (app w) ->
            app w0 = set_currentWordIndex
                       (h (currentWordIndex (app (pause w)))) (app (pause w)) ->
            pending w0 = pending (pause w) ->
            shownWord w0 = splitParts (splitWordAtORP word) ->
            wordCounter (dom w0)
            = (h (currentWordIndex (app (pause w))) + 1,
               length (appWords (app (pause w)))) ->
            exists w',
              Some w0 = Some w'
              /\ currentWordIndex (app w') = stepTarget e (app w)
              /\ currentParagraphIndex (app w')
                 = currentParagraphIndex (app w)
              /\ paragraphs (app w') = paragraphs (app w)
              /\ appWords (app w') = appWords (app w)
              /\ (currentWordIndex (app w') <> currentWordIndex (app w) ->
                  isPlaying (app w') = false
                  /\ isPaused (app w') = true
                  /\ pending w' = []
                  /\ exists word,
                       nth_error (appWords (app w))
                         (currentWordIndex (app w')) = Some word
                       /\ shownWord w' = splitParts (splitWordAtORP word)
                       /\ wordCounter (dom w')
                          = (currentWordIndex (app w') + 1,
                             length (appWords (app w))))).
  { intros h word w0 Hword Ht A P Sh C. exists w0.
    rewrite P2, P3 in Hword. rewrite P3, P2 in C. rewrite P3 in A.
    split; [reflexivity|].
    rewrite A, P, Sh, C, Ep, Ea.
    cbn [currentWordIndex currentParagraphIndex paragraphs appWords isPlaying
         isPaused set_currentWordIndex set_sentencePauseTimeoutId
         set_intervalId set_isPaused set_isPlaying].
    split; [exact Ht|]. split; [reflexivity|]. split; [reflexivity|].
    split; [reflexivity|]. intros _.
    split; [reflexivity|]. split; [reflexivity|]. split; [reflexivity|].
    exists word. split; [exact Hword|]. split; reflexivity. }
  assert (Hb : stepTarget e (app w)
               = if isBackStep e then currentWordIndex (app w) - 1
                 else if currentWordIndex (app w)
                         <? length (appWords (app w)) - 1
                      then currentWordIndex (app w) + 1
                      else currentWordIndex (app w)) by reflexivity.
  destruct e as [| | |k| | | |]; try discriminate He;
    [| |destruct k; try discriminate He]; cbn [isBackStep] in Hb.
  - (* click on the previous arrow *)
    cbn [handle]. unfold navigatePrev. rewrite Hs. cbn [andb].
    destruct (0 <? currentWordIndex (app w)) eqn:G.
    + apply Nat.ltb_lt in G. destruct (Hback G) as [word Hword].
      destruct (moved_effect (pause w) (fun n => n - 1) word Hword)
        as (A & P & Sh & C).
      cbv zeta.
      set (X := updateWordCounter (displayCurrentWord (updApp _ (pause w))))
        in *.
      clearbody X.
      destruct (updateStatus_frame MsgPaused false X) as (F1 & F2 & _).
      destruct (updateStatus_page MsgPaused false X) as (G1 & G2 & _).
      rewrite <- F1 in A. rewrite <- F2 in P.
      rewrite <- G1 in Sh. rewrite <- G2 in C.
      exact (Hmove (fun n => n - 1) word _ Hword (eq_sym Hb) A P Sh C).
    + apply Nat.ltb_ge in G. apply Hstay; [apply samePosition_refl|].
      rewrite Hb. lia.
  - (* click on the next arrow *)
    cbn [handle]. unfold navigateNext. rewrite Hs. cbn [andb].
    destruct (currentWordIndex (app w) <? length (appWords (app w)) - 1)
      eqn:G.
    + pose proof G as G'. apply Nat.ltb_lt in G'.
      destruct (Hfwd G') as [word Hword].
      destruct (moved_effect (pause w) (fun n => n + 1) word Hword)
        as (A & P & Sh & C).
      cbv zeta.
      set (X := updateWordCounter (displayCurrentWord (updApp _ (pause w))))
        in *.
      clearbody X.
      destruct (updateStatus_frame MsgPaused false X) as (F1 & F2 & _).
      destruct (updateStatus_page MsgPaused false X) as (G1 & G2 & _).
      rewrite <- F1 in A. rewrite <- F2 in P.
      rewrite <- G1 in Sh. rewrite <- G2 in C.
      exact (Hmove (fun n => n + 1) word _ Hword (eq_sym Hb) A P Sh C).
    + apply Hstay; [apply samePosition_refl|]. rewrite Hb. reflexivity.
  - (* the left arrow key *)
    cbn [handle onGlobalKeydown]. rewrite Hs. cbv zeta. rewrite P3.
    destruct (0 <? currentWordIndex (app w)) eqn:G.
    + apply Nat.ltb_lt in G. destruct (Hback G) as [word Hword].
      destruct (moved_effect (pause w) (fun n => n - 1) word Hword)
        as (A & P & Sh & C).
      set (X := updateWordCounter (displayCurrentWord (updApp _ (pause w))))
        in *.
      clearbody X.
      exact (Hmove (fun n => n - 1) word _ Hword (eq_sym Hb) A P Sh C).
    + apply Nat.ltb_ge in G. apply Hstay; [apply pause_samePosition|].
      rewrite Hb. lia.
  - (* the right arrow key *)
    cbn [handle onGlobalKeydown]. rewrite Hs. cbv zeta. rewrite P3, P2.
    destruct (currentWordIndex (app w) <? length (appWords (app w)) - 1)
      eqn:G.
    + pose proof G as G'. apply Nat.ltb_lt in G'.
      destruct (Hfwd G') as [word Hword].
      destruct (moved_effect (pause w) (fun n => n + 1) word Hword)
        as (A & P & Sh & C).
      set (X := updateWordCounter (displayCurrentWord (updApp _ (pause w))))
        in *.
      clearbody X.
      exact (Hmove (fun n => n + 1) word _ Hword (eq_sym Hb) A P Sh C).
    + apply Hstay; [apply pause_samePosition|]. rewrite Hb. reflexivity.
Qed.

Lemma manual_step_moves_one_word_witness :
  ReachableBy (fun _ => true) justStarted
  /\ hasStarted (app justStarted) = true
  /\ exists w',
       handle ClickNext justStarted = Some w'
       /\ currentWordIndex (app w') = 1
       /\ isPlaying (app w') = false
       /\ pending w' = [].
Proof.
  assert (Hr : ReachableBy (fun _ => true) justStarted).
  { apply (Reachable_step _ (initial 300 200 twoWords) ClickReader);
      [apply Reachable_initial | reflexivity | vm_compute; reflexivity]. }
  assert (Hs : hasStarted (app justStarted) = true)
    by (vm_compute; reflexivity).
  assert (He : isStepEvent ClickNext = true) by reflexivity.
  destruct (manual_step_moves_one_word (fun _ => true) justStarted ClickNext
              Hr Hs He) as (w' & H1 & H2 & _ & _ & _ & H6).
  assert (H2' : currentWordIndex (app w') = 1)
    by (rewrite H2; vm_compute; reflexivity).
  assert (Hne : currentWordIndex (app w')
                <> currentWordIndex (app justStarted))
    by (rewrite H2'; vm_compute; discriminate).
  destruct (H6 Hne) as (H7 & _ & H9 & _).
  split; [exact Hr|]. split; [exact Hs|].
  exists w'. repeat split; assumption.
Defined.

(** X17. The R key in a started engine puts the word index at the first
    word of the current paragraph, shows that word split at its ORP with
    the counter following, and leaves the engine playing. An engine that
    was playing keeps the timer it had armed; an idle one arms one timer
    of [60000 / wpm] ms. *)
Theorem restart_goes_to_paragraph_start :
  forall (allowed : Event -> bool) (w : World),
    ReachableBy allowed w ->
    hasStarted (app w) = true ->
    exists w' p word,
      handle (KeyDown KeyR) w = Some w'
      /\ nth_error (paragraphs (app w)) (currentParagraphIndex (app w))
         = Some p
      /\ currentWordIndex (app w') = startWordIndex p
      /\ currentParagraphIndex (app w') = currentParagraphIndex (app w)
      /\ paragraphs (app w') = paragraphs (app w)
      /\ appWords (app w') = appWords (app w)
      /\ isPlaying (app w') = true
      /\ nth_error (appWords (app w)) (startWordIndex p) = Some word
      /\ shownWord w' = splitParts (splitWordAtORP word)
      /\ wordCounter (dom w')
         = (startWordIndex p + 1, length (appWords (app w)))
      /\ (if isPlaying (app w) then pending w' = pending w
          else exists cb,
                 pending w' = [{| timerId := nextTimerId w;
                                  timerDelay := (60000 # wpm (app w))%Q;
                                  timerCallback := cb |}]).
Proof.
  intros allowed w Hr Hs.
  pose proof (Reachable_Inv allowed w Hr) as HI.
  pose proof HI as (HT & HP & HM & HB).
  pose proof (HM Hs) as Hm.
  destruct (modelOK_nth _ Hm) as [p Hp].
  destruct (paragraph_start_word _ _ _ Hm Hp) as [word Hword].
  cbn [handle onGlobalKeydown]. rewrite Hs.
  unfold restartCurrentParagraph. rewrite Hp. cbv zeta.
  set (w1 := updApp (set_currentWordIndex (startWordIndex p)) w).
  assert (Hw1 : nth_error (appWords (app w1)) (currentWordIndex (app w1))
                = Some word) by exact Hword.
  exists (play (updateWordCounter (displayCurrentWord w1))), p, word.
  split; [reflexivity|]. split; [reflexivity|].
  destruct (isPlaying (app w)) eqn:Hplay.
  - assert (Hp1 : isPlaying (app w1) = true) by exact Hplay.
    destruct (display_while_playing w1 word Hp1 Hw1) as (A & P & Sh & C).
    rewrite A, P, Sh, C.
    split; [reflexivity|]. split; [reflexivity|]. split; [reflexivity|].
    split; [reflexivity|]. split; [exact Hplay|]. split; [exact Hword|].
    split; [reflexivity|]. split; reflexivity.
  - assert (Hp1 : isPlaying (app w1) = false) by exact Hplay.
    pose proof (Reachable_idle allowed w Hr Hplay) as Hpd.
    destruct (display_then_play w1 word Hp1 Hw1) as (A & P & Sh & C & _).
    rewrite A, P, Sh, C.
    split; [reflexivity|]. split; [reflexivity|]. split; [reflexivity|].
    split; [reflexivity|]. split; [reflexivity|]. split; [exact Hword|].
    split; [reflexivity|]. split; [reflexivity|].
    eexists. unfold w1. cbn [pending updApp nextTimerId]. rewrite Hpd.
    reflexivity.
Qed.

Lemma restart_goes_to_paragraph_start_witness :
  ReachableBy (fun _ => true) atParagraphBreak
  /\ hasStarted (app atParagraphBreak) = true
  /\ exists w',
       handle (KeyDown KeyR) atParagraphBreak = Some w'
       /\ currentWordIndex (app w') = 0
       /\ isPlaying (app w') = true.
Proof.
  assert (Hr : ReachableBy (fun _ => true) atParagraphBreak).
  { apply (run_Reachable (fun _ => true) [ClickReader; TimerFires 1]
             (initial 300 200 twoLines) atParagraphBreak);
      [apply Reachable_initial | reflexivity | vm_compute; reflexivity]. }
  assert (Hs : hasStarted (app atParagraphBreak) = true)
    by (vm_compute; reflexivity).
  destruct (restart_goes_to_paragraph_start (fun _ => true) atParagraphBreak
              Hr Hs)
    as (w' & p & word & H1 & H2 & H3 & _ & _ & _ & H7 & _).
  split; [exact Hr|]. split; [exact Hs|].
  exists w'. split; [exact H1|]. split; [|exact H7].
  rewrite H3. vm_compute in H2. injection H2 as <-. reflexivity.
Defined.

(** The timer of a word that needs no blanking fires. *)
Lemma fire_plain (w : World) (t : Timer) (p : Paragraph) :
  Inv w -> ModeOK w -> pending w = [t] ->
  timerCallback t <> CbSentenceClear ->
  nth_error (paragraphs (app w)) (currentParagraphIndex (app w)) = Some p ->
  exists w',
    fireTimer (timerId t) w = Some w'
    /\ Inv w' /\ ModeOK w'
    /\ currentWordIndex (app w') = currentWordIndex (app w) + 1
    /\ currentParagraphIndex (app w') = currentParagraphIndex (app w)
    /\ paragraphs (app w') = paragraphs (app w)
    /\ (currentWordIndex (app w) + 1 < paragraphEnd p ->
        isPlaying (app w') = true)
    /\ (paragraphEnd p <= currentWordIndex (app w) + 1 ->
        isPlaying (app w') = false
        /\ statusText (dom w') = breakMessage (app w)
        /\ statusBreak (dom w') = true).
Proof.
  intros HI HMo Hpd Hcb Hp.
  destruct (fireTimer_Inv (timerId t) w HI) as (w' & Hf & HI' & _).
  pose proof (fireTimer_Mode _ _ _ HI HMo Hf) as HMo'.
  pose proof HI as (HT & HP & HM & HB).
  assert (Hplay : isPlaying (app w) = true).
  { unfold timersOK in HT. rewrite Hpd in HT. apply HT. }
  destruct (fire_single w t Hpd) as [Hf0 Hclr].
  rewrite Hf in Hf0.
  set (w0 := clearTimeout (timerId t) w) in *.
  rewrite (advance_playing _ w0 Hcb Hplay) in Hf0.
  symmetry in Hf0.
  exists w'. split; [exact Hf|]. split; [exact HI'|].
  split; [exact HMo'|].
  split; [exact (advanceWord_index w0 w' Hf0)|].
  destruct (Nat.lt_ge_cases (currentWordIndex (app w) + 1) (paragraphEnd p))
    as [Hlt|Hge].
  - rewrite (advanceWord_within w0 p Hp Hlt) in Hf0.
    injection Hf0 as <-.
    set (w2 := updateWordCounter (displayCurrentWord (stepped w0))).
    destruct (display_frame (stepped w0)) as (E1 & _ & _).
    fold w2 in E1.
    assert (Hplay2 : isPlaying (app w2) = true) by (rewrite E1; exact Hplay).
    assert (A : app (scheduleNextWord w2)
                = set_intervalId (Some (nextTimerId w2)) (app w2))
      by (rewrite (scheduleNextWord_playing w2 Hplay2); reflexivity).
    rewrite A, E1.
    split; [reflexivity|]. split; [reflexivity|].
    split; [intros _; exact Hplay | intros H; lia].
  - rewrite (advanceWord_at_end w0 p Hp Hge) in Hf0.
    injection Hf0 as <-.
    destruct (updateStatus_frame (breakMessage (app w)) true
                (pause (stepped w0))) as (F1 & _ & _).
    destruct (updateStatus_page (breakMessage (app w)) true
                (pause (stepped w0))) as (_ & _ & _ & _ & U5 & U6 & _).
    rewrite F1, U5, U6, (pause_app (stepped w0)).
    split; [reflexivity|]. split; [reflexivity|].
    split; [intros H; lia | intros _; repeat split].
Qed.

(** The timer of a word that needs blanking fires: the timer of the
    sentence pause is armed at the same position. *)
Lemma fire_clear (w : World) (t : Timer) :
  Inv w -> ModeOK w -> pending w = [t] ->
  timerCallback t = CbSentenceClear ->
  exists w' t',
    fireTimer (timerId t) w = Some w'
    /\ Inv w' /\ ModeOK w'
    /\ samePosition (app w) (app w')
    /\ isPlaying (app w') = true
    /\ pending w' = [t']
    /\ timerCallback t' = CbSentenceAdvance.
Proof.
  intros HI HMo Hpd Hcb.
  destruct (fireTimer_Inv (timerId t) w HI) as (w' & Hf & HI' & _).
  pose proof (fireTimer_Mode _ _ _ HI HMo Hf) as HMo'.
  pose proof HI as (HT & HP & HM & HB).
  assert (Hplay : isPlaying (app w) = true).
  { unfold timersOK in HT. rewrite Hpd in HT. apply HT. }
  destruct (fire_single w t Hpd) as [Hf0 Hclr].
  rewrite Hf, Hcb in Hf0.
  set (w0 := clearTimeout (timerId t) w) in *.
  assert (Ea : app w0 = app w) by reflexivity.
  rewrite (sentenceClear_playing w0 Hplay) in Hf0.
  clearbody w0.
  injection Hf0 as ->.
  eexists _, _. split; [exact Hf|]. split; [exact HI'|].
  split; [exact HMo'|].
  cbn [app pending]. rewrite Hclr, Ea.
  split; [repeat split|]. split; [exact Hplay|].
  split; reflexivity.
Qed.

Lemma fireArmed_single (w : World) (t : Timer) :
  pending w = [t] -> fireArmed w = fireTimer (timerId t) w.
Proof. intros H. unfold fireArmed. rewrite H. reflexivity. Qed.

Lemma playing_one_timer (w : World) :
  Inv w -> ModeOK w -> isPlaying (app w) = true ->
  exists t, pending w = [t].
Proof.
  intros (HT & _) (_ & HMo) Hplay. specialize (HMo Hplay).
  unfold timersOK in HT.
  destruct (pending w) as [|t [|t' l]];
    [congruence | eauto | contradiction].
Qed.

Section ReadingAParagraph.

Variable ps : list Paragraph.
Variable j : nat.
Variable p : Paragraph.
Hypothesis Hp : nth_error ps j = Some p.

Lemma timers_read_paragraph (k : nat) :
  forall w : World,
    Inv w -> ModeOK w -> isPlaying (app w) = true ->
    paragraphs (app w) = ps -> currentParagraphIndex (app w) = j ->
    paragraphEnd p = currentWordIndex (app w) + k ->
    exists n w',
      fireArmedTimes n w = Some w'
      /\ k <= n /\ n <= 2 * k
      /\ stoppedAtEnd ps j p w'.
Proof.
  induction k as [|k IH]; intros w HI HMo Hplay Hps Hj Hk.
  { exfalso. destruct HI as (_ & _ & _ & HB).
    assert (Hp' : nth_error (paragraphs (app w))
                    (currentParagraphIndex (app w)) = Some p)
      by (rewrite Hps, Hj; exact Hp).
    pose proof (HB Hplay p Hp'). lia. }
  assert (Hplain : forall (v : World) (t : Timer),
            Inv v -> ModeOK v -> pending v = [t] ->
            timerCallback t <> CbSentenceClear ->
            paragraphs (app v) = ps -> currentParagraphIndex (app v) = j ->
            currentWordIndex (app v) = currentWordIndex (app w) ->
            exists n w',
              fireArmedTimes (S n) v = Some w'
              /\ k <= n /\ n <= 2 * k
              /\ stoppedAtEnd ps j p w').
  { intros v t HIv HMv Hpdv Hcb Hpsv Hjv Hcv.
    assert (Hpv : nth_error (paragraphs (app v))
                    (currentParagraphIndex (app v)) = Some p)
      by (rewrite Hpsv, Hjv; exact Hp).
    destruct (fire_plain v t p HIv HMv Hpdv Hcb Hpv)
      as (v' & Hf & HI' & HM' & C1 & C2 & C3 & Hin & Hout).
    destruct k as [|k'].
    - exists 0, v'. cbn [fireArmedTimes].
      rewrite (fireArmed_single v t Hpdv), Hf.
      split; [reflexivity|]. split; [lia|]. split; [lia|].
      destruct Hout as (O1 & O2 & O3); [lia|].
      unfold stoppedAtEnd. split; [exact O1|]. split; [lia|].
      split; [congruence|]. split; [congruence|].
      split; [apply not_playing_no_timer; [apply HI' | exact O1]|].
      split; [|exact O3].
      rewrite O2. unfold breakMessage. rewrite Hpsv, Hjv. reflexivity.
    - assert (Hplay' : isPlaying (app v') = true) by (apply Hin; lia).
      assert (IHv' : exists n w',
                fireArmedTimes n v' = Some w'
                /\ S k' <= n /\ n <= 2 * S k' /\ stoppedAtEnd ps j p w').
      { clear Hin Hout.
        destruct (playing_one_timer v' HI' HM' Hplay') as [t' Hpd'].
        pose proof HI' as (_ & _ & _ & HB').
        assert (Hpv' : nth_error (paragraphs (app v'))
                         (currentParagraphIndex (app v')) = Some p)
          by (rewrite C3, C2; exact Hpv).
        pose proof (HB' Hplay' p Hpv') as Hlt'.
        (* the induction hypothesis is stated from [w]: move it to [v'] *)
        revert IH. intros IH.
        assert (G : forall u : World,
                  Inv u -> ModeOK u -> isPlaying (app u) = true ->
                  paragraphs (app u) = ps ->
                  currentParagraphIndex (app u) = j ->
                  paragraphEnd p = currentWordIndex (app u) + S k' ->
                  exists n w',
                    fireArmedTimes n u = Some w'
                    /\ S k' <= n /\ n <= 2 * S k' /\ stoppedAtEnd ps j p w')
          by exact IH.
        apply G; try assumption; [congruence | congruence | lia]. }
      destruct IHv' as (n & w' & R & B1 & B2 & Hend).
      exists n, w'. cbn [fireArmedTimes].
      rewrite (fireArmed_single v t Hpdv), Hf.
      split; [exact R|]. split; [exact B1|]. split; [exact B2|exact Hend]. }
  destruct (playing_one_timer w HI HMo Hplay) as [t Hpd].
  destruct (timerCallback t) eqn:Hcb.
  1:{ destruct (fire_clear w t HI HMo Hpd Hcb)
      as (w1 & t1 & Hf & HI1 & HM1 & (S1 & S2 & S3 & S4 & S5) & Hplay1
          & Hpd1 & Hcb1).
    assert (Hcb1' : timerCallback t1 <> CbSentenceClear)
      by (rewrite Hcb1; discriminate).
    destruct (Hplain w1 t1 HI1 HM1 Hpd1 Hcb1')
      as (n & w' & R & B1 & B2 & Hend); [congruence | congruence | exact S3|].
    exists (S (S n)), w'.
    change (fireArmedTimes (S (S n)) w)
      with (match fireArmed w with
            | Some w' => fireArmedTimes (S n) w'
            | None => None
            end).
    rewrite (fireArmed_single w t Hpd), Hf.
    split; [exact R|]. split; [lia|]. split; [lia|exact Hend]. }
  all: assert (Hcb' : timerCallback t <> CbSentenceClear)
         by (rewrite Hcb; discriminate);
       destruct (Hplain w t HI HMo Hpd Hcb' Hps Hj eq_refl)
         as (n & w' & R & B1 & B2 & Hend);
       exists (S n), w';
       (split; [exact R|]); (split; [lia|]); (split; [lia|exact Hend]).
Qed.

End ReadingAParagraph.

(** X18. Left to its timers, a playing engine reads its paragraph to the
    end: firing the armed timer again and again stops the engine at the
    end of the current paragraph, with the status of the break and no
    timer armed, after at least one firing per remaining word and at most
    two, the second being that of a sentence pause. *)
Theorem timers_read_to_paragraph_end :
  forall (allowed : Event -> bool) (w : World) (p : Paragraph),
    ReachableBy allowed w ->
    isPlaying (app w) = true ->
    nth_error (paragraphs (app w)) (currentParagraphIndex (app w)) = Some p ->
    exists n w',
      fireArmedTimes n w = Some w'
      /\ paragraphEnd p - currentWordIndex (app w) <= n
      /\ n <= 2 * (paragraphEnd p - currentWordIndex (app w))
      /\ stoppedAtEnd (paragraphs (app w)) (currentParagraphIndex (app w))
           p w'.
Proof.
  intros allowed w p Hr Hplay Hp.
  pose proof (Reachable_Inv allowed w Hr) as HI.
  pose proof (Reachable_Mode allowed w Hr) as HMo.
  pose proof HI as (_ & _ & _ & HB).
  pose proof (HB Hplay p Hp) as Hlt.
  apply (timers_read_paragraph _ _ p Hp
           (paragraphEnd p - currentWordIndex (app w)) w HI HMo Hplay);
    [reflexivity | reflexivity | lia].
Qed.

Lemma timers_read_to_paragraph_end_witness :
  ReachableBy (fun _ => true) justStarted
  /\ isPlaying (app justStarted) = true
  /\ exists n w',
       fireArmedTimes n justStarted = Some w'
       /\ 2 <= n /\ n <= 4
       /\ isPlaying (app w') = false
       /\ currentWordIndex (app w') = 2.
Proof.
  assert (Hr : ReachableBy (fun _ => true) justStarted).
  { apply (Reachable_step _ (initial 300 200 twoWords) ClickReader);
      [apply Reachable_initial | reflexivity | vm_compute; reflexivity]. }
  assert (Hplay : isPlaying (app justStarted) = true)
    by (vm_compute; reflexivity).
  assert (Hp : nth_error (paragraphs (app justStarted))
                 (currentParagraphIndex (app justStarted))
               = Some {| index := 0; text := str "a b";
                         words := [str "a"; str "b"];
                         startWordIndex := 0 |})
    by (vm_compute; reflexivity).
  destruct (timers_read_to_paragraph_end (fun _ => true) justStarted _
              Hr Hplay Hp) as (n & w' & H1 & H2 & H3 & H4 & H5 & _).
  split; [exact Hr|]. split; [exact Hplay|].
  exists n, w'. split; [exact H1|].
  split; [vm_compute in H2; exact H2|].
  split; [vm_compute in H3; exact H3|].
  split; [exact H4|]. rewrite H5. reflexivity.
Defined.

(** X19. [isSentenceEnd] holds of the words whose last character is one
    of [.], [!], [?], and of the words that end with one of these followed
    by a quotation mark, and of no other word; it does not hold of the
    undefined word read past the end of the text. *)
Theorem isSentenceEnd_suffix :
  forall s : jsstring,
    (isSentenceEnd (Some s) = true <->
     (exists pre c, s = pre ++ [c] /\ isTerminator c = true)
     \/ (exists pre d c,
           s = pre ++ [d; c] /\ isTerminator d = true /\ isQuote c = true))
    /\ isSentenceEnd None = false.
Proof.
  intros s. split; [|vm_compute; reflexivity].
  unfold isSentenceEnd. cbv beta iota zeta. split.
  - intros H. pose proof (rev_involutive s) as Hs.
    destruct (rev s) as [|c r]; [discriminate|].
    apply orb_true_iff in H. destruct H as [H|H].
    + left. exists (rev r), c. split; [|exact H].
      rewrite <- Hs. reflexivity.
    + destruct r as [|d r2]; [discriminate|].
      apply andb_true_iff in H. destruct H as [H1 H2].
      right. exists (rev r2), d, c. split; [|split; assumption].
      rewrite <- Hs. cbn [rev]. rewrite <- app_assoc. reflexivity.
  - intros [(pre & c & -> & H)|(pre & d & c & -> & H1 & H2)].
    + rewrite rev_app_distr. cbn [rev List.app]. rewrite H. reflexivity.
    + rewrite rev_app_distr. cbn [rev List.app]. rewrite H1, H2.
      apply orb_true_r.
Qed.

(** X20. Before reading has started the navigation does nothing: the two
    arrows, by click or by key, and the R key leave the engine and the
    page as they are. *)
Theorem navigation_needs_started :
  forall (w : World) (e : Event),
    hasStarted (app w) = false ->
    isStepEvent e = true \/ e = KeyDown KeyR ->
    handle e w = Some w.
Proof.
  intros w e Hs [He| ->].
  - destruct e as [| | |k| | | |]; try discriminate He;
      [| |destruct k; try discriminate He]; cbn [handle onGlobalKeydown].
    + unfold navigatePrev. rewrite Hs. reflexivity.
    + unfold navigateNext. rewrite Hs. reflexivity.
    + rewrite Hs. reflexivity.
    + rewrite Hs. reflexivity.
  - cbn [handle onGlobalKeydown]. rewrite Hs. reflexivity.
Qed.

Lemma navigation_needs_started_witness :
  hasStarted (app (initial 300 200 twoWords)) = false
  /\ handle ClickNext (initial 300 200 twoWords)
     = Some (initial 300 200 twoWords).
Proof.
  assert (Hs : hasStarted (app (initial 300 200 twoWords)) = false)
    by reflexivity.
  split; [exact Hs|].
  apply (navigation_needs_started (initial 300 200 twoWords) ClickNext Hs).
  left. reflexivity.
Defined.

(** ** The timer an event arms *)

Lemma scheduledTimer_ext (a a' : App) (id : positive) :
  wpm a' = wpm a -> sentencePause a' = sentencePause a ->
  appWords a' = appWords a -> currentWordIndex a' = currentWordIndex a ->
  scheduledTimer a' id = scheduledTimer a id.
Proof.
  intros E1 E2 E3 E4.
  unfold scheduledTimer, needsSentencePause, baseInterval.
  rewrite E1, E2, E3, E4. reflexivity.
Qed.




















